(** * stdgif: the cell quantizer, the aspect fitter and the playback loop

    A shallow embedding of [stdgif.py] (a Python 2 program: [sys.maxint],
    [unicode.encode], integer [/]) and the properties of its
    specification.  Python integers are [Z], byte strings are [string],
    coordinates and list indices are [nat], a [Fraction] is a [Q] in
    lowest terms, a finite float is the [Q] it is equal to, and an
    exception is [None]. *)

From Stdlib Require Import ZArith List String Ascii Bool Arith Lia.
From Stdlib Require Import QArith Qround Permutation DecimalString.
Import ListNotations.

Local Open Scope Z_scope.

(* ================================================================== *)
(** ** Python built-ins used by the program *)
(* ================================================================== *)

Module Py.

(** [range(a, b)] on non-negative bounds. *)
Definition range (a b : nat) : list nat := seq a (b - a).

(** [range(a, b, step)] for a positive step: [a, a+step, ...] below [b]. *)
Definition range_step (a b step : nat) : list nat :=
  map (fun k => (a + k * step)%nat) (seq 0 ((b - a + (step - 1)) / step)).

(** [str(n)] for an integer. *)
Definition str (n : Z) : string := NilZero.string_of_int (Z.to_int n).

(** [sep.join(parts)]. *)
Fixpoint join (sep : string) (parts : list string) : string :=
  match parts with
  | [] => EmptyString
  | [p] => p
  | p :: rest => (p ++ sep ++ join sep rest)%string
  end.

(** [sum(l)] and [len(l)]. *)
Definition sum (l : list Z) : Z := fold_left Z.add l 0.
Definition len {A} (l : list A) : Z := Z.of_nat (List.length l).

(** The binary digits of a positive number, most significant first. *)
Fixpoint bin_digits (p : positive) (acc : string) : string :=
  match p with
  | xH => String "1" acc
  | xO q => bin_digits q (String "0" acc)
  | xI q => bin_digits q (String "1" acc)
  end.

(** [bin(n)]. *)
Definition bin (n : Z) : string :=
  match n with
  | Z0 => "0b0"%string
  | Zpos p => ("0b" ++ bin_digits p EmptyString)%string
  | Zneg p => ("-0b" ++ bin_digits p EmptyString)%string
  end.

(** [s.count(c)] for a one-character needle. *)
Fixpoint count (c : ascii) (s : string) : Z :=
  match s with
  | EmptyString => 0
  | String d rest => (if Ascii.eqb d c then 1 else 0) + count c rest
  end.

(** [sys.maxint] of a 64-bit CPython 2 ([2^63 - 1]); the program only
    uses it as a value above every Hamming distance. *)
Definition maxint : Z := 9223372036854775807.

(** One byte of a byte string. *)
Definition byte (n : Z) : ascii := ascii_of_N (Z.to_N n).

(** [c.encode('utf-8')] of the one-character string with code point [cp]. *)
Definition encode_utf8 (cp : Z) : string :=
  if cp <? 128 then String (byte cp) EmptyString
  else if cp <? 2048 then
    String (byte (Z.lor 192 (Z.shiftr cp 6)))
      (String (byte (Z.lor 128 (Z.land cp 63))) EmptyString)
  else if cp <? 65536 then
    String (byte (Z.lor 224 (Z.shiftr cp 12)))
      (String (byte (Z.lor 128 (Z.land (Z.shiftr cp 6) 63)))
         (String (byte (Z.lor 128 (Z.land cp 63))) EmptyString))
  else
    String (byte (Z.lor 240 (Z.shiftr cp 18)))
      (String (byte (Z.lor 128 (Z.land (Z.shiftr cp 12) 63)))
         (String (byte (Z.lor 128 (Z.land (Z.shiftr cp 6) 63)))
            (String (byte (Z.lor 128 (Z.land cp 63))) EmptyString))).

(** A Python float is an IEEE 754 double; a finite one is modelled by
    the rational number it is equal to. *)

(** The exponent of the binade of [n/d] for positive [n] and [d]: the
    [k] with [2^k <= n/d < 2^(k+1)]. *)
Definition floor_log2_ratio (n d : Z) : Z :=
  let k := Z.log2 n - Z.log2 d in
  if (if 0 <=? k then d * 2 ^ k <=? n else d <=? n * 2 ^ (- k)) then k else k - 1.

(** The integer nearest to [a/b], ties to the even one ([0 <= a],
    [0 < b]). *)
Definition round_half_even (a b : Z) : Z :=
  let q := a / b in
  let r := a mod b in
  if 2 * r <? b then q
  else if b <? 2 * r then q + 1
  else if Z.even q then q else q + 1.

(** The true division [n / d] of two positive integers: the double
    nearest to the quotient, ties to even, with 53 significant bits
    (fewer below [2^-1022]); [None] is the [OverflowError] of a quotient
    that rounds to [2^1024] or more. *)
Definition true_divide (n d : Z) : option Q :=
  let k := floor_log2_ratio n d in
  let e := Z.max (k - 52) (-1074) in
  if 0 <=? e then
    let m := round_half_even n (d * 2 ^ e) in
    if 2 ^ 1024 <=? m * 2 ^ e then None else Some (inject_Z (m * 2 ^ e))
  else
    let m := round_half_even (n * 2 ^ (- e)) d in
    Some (m # Z.to_pos (2 ^ (- e))).

(** [float(q)] for a fraction [q]: the true division of its numerator
    by its denominator. *)
Definition float (q : Q) : option Q :=
  match Qnum q with
  | Z0 => Some 0%Q
  | Zpos _ => true_divide (Qnum q) (Zpos (Qden q))
  | Zneg _ =>
    match true_divide (- Qnum q) (Zpos (Qden q)) with
    | Some x => Some (- x)%Q
    | None => None
    end
  end.

(** [int(round(x))] for a float [x]: the nearest integer, halves away
    from zero (Python 2). *)
Definition round_float (x : Q) : Z :=
  if Qle_bool 0 x then Qfloor (x + (1 # 2)) else Qceiling (x - (1 # 2)).

(** [int(round(q))] for a fraction [q]: Python 2 converts the fraction
    to a float and rounds the float. *)
Definition round (q : Q) : option Z :=
  match float q with
  | Some x => Some (round_float x)
  | None => None
  end.

(** The escape character and the other control bytes of the program's
    string literals. *)
Definition ESC : string := String "027" EmptyString.
Definition CR : string := String "013" EmptyString.
Definition LF : string := String "010" EmptyString.

End Py.

(** A failing Python expression ([IndexError], [KeyError], an unbound
    local) makes the enclosing function fail: [None]. *)
Definition bind {A B} (o : option A) (f : A -> option B) : option B :=
  match o with Some a => f a | None => None end.

Notation "x <- e ;; k" := (bind e (fun x => k))
  (at level 61, e at next level, right associativity).

Fixpoint mapM {A B} (f : A -> option B) (l : list A) : option (list B) :=
  match l with
  | [] => Some []
  | a :: rest => b <- f a ;; bs <- mapM f rest ;; Some (b :: bs)
  end.

(* ================================================================== *)
(** ** GlyphRegistry *)
(* ================================================================== *)

(** [BITMAPS], in the order of the dict literal; a glyph is the code
    point of its one-character string. *)
Definition BITMAPS : list (Z * Z) :=
  [ (0x00000000, 0x20);
    (0x0000000f, 0x2581);
    (0x000000ff, 0x2582);
    (0x00000fff, 0x2583);
    (0x0000ffff, 0x2584);
    (0x000fffff, 0x2585);
    (0x00ffffff, 0x2586);
    (0x0fffffff, 0x2587);
    (0xeeeeeeee, 0x258a);
    (0xcccccccc, 0x258c);
    (0x88888888, 0x258e);
    (0x0000cccc, 0x2596);
    (0x00003333, 0x2597);
    (0xcccc0000, 0x2598);
    (0xcccc3333, 0x259a);
    (0x33330000, 0x259d);
    (0x000ff000, 0x2501);
    (0x66666666, 0x2503);
    (0x00077666, 0x250f);
    (0x000ee666, 0x2513);
    (0x66677000, 0x2517);
    (0x666ee000, 0x251b);
    (0x66677666, 0x2523);
    (0x666ee666, 0x252b);
    (0x000ff666, 0x2533);
    (0x666ff000, 0x253b);
    (0x666ff666, 0x254b);
    (0x000cc000, 0x2578);
    (0x00033000, 0x257a);
    (0x06600660, 0x254f);
    (0x000f0000, 0x2500);
    (0x0000f000, 0x2500);
    (0x000e0000, 0x2574);
    (0x0000e000, 0x2574);
    (0x44440000, 0x2575);
    (0x22220000, 0x2575);
    (0x00030000, 0x2576);
    (0x00003000, 0x2576);
    (0x00004444, 0x2575);
    (0x00002222, 0x2575);
    (0x44444444, 0x23a2);
    (0x22222222, 0x23a5);
    (0x0f000000, 0x23ba);
    (0x00f00000, 0x23bb);
    (0x00000f00, 0x23bc);
    (0x000000f0, 0x23bd);
    (0x00066000, 0x25aa) ].

(** [BITMAPS[bitmap]]; [None] is a [KeyError]. *)
Fixpoint BITMAPS_get (d : list (Z * Z)) (bitmap : Z) : option Z :=
  match d with
  | [] => None
  | (k, v) :: rest => if k =? bitmap then Some v else BITMAPS_get rest bitmap
  end.

(** The patterns of the registry. *)
Definition patterns : list Z := map fst BITMAPS.

(** The shading ramp of the fallback: blank, light, medium, dark, solid. *)
Definition RAMP : list Z := [0x20; 0x2591; 0x2592; 0x2593; 0x2588].

(* ================================================================== *)
(** ** Pixels and images *)
(* ================================================================== *)

Definition rgb := (Z * Z * Z)%type.
Definition rgba := (Z * Z * Z * Z)%type.

(** [t[c]] on a three-element list and on an RGBA tuple. *)
Definition rgb_get (t : rgb) (c : nat) : Z :=
  let '(r, g, b) := t in
  match c with O => r | 1%nat => g | _ => b end.

Definition rgb_set (t : rgb) (c : nat) (v : Z) : rgb :=
  let '(r, g, b) := t in
  match c with O => (v, g, b) | 1%nat => (r, v, b) | _ => (r, g, v) end.

Definition rgba_get (p : rgba) (c : nat) : Z :=
  let '(r, g, b, a) := p in
  match c with O => r | 1%nat => g | 2%nat => b | _ => a end.

(** A decoded RGBA frame: [img.size] and [img.getpixel((i, j))].  The
    program reads pixels inside the frame only. *)
Record image := Image {
  size : nat * nat;
  getpixel : nat -> nat -> rgba
}.

(** An 8-bit sample. *)
Definition sample_ok (v : Z) : bool := (0 <=? v) && (v <=? 255).

Definition pixel_ok (p : rgba) : bool :=
  let '(r, g, b, a) := p in
  sample_ok r && sample_ok g && sample_ok b && sample_ok a.

(* ================================================================== *)
(** ** CellQuantizer: [handle_pixel] *)
(* ================================================================== *)

(** [x_offset = min(x + 4, w)] and [y_offset = min(y + 8, h)]. *)
Definition x_offset (img : image) (x : nat) : nat := Nat.min (x + 4) (fst (size img)).
Definition y_offset (img : image) (y : nat) : nat := Nat.min (y + 8) (snd (size img)).

(** The body of the first loop nest: the running maxima and minima of
    the three colour channels. *)
Definition minmax_pixel (st : rgb * rgb) (rgba : rgba) : rgb * rgb :=
  fold_left
    (fun (st : rgb * rgb) channel =>
       let '(max_rgb, min_rgb) := st in
       (rgb_set max_rgb channel (Z.max (rgb_get max_rgb channel) (rgba_get rgba channel)),
        rgb_set min_rgb channel (Z.min (rgb_get min_rgb channel) (rgba_get rgba channel))))
    (Py.range 0 3) st.

(** The first loop nest, columns outside and rows inside. *)
Definition scan_minmax (img : image) (x y : nat) : rgb * rgb :=
  fold_left
    (fun st i =>
       fold_left (fun st j => minmax_pixel st (getpixel img i j))
                 (Py.range y (y_offset img y)) st)
    (Py.range x (x_offset img x))
    ((0, 0, 0), (255, 255, 255)).

(** The channel loop: [(split_channel, best_split)]. *)
Definition select_split (max_rgb min_rgb : rgb) : nat * Z :=
  fold_left
    (fun (st : nat * Z) channel =>
       let '(split_channel, best_split) := st in
       let split := rgb_get max_rgb channel - rgb_get min_rgb channel in
       if split >? best_split then (channel, split) else st)
    (Py.range 0 3) (0%nat, 0).

(** The locals of the second loop nest. *)
Record partition := Partition {
  bits : Z;
  bg_color : list rgb;
  fg_color : list rgb
}.

(** Its body for one pixel. *)
Definition classify (split_channel : nat) (split_val : Z)
    (st : partition) (rgba : rgba) : partition :=
  let '(r, g, b, _) := rgba in
  let bits := Z.shiftl (bits st) 1 in
  let index := rgba_get rgba split_channel in
  let num := Z.land index 255 in
  if num >? split_val
  then Partition (Z.lor bits 1) (bg_color st) (fg_color st ++ [(r, g, b)])
  else Partition bits (bg_color st ++ [(r, g, b)]) (fg_color st).

(** The second loop nest, rows outside and columns inside. *)
Definition split_pixels (img : image) (x y : nat)
    (split_channel : nat) (split_val : Z) : partition :=
  fold_left
    (fun st j =>
       fold_left (fun st i => classify split_channel split_val st (getpixel img i j))
                 (Py.range x (x_offset img x)) st)
    (Py.range y (y_offset img y))
    (Partition 0 [] []).

(** [zip( *colors )] on a list of three-element tuples. *)
Definition zip_star (colors : list rgb) : list (list Z) :=
  match colors with
  | [] => []
  | _ => [ map (fun c => rgb_get c 0) colors;
           map (fun c => rgb_get c 1) colors;
           map (fun c => rgb_get c 2) colors ]
  end.

(** [[sum(color) / len(color) for color in zip( *colors )]]. *)
Definition average (colors : list rgb) : list Z :=
  map (fun color => Py.sum color / Py.len color) (zip_star colors).

(** The two averages after the two [if not ...] statements:
    [(avg_bg_rgb, avg_fg_rgb)].  Both statements assign [avg_fg_rgb]. *)
Definition averages (p : partition) : list Z * list Z :=
  let avg_bg_rgb := average (bg_color p) in
  let avg_fg_rgb := average (fg_color p) in
  let avg_fg_rgb := match avg_fg_rgb with [] => [0; 0; 0] | _ => avg_fg_rgb end in
  let avg_fg_rgb := match avg_bg_rgb with [] => [0; 0; 0] | _ => avg_fg_rgb end in
  (avg_bg_rgb, avg_fg_rgb).

(** The locals of the matching loop; [character] is unbound at first. *)
Record matching := Matching {
  character : option Z;
  best_diff : Z;
  inverted : bool
}.

(** [bin(a ^ b).count('1')]. *)
Definition diff_bits (a b : Z) : Z := Py.count "1" (Py.bin (Z.lxor a b)).

(** [~bitmap & 0xffffffff]. *)
Definition invert32 (bitmap : Z) : Z := Z.land (Z.lnot bitmap) 0xffffffff.

(** One round of the matching loop. *)
Definition match_bitmap (bits : Z) (st : option matching) (bitmap : Z)
    : option matching :=
  st <- st ;;
  let diff := diff_bits bitmap bits in
  st <- (if diff <? best_diff st
         then c <- BITMAPS_get BITMAPS bitmap ;; Some (Matching (Some c) diff false)
         else Some st) ;;
  let diff := diff_bits (invert32 bitmap) bits in
  if diff <? best_diff st
  then c <- BITMAPS_get BITMAPS bitmap ;; Some (Matching (Some c) diff true)
  else Some st.

(** The matching loop over [list(BITMAPS.keys())]; [keys] is that list,
    in the interpreter's dict order. *)
Definition match_glyph (keys : list Z) (bits : Z) : option matching :=
  fold_left (match_bitmap bits) keys (Some (Matching None Py.maxint false)).

(** The fallback to the shading ramp. *)
Definition fallback (fg_color : list rgb) (m : matching) : option matching :=
  if best_diff m >? 10
  then c <- nth_error RAMP (Z.to_nat (Z.min 4 (Py.len fg_color * 5 / 32))) ;;
       Some (Matching (Some c) (best_diff m) false)
  else Some m.

(** [esc( *args )]. *)
Definition esc (args : list Z) : string :=
  (Py.ESC ++ "[" ++ Py.join ";" (map Py.str args) ++ "sm")%string.

(** [make_char(c, fg, bg)]. *)
Definition make_char (c : Z) (fg bg : list Z) : option string :=
  f0 <- nth_error fg 0 ;; f1 <- nth_error fg 1 ;; f2 <- nth_error fg 2 ;;
  b0 <- nth_error bg 0 ;; b1 <- nth_error bg 1 ;; b2 <- nth_error bg 2 ;;
  if (f0 =? f1) && (f1 =? f2) && (f2 =? b0) && (b0 =? b1) && (b1 =? b2) && (b2 =? 0)
  then Some (Py.ESC ++ "[0m ")%string
  else Some (esc [38; 2; f0; f1; f2] ++ esc [48; 2; b0; b1; b2]
             ++ Py.encode_utf8 c)%string.

(** What [handle_pixel] holds when it calls [make_char]. *)
Record cell := Cell {
  cell_bits : Z;
  cell_fg_color : list rgb;
  cell_bg_color : list rgb;
  cell_best_diff : Z;
  cell_inverted : bool;
  cell_character : Z;
  cell_fg : list Z;
  cell_bg : list Z
}.

Section Quantizer.

(** [list(BITMAPS.keys())]: the patterns in the interpreter's order. *)
Variable keys : list Z.

(** [max_rgb], [min_rgb], [split_channel], [best_split], [split_val]. *)
Definition max_rgb img x y : rgb := fst (scan_minmax img x y).
Definition min_rgb img x y : rgb := snd (scan_minmax img x y).
Definition split_channel img x y : nat :=
  fst (select_split (max_rgb img x y) (min_rgb img x y)).
Definition best_split img x y : Z :=
  snd (select_split (max_rgb img x y) (min_rgb img x y)).
Definition split_val img x y : Z :=
  rgb_get (min_rgb img x y) (split_channel img x y) + best_split img x y / 2.

(** The partition of the block at [(x, y)]. *)
Definition block_partition img x y : partition :=
  split_pixels img x y (split_channel img x y) (split_val img x y).

(** The locals of [handle_pixel] at its last line. *)
Definition quantize (img : image) (x y : nat) : option cell :=
  let p := block_partition img x y in
  let '(avg_bg_rgb, avg_fg_rgb) := averages p in
  m <- match_glyph keys (bits p) ;;
  m <- fallback (fg_color p) m ;;
  c <- character m ;;
  let '(avg_bg_rgb, avg_fg_rgb) :=
    if inverted m then (avg_fg_rgb, avg_bg_rgb) else (avg_bg_rgb, avg_fg_rgb) in
  Some (Cell (bits p) (fg_color p) (bg_color p) (best_diff m) (inverted m) c
             avg_fg_rgb avg_bg_rgb).

(** [handle_pixel(img, x, y)]. *)
Definition handle_pixel (img : image) (x y : nat) : option string :=
  c <- quantize img x y ;;
  make_char (cell_character c) (cell_fg c) (cell_bg c).

(** The text rows of [frame_to_ansi]: one per block row. *)
Definition frame_lines (frame : image) : option (list string) :=
  let '(w, h) := size frame in
  mapM (fun y =>
          cells <- mapM (fun x => handle_pixel frame x y) (Py.range_step 0 w 4) ;;
          Some (Py.join "" cells))
       (Py.range_step 0 h 8).

(** [frame_to_ansi(frame)]. *)
Definition frame_to_ansi (frame : image) : option string :=
  lines <- frame_lines frame ;;
  Some (Py.join "" [(Py.ESC ++ "[0m")%string; Py.join Py.LF lines]).

End Quantizer.

(** The block at [(x, y)] is inside the frame, as in every call of
    [frame_to_ansi]. *)
Definition nonempty_block (img : image) (x y : nat) : Prop :=
  (x < fst (size img))%nat /\ (y < snd (size img))%nat.

(** Every sample of the frame is an 8-bit value. *)
Definition valid_frame (img : image) : Prop :=
  forall i j, (i < fst (size img))%nat -> (j < snd (size img))%nat ->
              pixel_ok (getpixel img i j) = true.

(** The pixels of the block in row-major order: top row first, left to
    right. *)
Definition block_pixels (img : image) (x y : nat) : list rgba :=
  flat_map (fun j => map (fun i => getpixel img i j) (Py.range x (x_offset img x)))
           (Py.range y (y_offset img y)).

(** Every sample of the block is an 8-bit value, as PIL gives them. *)
Definition valid_block (img : image) (x y : nat) : bool :=
  forallb pixel_ok (block_pixels img x y).

(* ================================================================== *)
(** ** AspectFitter: [calculate_borders] *)
(* ================================================================== *)

(** [Fraction(n, d)] for a non-zero [d] (a zero [d] raises): a fraction
    is kept in lowest terms, and so is the result of every operation. *)
Definition Fraction (n d : Z) : Q := Qred (inject_Z n / inject_Z d).

(** [a > b] on fractions. *)
Definition Qgt_bool (a b : Q) : bool := negb (Qle_bool a b).

(** [calculate_borders(bounding_width, bounding_height, original_width,
    original_height)] on positive arguments; [None] is the
    [OverflowError] of a fraction too large for a float. *)
Definition calculate_borders
    (bounding_width bounding_height original_width original_height : Z)
    : option (Z * Z) :=
  let original_ratio := Fraction original_width original_height in
  let bounding_ratio := Fraction bounding_width bounding_height in
  let '(new_width, new_height) :=
    if Qgt_bool original_ratio bounding_ratio
    then
      let new_height := Qred (inject_Z bounding_width / original_ratio) in
      let new_width := Qred (new_height * original_ratio) in
      (new_width, new_height)
    else
      let new_width := Qred (inject_Z bounding_height * original_ratio) in
      let new_height := Qred (Fraction original_height original_width * new_width) in
      (new_width, new_height) in
  new_width <- Py.round new_width ;;
  let new_width := Z.min new_width bounding_width in
  new_height <- Py.round new_height ;;
  let new_height := Z.min new_height bounding_height in
  Some (new_width, new_height).

(* ================================================================== *)
(** ** AnimationPlayer: the interactive branch of [main] *)
(* ================================================================== *)

(** What [RestoredTerminal.__exit__] prints: the sequence and the
    newline of [print]. *)
Definition restore_sequence : string :=
  (Py.ESC ++ "[34h" ++ Py.ESC ++ "[?25h" ++ Py.ESC ++ "[0m" ++ Py.ESC ++ "[0m")%string.
Definition restored_terminal_exit : string := (restore_sequence ++ Py.LF)%string.

(** [{sep}] in a [format] call: the separator, or the text of [None]. *)
Definition format_sep (sep : option string) : string :=
  match sep with Some s => s | None => "None"%string end.

(** The cursor-up sequence of [n] rows after a carriage return. *)
Definition rewind (n : Z) : string :=
  (Py.CR ++ Py.ESC ++ "[" ++ Py.str n ++ "A")%string.

(** ['\r\x1b[{h}A{frame}{sep}'.format(h=new_size[1], frame=frame,
    sep=args.seperator)]. *)
Definition frame_text (new_size : Z * Z) (sep : option string) (frame : string) : string :=
  (rewind (snd new_size) ++ frame ++ format_sep sep)%string.

(** The iterator of the [for] loop: over the list of frames, or over
    [itertools.cycle(frames)], which starts again from the saved frames
    when it runs out and stops only when there are none. *)
Inductive frames_iter :=
| ListIter (remaining : list string)
| CycleIter (remaining saved : list string).

Definition next (it : frames_iter) : option (string * frames_iter) :=
  match it with
  | ListIter [] => None
  | ListIter (f :: r) => Some (f, ListIter r)
  | CycleIter (f :: r) saved => Some (f, CycleIter r saved)
  | CycleIter [] [] => None
  | CycleIter [] (f :: r) => Some (f, CycleIter r (f :: r))
  end.

(** The first [k] frames an iterator yields. *)
Fixpoint iter_take (k : nat) (it : frames_iter) : list string :=
  match k with
  | O => []
  | S k' => match next it with
            | None => []
            | Some (f, it') => f :: iter_take k' it'
            end
  end.

Inductive raised := KeyboardInterrupt | SystemExit (status : Z).

(** How a block of statements ends; [Running] is a loop that is still
    running when the fuel of the model is used up. *)
Inductive outcome := Normal | Raise (e : raised) | Running.

(** The [for] loop.  Its body has two statements, [print] and
    [time.sleep]; [interrupt = Some n] is a Ctrl-C that arrives after [n]
    statements of the [try] statement have completed and raises
    [KeyboardInterrupt] in the next one.  The result is the list of
    texts written to standard output and the way the loop ends. *)
Fixpoint play_loop (fuel : nat) (new_size : Z * Z) (sep : option string)
    (it : frames_iter) (interrupt : option nat) : list string * outcome :=
  match fuel with
  | O => ([], Running)
  | S fuel' =>
    match next it with
    | None => ([], Normal)
    | Some (frame, it') =>
      match interrupt with
      | Some O => ([], Raise KeyboardInterrupt)
      | Some 1%nat => ([frame_text new_size sep frame], Raise KeyboardInterrupt)
      | _ =>
        let '(out, r) :=
          play_loop fuel' new_size sep it' (option_map (fun n => (n - 2)%nat) interrupt) in
        (frame_text new_size sep frame :: out, r)
      end
    end
  end.

(** [RestoredTerminal.__exit__] when the body has ended normally: one
    [print].  A Ctrl-C that arrives before it raises
    [KeyboardInterrupt] with nothing written; one that arrives after it,
    before the [try] statement is left, raises it after the text; a
    later one is outside the playback. *)
Definition RestoredTerminal_exit (interrupt : option nat) : list string * outcome :=
  match interrupt with
  | Some O => ([], Raise KeyboardInterrupt)
  | Some 1%nat => ([restored_terminal_exit], Raise KeyboardInterrupt)
  | _ => ([restored_terminal_exit], Normal)
  end.

(** [with RestoredTerminal(): body]: [__exit__] runs when the body
    ends, normally or by an exception, and lets the exception through;
    [interrupt] is what is left of the Ctrl-C count when the body has
    ended normally. *)
Definition with_RestoredTerminal (body : list string * outcome) (interrupt : option nat)
    : list string * outcome :=
  let '(out, r) := body in
  match r with
  | Running => (out, Running)
  | Normal =>
    let '(out', r') := RestoredTerminal_exit interrupt in ((out ++ out')%list, r')
  | Raise e => ((out ++ [restored_terminal_exit])%list, Raise e)
  end.

(** The [try] statement of the interactive branch.  A loop that ends
    normally has run two statements for each text it has written. *)
Definition playback (fuel : nat) (forever : bool) (frames : list string)
    (new_size : Z * Z) (sep : option string) (interrupt : option nat)
    : list string * outcome :=
  let frames := if forever then CycleIter frames frames else ListIter frames in
  let body := play_loop fuel new_size sep frames interrupt in
  let interrupt :=
    option_map (fun n => (n - 2 * List.length (fst body))%nat) interrupt in
  let '(out, r) := with_RestoredTerminal body interrupt in
  match r with
  | Raise KeyboardInterrupt => (out, Raise (SystemExit 128))
  | _ => (out, r)
  end.

(** The exit status of the process. *)
Definition exit_status (r : outcome) : option Z :=
  match r with
  | Normal => Some 0
  | Raise (SystemExit n) => Some n
  | Raise KeyboardInterrupt => Some 1
  | Running => None
  end.

(** The loop still has a frame to show after [k] iterations. *)
Definition still_playing (forever : bool) (frames : list string) (k : nat) : Prop :=
  (k < List.length frames)%nat \/ (forever = true /\ frames <> []).

(* ================================================================== *)
(** ** The vocabulary of the specification *)
(* ================================================================== *)

(** The value of a pixel on channel [c] (0 red, 1 green, 2 blue). *)
Definition chan (c : nat) (p : rgba) : Z := rgba_get p c.

(** The colour of a pixel without its alpha sample. *)
Definition rgb_of (p : rgba) : rgb := let '(r, g, b, _) := p in (r, g, b).

(** Largest and smallest element of a non-empty list. *)
Definition maximum (l : list Z) : Z :=
  match l with [] => 0 | v :: t => fold_left Z.max t v end.
Definition minimum (l : list Z) : Z :=
  match l with [] => 0 | v :: t => fold_left Z.min t v end.

(** Per-channel extrema and the (max - min) range across the block. *)
Definition channel_max img x y c : Z := maximum (map (chan c) (block_pixels img x y)).
Definition channel_min img x y c : Z := minimum (map (chan c) (block_pixels img x y)).
Definition channel_range img x y c : Z := channel_max img x y c - channel_min img x y c.

(** The threshold of the block on channel [c]: channel-min + range/2,
    with the integer division of the program. *)
Definition threshold img x y c : Z := channel_min img x y c + channel_range img x y c / 2.

(** A pixel is foreground when its value on channel [c] is strictly
    above the threshold [t]. *)
Definition above (c : nat) (t : Z) (p : rgba) : bool := chan c p >? t.

(** The coverage bitmap of a list of pixels: one shift and one new low
    bit per pixel, from the accumulator [acc]. *)
Definition coverage (c : nat) (t : Z) (pixels : list rgba) (acc : Z) : Z :=
  fold_left (fun acc p => Z.lor (Z.shiftl acc 1) (Z.b2z (above c t p))) pixels acc.

(** The integer mean of channel [c] over a list of pixels, and the mean
    colour. *)
Definition channel_mean (c : nat) (pixels : list rgba) : Z :=
  fold_right Z.add 0 (map (chan c) pixels) / Z.of_nat (List.length pixels).
Definition mean_color (pixels : list rgba) : list Z :=
  [channel_mean 0 pixels; channel_mean 1 pixels; channel_mean 2 pixels].

(** The number of 1 digits of [bin(n)]. *)
Fixpoint popcount_pos (p : positive) : Z :=
  match p with
  | xH => 1
  | xO q => popcount_pos q
  | xI q => 1 + popcount_pos q
  end.
Definition popcount (n : Z) : Z :=
  match n with Z0 => 0 | Zpos p => popcount_pos p | Zneg p => popcount_pos p end.

(** The number of bits set among the [n] low positions of [z]. *)
Definition set_bits (n : nat) (z : Z) : nat :=
  List.length (filter (Z.testbit z) (map Z.of_nat (seq 0 n))).

(** Hamming distance of two 32-bit bitmaps: the number of bit positions
    where they differ. *)
Definition hamming (a b : Z) : Z :=
  Z.of_nat (List.length (filter (fun i => xorb (Z.testbit a i) (Z.testbit b i))
                                (map Z.of_nat (seq 0 32)))).

(** [m] is the largest (smallest) element of [l]. *)
Definition is_max (m : Z) (l : list Z) : Prop := In m l /\ forall v, In v l -> v <= m.
Definition is_min (m : Z) (l : list Z) : Prop := In m l /\ forall v, In v l -> m <= v.

(** The distances of a bitmap to every pattern, in both orientations. *)
Definition all_distances (bits : Z) : list Z :=
  flat_map (fun P => [hamming P bits; hamming (invert32 P) bits]) patterns.

(** The same pixels in the order of the first loop nest, by columns. *)
Definition block_pixels_by_column (img : image) (x y : nat) : list rgba :=
  flat_map (fun i => map (fun j => getpixel img i j) (Py.range y (y_offset img y)))
           (Py.range x (x_offset img x)).

(** The coordinates of the block. *)
Definition in_block img x y (i j : nat) : Prop :=
  (x <= i < x_offset img x)%nat /\ (y <= j < y_offset img y)%nat.

(** The two sides of the split of a block: the pixels strictly above
    the threshold on the split channel, and the others. *)
Definition foreground_side img x y : list rgba :=
  filter (above (split_channel img x y) (threshold img x y (split_channel img x y)))
         (block_pixels img x y).
Definition background_side img x y : list rgba :=
  filter (fun p => negb (above (split_channel img x y)
                               (threshold img x y (split_channel img x y)) p))
         (block_pixels img x y).

(** [needle in hay] on byte strings. *)
Fixpoint contains (needle hay : string) : bool :=
  String.prefix needle hay
  || match hay with
     | EmptyString => false
     | String _ rest => contains needle rest
     end.

(** The control sequences the specification names: auto-wrap on
    (DECAWM set), cursor visible (DECTCEM set) and the reset of the
    colours and attributes (SGR 0). *)
Definition line_wrap_on : string := (Py.ESC ++ "[?7h")%string.
Definition cursor_show : string := (Py.ESC ++ "[?25h")%string.
Definition style_reset : string := (Py.ESC ++ "[0m")%string.

(** A restoration text in the sense of the specification: it re-enables
    line wrap, shows the cursor and resets the colours. *)
Definition is_restoration (t : string) : Prop :=
  contains line_wrap_on t = true
  /\ contains cursor_show t = true
  /\ contains style_reset t = true.

(** The bytes of a string, as numbers. *)
Definition bytes_of (s : string) : list nat := map nat_of_ascii (list_ascii_of_string s).

(** Sample frames: a 4x8 frame whose two left columns are white and two
    right columns black, a black 4x16 frame, a 4x8 checkerboard of two
    colours, a 4x8 frame whose two left columns are dark and two right
    columns light, and a 3x2 frame with one pixel exactly at the
    threshold. *)
Definition sample_half : image :=
  Image (4, 8)%nat
        (fun i _ => if (i <? 2)%nat then (255, 255, 255, 255) else (0, 0, 0, 255)).
Definition sample_black : image :=
  Image (4, 16)%nat (fun _ _ => (0, 0, 0, 255)).
Definition sample_checker : image :=
  Image (4, 8)%nat
        (fun i j => if Nat.even (i + j) then (200, 10, 30, 255) else (20, 10, 40, 255)).
Definition sample_inverted : image :=
  Image (4, 8)%nat
        (fun i _ => if (i <? 2)%nat then (10, 20, 30, 255) else (200, 210, 220, 255)).
Definition sample_midpoint : image :=
  Image (3, 2)%nat
        (fun i j => match i with
                    | O => (10, 7, 7, 255)
                    | 1%nat => (15, 7, 9, 255)
                    | _ => (20, 7, 7, 255)
                    end).

(* ================================================================== *)
(** ** The other functions of the program *)
(* ================================================================== *)

(** [clamp(val, small, large)] on an integer [val], for which [int(val)]
    is [val]. *)
Definition clamp (val small large : Z) : Z := Z.min (Z.max val small) large.

(** [is_url(img)]. *)
Definition is_url (img : string) : bool :=
  prefix "http://" img || prefix "https://" img.

(** [enumerate(l)]. *)
Definition enumerate {A} (l : list A) : list (nat * A) :=
  combine (seq 0 (List.length l)) l.

(** The text of one [print] of the script branch of [main]: the
    here-document of the frame and its [sleep]; [delay] is the text
    [format] gives for [args.delay]. *)
Definition script_block (new_size : Z * Z) (sep : option string) (delay : string)
    (offset : nat) (frame : string) : string :=
  ("cat <<FILE" ++ Py.str (Z.of_nat offset) ++ Py.LF
   ++ frame_text new_size sep frame ++ Py.LF
   ++ "FILE" ++ Py.str (Z.of_nat offset) ++ Py.LF
   ++ "sleep " ++ delay ++ Py.LF)%string.

(** The script branch of [main]: the texts of its [print] calls. *)
Definition script (frames : list string) (new_size : Z * Z) (sep : option string)
    (delay : string) : list string :=
  (("#!/usr/bin/env bash" ++ Py.LF)%string
   :: map (fun e => script_block new_size sep delay (fst e) (snd e)) (enumerate frames)
   ++ [("printf " ++ Py.ESC ++ "[H" ++ Py.ESC ++ "[J" ++ Py.LF)%string])%list.

(** Every character of a string satisfies [P]. *)
Fixpoint string_forall (P : ascii -> bool) (s : string) : bool :=
  match s with
  | EmptyString => true
  | String a rest => P a && string_forall P rest
  end.

(** The bytes a rendered cell is made of: the escape character, the
    punctuation and letters of the escape sequences, the space, decimal
    digits, and the bytes of multi-byte UTF-8 characters. *)
Definition cell_byte (a : ascii) : bool :=
  let n := N_of_ascii a in
  ((n =? 27) || (n =? 91) || (n =? 59) || (n =? 115) || (n =? 109) || (n =? 32)
   || ((48 <=? n) && (n <=? 57)) || (128 <=? n))%N.

(** The glyphs the quantizer can choose. *)
Definition glyphs : list Z := (map snd BITMAPS ++ RAMP)%list.

(** The characters a shell leaves alone in the body of a here-document
    whose delimiter starts with [F]: anything but a dollar sign, a back
    quote, a backslash and the letter [F]. *)
Definition heredoc_safe (a : ascii) : bool :=
  negb (Ascii.eqb a "$" || Ascii.eqb a "`" || Ascii.eqb a "\" || Ascii.eqb a "F").

(** The frame of index [i] of an endless repetition of [frames]. *)
Definition cyclic_nth (frames : list string) (i : nat) : option string :=
  nth_error frames (i mod List.length frames).

(** An inverted match in the state of the loop is strictly closer than
    the direct match of its own pattern. *)
Definition inverted_is_strict (b : Z) (m : matching) : Prop :=
  inverted m = true ->
  exists k g, In k patterns /\ BITMAPS_get BITMAPS k = Some g
              /\ m = Matching (Some g) (diff_bits (invert32 k) b) true
              /\ diff_bits (invert32 k) b < diff_bits k b.

(* ================================================================== *)
(** ** Lists and folds *)
(* ================================================================== *)

Lemma fold_left_flat_map {S A P} (g : S -> P -> S) (k : A -> list P) la s :
  fold_left (fun st a => fold_left g (k a) st) la s = fold_left g (flat_map k la) s.
Proof.
  revert s; induction la as [|a la IH]; intros s; simpl; [reflexivity|].
  now rewrite fold_left_app, IH.
Qed.

Lemma fold_left_map_arg {S A P} (g : S -> P -> S) (h : A -> P) l s :
  fold_left (fun st a => g st (h a)) l s = fold_left g (map h l) s.
Proof.
  revert s; induction l as [|a l IH]; intros s; simpl; [reflexivity|apply IH].
Qed.

Lemma fold_left_ext_eq {S A} (f g : S -> A -> S) l s :
  (forall st a, f st a = g st a) -> fold_left f l s = fold_left g l s.
Proof.
  intros E; revert s; induction l as [|a l IH]; intros s; simpl; [reflexivity|].
  now rewrite E, IH.
Qed.

Lemma in_range a b i : In i (Py.range a b) <-> (a <= i < b)%nat.
Proof. unfold Py.range; rewrite in_seq; lia. Qed.

Lemma range_nonempty a b : (a < b)%nat -> Py.range a b <> [].
Proof.
  intros H E. assert (I : In a (Py.range a b)) by (apply in_range; lia).
  rewrite E in I; exact I.
Qed.

Lemma in_block_pixels img x y p :
  In p (block_pixels img x y) <-> exists i j, in_block img x y i j /\ p = getpixel img i j.
Proof.
  unfold block_pixels, in_block; rewrite in_flat_map; split.
  - intros (j & Hj & Hp). apply in_map_iff in Hp as (i & <- & Hi).
    apply in_range in Hi, Hj. now exists i, j.
  - intros (i & j & (Hi & Hj) & ->). exists j; split; [now apply in_range|].
    apply in_map_iff; exists i; split; [reflexivity|now apply in_range].
Qed.

Lemma in_block_pixels_by_column img x y p :
  In p (block_pixels_by_column img x y) <-> In p (block_pixels img x y).
Proof.
  rewrite in_block_pixels.
  unfold block_pixels_by_column, in_block; rewrite in_flat_map; split.
  - intros (i & Hi & Hp). apply in_map_iff in Hp as (j & <- & Hj).
    apply in_range in Hi, Hj. now exists i, j.
  - intros (i & j & (Hi & Hj) & ->). exists i; split; [now apply in_range|].
    apply in_map_iff; exists j; split; [reflexivity|now apply in_range].
Qed.

Lemma block_pixels_nonempty img x y :
  nonempty_block img x y -> block_pixels img x y <> [].
Proof.
  intros [Hx Hy] E.
  assert (I : In (getpixel img x y) (block_pixels img x y)).
  { apply in_block_pixels; exists x, y; split; [|reflexivity].
    unfold in_block, x_offset, y_offset; lia. }
  rewrite E in I; exact I.
Qed.

Lemma scan_minmax_fold img x y :
  scan_minmax img x y
  = fold_left minmax_pixel (block_pixels_by_column img x y) ((0, 0, 0), (255, 255, 255)).
Proof.
  unfold scan_minmax, block_pixels_by_column.
  rewrite <- fold_left_flat_map. apply fold_left_ext_eq; intros st i.
  apply fold_left_map_arg.
Qed.

Lemma split_pixels_fold img x y c t :
  split_pixels img x y c t = fold_left (classify c t) (block_pixels img x y) (Partition 0 [] []).
Proof.
  unfold split_pixels, block_pixels.
  rewrite <- fold_left_flat_map. apply fold_left_ext_eq; intros st j.
  apply fold_left_map_arg.
Qed.

(* ================================================================== *)
(** ** Extrema *)
(* ================================================================== *)

Lemma fold_max_ge l a : a <= fold_left Z.max l a.
Proof.
  revert a; induction l as [|v l IH]; intros a; simpl; [lia|].
  specialize (IH (Z.max a v)); lia.
Qed.

Lemma fold_max_upper l a v : In v l -> v <= fold_left Z.max l a.
Proof.
  revert a; induction l as [|w l IH]; intros a; simpl; [tauto|].
  intros [->|H]; [|now apply IH].
  pose proof (fold_max_ge l (Z.max a v)); lia.
Qed.

Lemma fold_max_attained l a : fold_left Z.max l a = a \/ In (fold_left Z.max l a) l.
Proof.
  revert a; induction l as [|w l IH]; intros a; simpl; [now left|].
  destruct (IH (Z.max a w)) as [E|I]; [|now right; right].
  rewrite E. destruct (Z.max_spec a w) as [[_ ->]|[_ ->]]; [right; now left|now left].
Qed.

Lemma fold_min_le l a : fold_left Z.min l a <= a.
Proof.
  revert a; induction l as [|v l IH]; intros a; simpl; [lia|].
  specialize (IH (Z.min a v)); lia.
Qed.

Lemma fold_min_lower l a v : In v l -> fold_left Z.min l a <= v.
Proof.
  revert a; induction l as [|w l IH]; intros a; simpl; [tauto|].
  intros [->|H]; [|now apply IH].
  pose proof (fold_min_le l (Z.min a v)); lia.
Qed.

Lemma fold_min_attained l a : fold_left Z.min l a = a \/ In (fold_left Z.min l a) l.
Proof.
  revert a; induction l as [|w l IH]; intros a; simpl; [now left|].
  destruct (IH (Z.min a w)) as [E|I]; [|now right; right].
  rewrite E. destruct (Z.min_spec a w) as [[_ ->]|[_ ->]]; [now left|right; now left].
Qed.

Lemma maximum_is_max l : l <> [] -> is_max (maximum l) l.
Proof.
  destruct l as [|v t]; [congruence|intros _]. unfold maximum; split.
  - destruct (fold_max_attained t v) as [->|I]; [now left|now right].
  - intros w [<-|I]; [apply fold_max_ge|now apply fold_max_upper].
Qed.

Lemma minimum_is_min l : l <> [] -> is_min (minimum l) l.
Proof.
  destruct l as [|v t]; [congruence|intros _]. unfold minimum; split.
  - destruct (fold_min_attained t v) as [->|I]; [now left|now right].
  - intros w [<-|I]; [apply fold_min_le|now apply fold_min_lower].
Qed.

Lemma is_max_unique m m' l l' :
  (forall v, In v l <-> In v l') -> is_max m l -> is_max m' l' -> m = m'.
Proof.
  intros E [I U] [I' U']. apply E in I. apply E in I'.
  specialize (U _ I'). specialize (U' _ I). lia.
Qed.

Lemma is_min_unique m m' l l' :
  (forall v, In v l <-> In v l') -> is_min m l -> is_min m' l' -> m = m'.
Proof.
  intros E [I U] [I' U']. apply E in I. apply E in I'.
  specialize (U _ I'). specialize (U' _ I). lia.
Qed.

(** The running maximum from 0 and minimum from 255 are the true
    extrema of a non-empty list of 8-bit samples. *)
Lemma fold_max_from_0 l :
  l <> [] -> (forall v, In v l -> 0 <= v) -> is_max (fold_left Z.max l 0) l.
Proof.
  intros N B; split.
  - destruct (fold_max_attained l 0) as [E|I]; [|exact I].
    destruct l as [|v t]; [congruence|].
    assert (v <= fold_left Z.max (v :: t) 0) by (apply fold_max_upper; now left).
    assert (0 <= v) by (apply B; now left).
    assert (v = 0) by lia. subst v. rewrite E. now left.
  - intros v I. now apply fold_max_upper.
Qed.

Lemma fold_min_from_255 l :
  l <> [] -> (forall v, In v l -> v <= 255) -> is_min (fold_left Z.min l 255) l.
Proof.
  intros N B; split.
  - destruct (fold_min_attained l 255) as [E|I]; [|exact I].
    destruct l as [|v t]; [congruence|].
    assert (fold_left Z.min (v :: t) 255 <= v) by (apply fold_min_lower; now left).
    assert (v <= 255) by (apply B; now left).
    assert (v = 255) by lia. subst v. rewrite E. now left.
  - intros v I. now apply fold_min_lower.
Qed.

Lemma minmax_pixel_eq a b c d e f p :
  minmax_pixel ((a, b, c), (d, e, f)) p
  = ((Z.max a (chan 0 p), Z.max b (chan 1 p), Z.max c (chan 2 p)),
     (Z.min d (chan 0 p), Z.min e (chan 1 p), Z.min f (chan 2 p))).
Proof. destruct p as [[[r g] bl] al]. reflexivity. Qed.

Lemma scan_fold_channels l mx mn c :
  (c < 3)%nat ->
  rgb_get (fst (fold_left minmax_pixel l (mx, mn))) c
    = fold_left Z.max (map (chan c) l) (rgb_get mx c)
  /\ rgb_get (snd (fold_left minmax_pixel l (mx, mn))) c
    = fold_left Z.min (map (chan c) l) (rgb_get mn c).
Proof.
  intros Hc; revert mx mn; induction l as [|p l IH]; intros mx mn.
  - split; reflexivity.
  - destruct mx as [[a b] d], mn as [[e f] g].
    cbn [fold_left map]. rewrite minmax_pixel_eq.
    destruct (IH (Z.max a (chan 0 p), Z.max b (chan 1 p), Z.max d (chan 2 p))
                 (Z.min e (chan 0 p), Z.min f (chan 1 p), Z.min g (chan 2 p))) as [E1 E2].
    split; [etransitivity; [exact E1|] | etransitivity; [exact E2|]];
      destruct c as [|[|[|c]]]; try lia; reflexivity.
Qed.

Lemma sample_ok_iff v : sample_ok v = true <-> 0 <= v <= 255.
Proof. unfold sample_ok; rewrite andb_true_iff, !Z.leb_le; tauto. Qed.

Lemma pixel_ok_chan p c : pixel_ok p = true -> 0 <= chan c p <= 255.
Proof.
  destruct p as [[[r g] b] a]; unfold pixel_ok, chan; simpl.
  rewrite !andb_true_iff, !sample_ok_iff.
  destruct c as [|[|[|c]]]; simpl; tauto.
Qed.

Lemma valid_block_chan img x y c v :
  valid_block img x y = true -> In v (map (chan c) (block_pixels img x y)) ->
  0 <= v <= 255.
Proof.
  unfold valid_block; rewrite forallb_forall; intros V I.
  apply in_map_iff in I as (p & <- & I). apply pixel_ok_chan; now apply V.
Qed.

(** The first loop nest computes the per-channel extrema of the block. *)
Lemma scan_minmax_spec img x y c :
  nonempty_block img x y -> valid_block img x y = true -> (c < 3)%nat ->
  rgb_get (max_rgb img x y) c = channel_max img x y c
  /\ rgb_get (min_rgb img x y) c = channel_min img x y c.
Proof.
  intros N V Hc. unfold max_rgb, min_rgb; rewrite scan_minmax_fold.
  destruct (scan_fold_channels (block_pixels_by_column img x y)
              (0, 0, 0) (255, 255, 255) c Hc) as [E1 E2].
  assert (M : forall v, In v (map (chan c) (block_pixels_by_column img x y))
                    <-> In v (map (chan c) (block_pixels img x y))).
  { intros v; rewrite !in_map_iff; split; intros (p & E & I); exists p; split; trivial;
      now apply in_block_pixels_by_column. }
  assert (NE : map (chan c) (block_pixels img x y) <> []).
  { intros E; apply map_eq_nil in E; now apply (block_pixels_nonempty img x y). }
  assert (NE' : map (chan c) (block_pixels_by_column img x y) <> []).
  { intros E. destruct (map (chan c) (block_pixels img x y)) as [|v t] eqn:Q; [congruence|].
    assert (I : In v (map (chan c) (block_pixels_by_column img x y))) by (apply M; now left).
    rewrite E in I; exact I. }
  assert (rgb_get (0, 0, 0) c = 0 /\ rgb_get (255, 255, 255) c = 255) as [Z0 Z255].
  { destruct c as [|[|[|c]]]; split; reflexivity. }
  rewrite Z0 in E1. rewrite Z255 in E2.
  split; [etransitivity; [exact E1|] | etransitivity; [exact E2|]].
  - apply (is_max_unique _ _ _ _ M); [|now apply maximum_is_max].
    apply fold_max_from_0; [exact NE'|]. intros v I; apply M in I.
    now apply (valid_block_chan img x y c v V).
  - apply (is_min_unique _ _ _ _ M); [|now apply minimum_is_min].
    apply fold_min_from_255; [exact NE'|]. intros v I; apply M in I.
    now apply (valid_block_chan img x y c v V).
Qed.

Lemma channel_range_nonneg img x y c :
  nonempty_block img x y -> 0 <= channel_range img x y c.
Proof.
  intros N. unfold channel_range, channel_max, channel_min.
  assert (NE : map (chan c) (block_pixels img x y) <> []).
  { intros E; apply map_eq_nil in E; now apply (block_pixels_nonempty img x y). }
  destruct (maximum_is_max _ NE) as [I U].
  destruct (minimum_is_min _ NE) as [I' U'].
  specialize (U _ I'). lia.
Qed.

(* ================================================================== *)
(** ** The split channel *)
(* ================================================================== *)

Lemma select_split_spec mx mn :
  (forall c, (c < 3)%nat -> 0 <= rgb_get mx c - rgb_get mn c) ->
  let sc := fst (select_split mx mn) in
  let bs := snd (select_split mx mn) in
  (sc < 3)%nat
  /\ bs = rgb_get mx sc - rgb_get mn sc
  /\ (forall c, (c < 3)%nat -> rgb_get mx c - rgb_get mn c <= bs)
  /\ (forall c, (c < sc)%nat -> rgb_get mx c - rgb_get mn c < bs).
Proof.
  destruct mx as [[a b] d], mn as [[e f] g]; intros H.
  pose proof (H 0%nat ltac:(lia)) as H0.
  pose proof (H 1%nat ltac:(lia)) as H1.
  pose proof (H 2%nat ltac:(lia)) as H2.
  cbn in H0, H1, H2. clear H.
  unfold select_split, Py.range; cbn.
  rewrite !Z.gtb_ltb.
  destruct (Z.ltb_spec 0 (a - e)); cbn; rewrite !Z.gtb_ltb.
  - destruct (Z.ltb_spec (a - e) (b - f)); cbn; rewrite !Z.gtb_ltb.
    + destruct (Z.ltb_spec (b - f) (d - g)); cbn;
        (repeat split; try lia; intros [|[|[|c]]] Hc; cbn; lia).
    + destruct (Z.ltb_spec (a - e) (d - g)); cbn;
        (repeat split; try lia; intros [|[|[|c]]] Hc; cbn; lia).
  - destruct (Z.ltb_spec 0 (b - f)); cbn; rewrite !Z.gtb_ltb.
    + destruct (Z.ltb_spec (b - f) (d - g)); cbn;
        (repeat split; try lia; intros [|[|[|c]]] Hc; cbn; lia).
    + destruct (Z.ltb_spec 0 (d - g)); cbn;
        (repeat split; try lia; intros [|[|[|c]]] Hc; cbn; lia).
Qed.

(** On a block inside the frame the channel loop leaves the range of
    the selected channel in [best_split], so [split_val] is the
    threshold of the specification on that channel. *)
Lemma split_facts img x y :
  nonempty_block img x y -> valid_block img x y = true ->
  (split_channel img x y < 3)%nat
  /\ best_split img x y = channel_range img x y (split_channel img x y)
  /\ split_val img x y = threshold img x y (split_channel img x y)
  /\ (forall c, (c < 3)%nat ->
        channel_range img x y c <= channel_range img x y (split_channel img x y))
  /\ (forall c, (c < split_channel img x y)%nat ->
        channel_range img x y c < channel_range img x y (split_channel img x y)).
Proof.
  intros N V.
  assert (R : forall c, (c < 3)%nat ->
            rgb_get (max_rgb img x y) c - rgb_get (min_rgb img x y) c
            = channel_range img x y c).
  { intros c Hc. destruct (scan_minmax_spec img x y c N V Hc) as [-> ->]. reflexivity. }
  assert (P : forall c, (c < 3)%nat ->
            0 <= rgb_get (max_rgb img x y) c - rgb_get (min_rgb img x y) c).
  { intros c Hc. rewrite (R c Hc). now apply channel_range_nonneg. }
  destruct (select_split_spec _ _ P) as (Hsc & Hbs & Hle & Hlt).
  fold (split_channel img x y) in Hsc, Hbs, Hlt.
  fold (best_split img x y) in Hbs, Hle, Hlt.
  rewrite (R _ Hsc) in Hbs.
  split; [exact Hsc|]. split; [exact Hbs|]. split.
  - unfold split_val, threshold. rewrite Hbs.
    destruct (scan_minmax_spec img x y _ N V Hsc) as [_ ->]. reflexivity.
  - split.
    + intros c Hc. rewrite <- Hbs, <- (R c Hc). now apply Hle.
    + intros c Hc. rewrite <- Hbs, <- (R c) by lia. now apply Hlt.
Qed.

(* ================================================================== *)
(** ** The partition and the coverage bitmap *)
(* ================================================================== *)

Lemma land_255 v : 0 <= v <= 255 -> Z.land v 255 = v.
Proof.
  intros H. change 255 with (Z.ones 8).
  rewrite Z.land_ones by lia. apply Z.mod_small. change (2 ^ 8) with 256. lia.
Qed.

Lemma classify_eq c t st p :
  pixel_ok p = true ->
  classify c t st p
  = if above c t p
    then Partition (Z.lor (Z.shiftl (bits st) 1) 1) (bg_color st) (fg_color st ++ [rgb_of p])
    else Partition (Z.shiftl (bits st) 1) (bg_color st ++ [rgb_of p]) (fg_color st).
Proof.
  intros V. pose proof (pixel_ok_chan p c V) as B.
  destruct p as [[[r g] b] a]. unfold classify, above, chan in *.
  rewrite (land_255 _ B). reflexivity.
Qed.

Lemma classify_fold c t l st :
  forallb pixel_ok l = true ->
  bits (fold_left (classify c t) l st) = coverage c t l (bits st)
  /\ fg_color (fold_left (classify c t) l st)
     = (fg_color st ++ map rgb_of (filter (above c t) l))%list
  /\ bg_color (fold_left (classify c t) l st)
     = (bg_color st ++ map rgb_of (filter (fun p => negb (above c t p)) l))%list.
Proof.
  revert st; induction l as [|p l IH]; intros st V.
  - cbn. now rewrite !app_nil_r.
  - cbn in V. apply andb_true_iff in V as [Vp Vl].
    cbn [fold_left]. rewrite (classify_eq c t st p Vp).
    destruct (IH (if above c t p
                  then Partition (Z.lor (Z.shiftl (bits st) 1) 1) (bg_color st)
                                 (fg_color st ++ [rgb_of p])
                  else Partition (Z.shiftl (bits st) 1) (bg_color st ++ [rgb_of p])
                                 (fg_color st)) Vl) as (Eb & Ef & Eg).
    rewrite Eb, Ef, Eg. unfold coverage; cbn [fold_left filter].
    destruct (above c t p); cbn [bits fg_color bg_color negb map Z.b2z].
    + now rewrite <- app_assoc.
    + rewrite Z.lor_0_r. now rewrite <- app_assoc.
Qed.

Lemma coverage_cons c t p l acc :
  coverage c t (p :: l) acc
  = coverage c t l (Z.lor (Z.shiftl acc 1) (Z.b2z (above c t p))).
Proof. reflexivity. Qed.

Lemma testbit_b2z_high b m : 0 < m -> Z.testbit (Z.b2z b) m = false.
Proof.
  intros H. destruct b; cbn [Z.b2z]; [|apply Z.bits_0].
  change 1 with (2 ^ 0). apply Z.pow2_bits_false. lia.
Qed.

Lemma coverage_testbit_high c t l acc m :
  0 <= m ->
  Z.testbit (coverage c t l acc) (Z.of_nat (List.length l) + m) = Z.testbit acc m.
Proof.
  revert acc m; induction l as [|p l IH]; intros acc m Hm.
  - cbn. reflexivity.
  - rewrite coverage_cons. cbn [List.length].
    replace (Z.of_nat (S (List.length l)) + m) with (Z.of_nat (List.length l) + (m + 1)) by lia.
    rewrite IH by lia. rewrite Z.lor_spec, Z.shiftl_spec by lia.
    rewrite testbit_b2z_high by lia. rewrite orb_false_r. f_equal. lia.
Qed.

Lemma coverage_testbit_pixel c t l acc k p :
  nth_error l k = Some p ->
  Z.testbit (coverage c t l acc) (Z.of_nat (List.length l - 1 - k)) = above c t p.
Proof.
  revert acc k; induction l as [|q l IH]; intros acc k H.
  - destruct k; discriminate.
  - rewrite coverage_cons. destruct k as [|k]; cbn in H.
    + injection H as ->. cbn [List.length].
      replace (Z.of_nat (S (List.length l) - 1 - 0)) with (Z.of_nat (List.length l) + 0) by lia.
      rewrite coverage_testbit_high by lia.
      rewrite Z.lor_spec, Z.shiftl_spec_low by lia. cbn. apply Z.b2z_bit0.
    + assert (k < List.length l)%nat by (apply nth_error_Some; congruence).
      cbn [List.length].
      replace (S (List.length l) - 1 - S k)%nat with (List.length l - 1 - k)%nat by lia.
      now apply IH.
Qed.

Lemma coverage_nonneg c t l acc : 0 <= acc -> 0 <= coverage c t l acc.
Proof.
  revert acc; induction l as [|p l IH]; intros acc H; [exact H|].
  rewrite coverage_cons. apply IH. apply Z.lor_nonneg; split.
  - apply Z.shiftl_nonneg; exact H.
  - destruct (above c t p); cbn; lia.
Qed.

Lemma coverage_bound c t l : 0 <= coverage c t l 0 < 2 ^ Z.of_nat (List.length l).
Proof.
  split; [apply coverage_nonneg; lia|].
  pose proof (coverage_nonneg c t l 0 ltac:(lia)) as N.
  destruct (Z.eq_dec (coverage c t l 0) 0) as [->|NZ]; [apply Z.pow_pos_nonneg; lia|].
  apply Z.log2_lt_pow2; [lia|].
  destruct (Z.lt_ge_cases (Z.log2 (coverage c t l 0)) (Z.of_nat (List.length l))) as [L|G]; [exact L|].
  exfalso.
  assert (T : Z.testbit (coverage c t l 0) (Z.log2 (coverage c t l 0)) = true)
    by (apply Z.bit_log2; lia).
  pose proof (coverage_testbit_high c t l 0
                (Z.log2 (coverage c t l 0) - Z.of_nat (List.length l)) ltac:(lia)) as T'.
  replace (Z.of_nat (List.length l) + (Z.log2 (coverage c t l 0) - Z.of_nat (List.length l)))
    with (Z.log2 (coverage c t l 0)) in T' by lia.
  rewrite T, Z.bits_0 in T'. discriminate.
Qed.

Lemma block_pixels_length img x y :
  (List.length (block_pixels img x y)
   = (y_offset img y - y) * (x_offset img x - x))%nat.
Proof.
  unfold block_pixels, Py.range.
  generalize (y_offset img y - y)%nat as n. generalize y as s.
  intros s n; revert s; induction n as [|n IH]; intros s; [reflexivity|].
  cbn [seq flat_map]. rewrite length_app, length_map, length_seq, IH. lia.
Qed.

Lemma block_pixels_at_most_32 img x y : (List.length (block_pixels img x y) <= 32)%nat.
Proof.
  rewrite block_pixels_length. unfold x_offset, y_offset.
  assert (Nat.min (y + 8) (snd (size img)) - y <= 8)%nat by lia.
  assert (Nat.min (x + 4) (fst (size img)) - x <= 4)%nat by lia.
  nia.
Qed.

(** The second loop nest on a block inside the frame. *)
Lemma block_partition_spec img x y :
  nonempty_block img x y -> valid_block img x y = true ->
  let c := split_channel img x y in
  let t := threshold img x y c in
  bits (block_partition img x y) = coverage c t (block_pixels img x y) 0
  /\ fg_color (block_partition img x y)
     = map rgb_of (filter (above c t) (block_pixels img x y))
  /\ bg_color (block_partition img x y)
     = map rgb_of (filter (fun p => negb (above c t p)) (block_pixels img x y)).
Proof.
  intros N V c t. unfold block_partition. rewrite split_pixels_fold.
  destruct (split_facts img x y N V) as (_ & _ & -> & _).
  exact (classify_fold _ _ _ (Partition 0 [] []) V).
Qed.

(* ================================================================== *)
(** ** The average colours *)
(* ================================================================== *)

Lemma fold_left_add l a : fold_left Z.add l a = a + fold_right Z.add 0 l.
Proof.
  revert a; induction l as [|v l IH]; intros a; cbn; [lia|]. rewrite IH; lia.
Qed.

Lemma rgb_get_rgb_of p c : (c < 3)%nat -> rgb_get (rgb_of p) c = chan c p.
Proof.
  destruct p as [[[r g] b] a]; destruct c as [|[|[|c]]]; intros H; try lia; reflexivity.
Qed.

Lemma sum_channel l c :
  (c < 3)%nat ->
  Py.sum (map (fun q => rgb_get q c) (map rgb_of l)) = fold_right Z.add 0 (map (chan c) l).
Proof.
  intros H. unfold Py.sum. rewrite fold_left_add, map_map. cbn. f_equal.
  apply map_ext; intros p; now apply rgb_get_rgb_of.
Qed.

Lemma average_nil : average [] = [].
Proof. reflexivity. Qed.

Lemma average_cons q cs :
  average (q :: cs)
  = [ Py.sum (map (fun c => rgb_get c 0) (q :: cs)) / Py.len (map (fun c => rgb_get c 0) (q :: cs));
      Py.sum (map (fun c => rgb_get c 1) (q :: cs)) / Py.len (map (fun c => rgb_get c 1) (q :: cs));
      Py.sum (map (fun c => rgb_get c 2) (q :: cs)) / Py.len (map (fun c => rgb_get c 2) (q :: cs)) ].
Proof. reflexivity. Qed.

Lemma average_spec l : l <> [] -> average (map rgb_of l) = mean_color l.
Proof.
  intros N. destruct l as [|p l]; [congruence|].
  change (map rgb_of (p :: l)) with (rgb_of p :: map rgb_of l).
  rewrite average_cons.
  change (rgb_of p :: map rgb_of l) with (map rgb_of (p :: l)).
  unfold Py.len. rewrite !length_map.
  rewrite !sum_channel by lia. reflexivity.
Qed.

(** The averages of a partition whose background list is not empty. *)
Lemma averages_spec img x y :
  nonempty_block img x y -> valid_block img x y = true ->
  background_side img x y <> [] ->
  averages (block_partition img x y)
  = (mean_color (background_side img x y),
     match foreground_side img x y with
     | [] => [0; 0; 0]
     | _ => mean_color (foreground_side img x y)
     end).
Proof.
  intros N V B. destruct (block_partition_spec img x y N V) as (_ & Ef & Eb).
  fold (foreground_side img x y) in Ef. fold (background_side img x y) in Eb.
  unfold averages. rewrite Ef, Eb. rewrite (average_spec _ B).
  destruct (foreground_side img x y) as [|p l] eqn:F.
  - reflexivity.
  - rewrite average_spec by congruence. reflexivity.
Qed.

(** The pixel with the least value on the split channel is on the
    background side. *)
Lemma minimum_pixel_in_background img x y :
  nonempty_block img x y -> valid_block img x y = true ->
  exists p, In p (background_side img x y)
            /\ chan (split_channel img x y) p = channel_min img x y (split_channel img x y)
            /\ chan (split_channel img x y) p <= split_val img x y.
Proof.
  intros N V. destruct (split_facts img x y N V) as (Hc & _ & Et & _).
  set (c := split_channel img x y) in *.
  assert (NE : map (chan c) (block_pixels img x y) <> []).
  { intros E; apply map_eq_nil in E; now apply (block_pixels_nonempty img x y). }
  destruct (minimum_is_min _ NE) as [I _]. fold (channel_min img x y c) in I.
  apply in_map_iff in I as (p & Ep & Ip).
  pose proof (channel_range_nonneg img x y c N) as R.
  assert (D : 0 <= channel_range img x y c / 2) by (apply Z.div_pos; lia).
  assert (L : chan c p <= threshold img x y c) by (unfold threshold; lia).
  exists p. split; [|split; [exact Ep|rewrite Et; exact L]].
  unfold background_side. fold c. apply filter_In; split; [exact Ip|].
  unfold above. apply negb_true_iff. rewrite Z.gtb_ltb. apply Z.ltb_ge. exact L.
Qed.

Lemma background_side_nonempty img x y :
  nonempty_block img x y -> valid_block img x y = true -> background_side img x y <> [].
Proof.
  intros N V E. destruct (minimum_pixel_in_background img x y N V) as (p & I & _).
  rewrite E in I. exact I.
Qed.

(* ================================================================== *)
(** ** Properties of the split and of the partition *)
(* ================================================================== *)

(** C1: on every block inside the frame the coverage bitmap is built
    over the pixels in row-major order, one left shift per pixel, the new
    low bit being 1 exactly when the pixel is strictly above the
    threshold (channel-min + range/2) on the split channel.  The pixel
    visited at position [k] of [n] owns bit [n - 1 - k], so earlier pixels
    sit in more significant bits; no bit above the [n] used ones is set;
    and a pixel exactly at the threshold gets bit 0 and goes to the
    background list. *)
Theorem coverage_bitmap_row_major img x y :
  nonempty_block img x y -> valid_block img x y = true ->
  let pixels := block_pixels img x y in
  let c := split_channel img x y in
  let t := channel_min img x y c + channel_range img x y c / 2 in
  let b := bits (block_partition img x y) in
  split_val img x y = t
  /\ b = fold_left (fun acc p => Z.lor (Z.shiftl acc 1) (if chan c p >? t then 1 else 0))
                   pixels 0
  /\ (forall k p, nth_error pixels k = Some p ->
        Z.testbit b (Z.of_nat (List.length pixels - 1 - k)) = (chan c p >? t))
  /\ (forall m, Z.of_nat (List.length pixels) <= m -> Z.testbit b m = false)
  /\ (forall k p, nth_error pixels k = Some p -> chan c p = t ->
        Z.testbit b (Z.of_nat (List.length pixels - 1 - k)) = false
        /\ In (rgb_of p) (bg_color (block_partition img x y))
        /\ ~ In p (foreground_side img x y)).
Proof.
  intros N V pixels c t b.
  destruct (split_facts img x y N V) as (_ & _ & Et & _).
  destruct (block_partition_spec img x y N V) as (Eb & _ & Eg).
  fold c in Et, Eb, Eg. change (threshold img x y c) with t in Et, Eb, Eg.
  fold pixels in Eb, Eg. fold b in Eb.
  assert (K : forall k p, nth_error pixels k = Some p ->
              Z.testbit b (Z.of_nat (List.length pixels - 1 - k)) = (chan c p >? t)).
  { intros k p H. rewrite Eb. exact (coverage_testbit_pixel c t pixels 0 k p H). }
  split; [exact Et|]. split; [exact Eb|]. split; [exact K|]. split.
  - intros m Hm. rewrite Eb.
    replace m with (Z.of_nat (List.length pixels) + (m - Z.of_nat (List.length pixels))) by lia.
    rewrite coverage_testbit_high by lia. apply Z.bits_0.
  - intros k p H E.
    assert (A : (chan c p >? t) = false) by (rewrite Z.gtb_ltb; apply Z.ltb_ge; lia).
    split; [rewrite (K k p H); exact A|]. split.
    + rewrite Eg. apply in_map. apply filter_In. split; [eapply nth_error_In; exact H|].
      unfold above. now rewrite A.
    + unfold foreground_side. fold c. change (threshold img x y c) with t.
      intros I. apply filter_In in I as [_ I]. unfold above in I. congruence.
Qed.

Lemma coverage_bitmap_row_major_witness :
  split_val sample_midpoint 0 0 = 15
  /\ bits (block_partition sample_midpoint 0 0) = 9
  /\ Z.testbit (bits (block_partition sample_midpoint 0 0)) 4 = false
  /\ In (15, 7, 9) (bg_color (block_partition sample_midpoint 0 0)).
Proof.
  destruct (coverage_bitmap_row_major sample_midpoint 0 0) as (E1 & E2 & _ & _ & E5).
  - split; cbn; lia.
  - reflexivity.
  - destruct (E5 1%nat (15, 7, 9, 255) eq_refl eq_refl) as (B & I & _).
    split; [exact E1|]. split; [exact E2|]. split; [exact B|exact I].
Defined.

(** C3: on every block inside the frame the selected split channel has
    a (max - min) range at least the range of each channel, and every
    channel before it in the order red, green, blue has a strictly
    smaller range: among the channels of largest range it is the first. *)
Theorem split_channel_largest_range img x y :
  nonempty_block img x y -> valid_block img x y = true ->
  let sc := split_channel img x y in
  (sc < 3)%nat
  /\ (forall c, (c < 3)%nat -> channel_range img x y c <= channel_range img x y sc)
  /\ (forall c, (c < sc)%nat -> channel_range img x y c < channel_range img x y sc).
Proof.
  intros N V sc. destruct (split_facts img x y N V) as (H1 & _ & _ & H2 & H3).
  split; [exact H1|]. split; [exact H2|exact H3].
Qed.

Lemma split_channel_largest_range_witness :
  (split_channel sample_checker 0 0 < 3)%nat
  /\ channel_range sample_checker 0 0 2 <= channel_range sample_checker 0 0
                                             (split_channel sample_checker 0 0).
Proof.
  destruct (split_channel_largest_range sample_checker 0 0) as (H1 & H2 & _).
  - split; cbn; lia.
  - reflexivity.
  - split; [exact H1|]. apply H2. lia.
Defined.

(** C10: on every block inside the frame a pixel attaining the minimum
    of the split channel is at most the threshold and is put in the
    background list, so that list is not empty, the background average
    is a mean of pixels, and the statement guarded by an empty
    background average is not executed. *)
Theorem background_never_empty img x y :
  nonempty_block img x y -> valid_block img x y = true ->
  let p := block_partition img x y in
  (exists q, In q (block_pixels img x y)
             /\ chan (split_channel img x y) q = channel_min img x y (split_channel img x y)
             /\ chan (split_channel img x y) q <= split_val img x y
             /\ In (rgb_of q) (bg_color p))
  /\ bg_color p <> []
  /\ average (bg_color p) = mean_color (background_side img x y)
  /\ average (bg_color p) <> []
  /\ averages p
     = (average (bg_color p),
        match average (fg_color p) with [] => [0; 0; 0] | a => a end).
Proof.
  intros N V p.
  destruct (block_partition_spec img x y N V) as (_ & _ & Eb).
  fold (background_side img x y) in Eb. fold p in Eb.
  destruct (minimum_pixel_in_background img x y N V) as (q & Iq & Eq & Lq).
  pose proof (background_side_nonempty img x y N V) as B.
  assert (A : average (bg_color p) = mean_color (background_side img x y))
    by (rewrite Eb; now apply average_spec).
  split.
  - exists q. split; [apply filter_In in Iq as [Iq _]; exact Iq|].
    split; [exact Eq|]. split; [exact Lq|]. rewrite Eb. now apply in_map.
  - split; [rewrite Eb; intros E; apply map_eq_nil in E; now apply B|].
    split; [exact A|]. split; [rewrite A; discriminate|].
    unfold averages. fold p. rewrite A. unfold mean_color.
    destruct (average (fg_color p)); reflexivity.
Qed.

Lemma background_never_empty_witness :
  bg_color (block_partition sample_half 0 0) <> []
  /\ average (bg_color (block_partition sample_half 0 0)) <> [].
Proof.
  destruct (background_never_empty sample_half 0 0) as (_ & H1 & _ & H2 & _).
  - split; cbn; lia.
  - reflexivity.
  - split; [exact H1|exact H2].
Defined.

(* ================================================================== *)
(** ** Hamming distances *)
(* ================================================================== *)

Lemma count_bin_digits p acc :
  Py.count "1" (Py.bin_digits p acc) = popcount_pos p + Py.count "1" acc.
Proof.
  revert acc; induction p as [p IH|p IH|]; intros acc; cbn [Py.bin_digits popcount_pos].
  - rewrite IH. change (Py.count "1" (String "1" acc)) with (1 + Py.count "1" acc). lia.
  - rewrite IH. change (Py.count "1" (String "0" acc)) with (0 + Py.count "1" acc). lia.
  - change (Py.count "1" (String "1" acc)) with (1 + Py.count "1" acc). lia.
Qed.

(** [bin(n).count('1')] is the number of 1 digits of [n]. *)
Lemma count_bin n : Py.count "1" (Py.bin n) = popcount n.
Proof.
  destruct n as [|p|p]; [reflexivity| |]; unfold Py.bin.
  - change (Py.count "1" ("0b" ++ Py.bin_digits p EmptyString))
      with (0 + (0 + Py.count "1" (Py.bin_digits p EmptyString))).
    rewrite count_bin_digits. cbn [popcount Py.count]. lia.
  - change (Py.count "1" ("-0b" ++ Py.bin_digits p EmptyString))
      with (0 + (0 + (0 + Py.count "1" (Py.bin_digits p EmptyString)))).
    rewrite count_bin_digits. cbn [popcount Py.count]. lia.
Qed.

Lemma popcount_pos_pos p : 0 < popcount_pos p.
Proof. induction p; cbn [popcount_pos]; lia. Qed.

Lemma popcount_nonneg n : 0 <= popcount n.
Proof. destruct n as [|p|p]; cbn; [lia| |]; pose proof (popcount_pos_pos p); lia. Qed.

Lemma popcount_zero n : popcount n = 0 -> n = 0.
Proof.
  destruct n as [|p|p]; cbn; [reflexivity| |]; pose proof (popcount_pos_pos p); lia.
Qed.

Lemma diff_bits_nonneg a b : 0 <= diff_bits a b.
Proof. unfold diff_bits. rewrite count_bin. apply popcount_nonneg. Qed.

Lemma diff_bits_zero a b : diff_bits a b = 0 -> a = b.
Proof.
  unfold diff_bits. rewrite count_bin. intros H. apply popcount_zero in H.
  now apply Z.lxor_eq.
Qed.

Lemma diff_bits_same a : diff_bits a a = 0.
Proof. unfold diff_bits. now rewrite Z.lxor_nilpotent. Qed.

Lemma set_bits_S n z :
  set_bits (S n) z = ((if Z.testbit z 0 then 1 else 0) + set_bits n (Z.div2 z))%nat.
Proof.
  unfold set_bits. rewrite <- cons_seq, <- seq_shift. cbn [map filter].
  assert (E : filter (Z.testbit z) (map Z.of_nat (map S (seq 0 n)))
              = map Z.succ (filter (Z.testbit (Z.div2 z)) (map Z.of_nat (seq 0 n)))).
  { induction (seq 0 n) as [|i l IH]; [reflexivity|]. cbn [map filter].
    rewrite Nat2Z.inj_succ. rewrite Z.div2_spec, Z.shiftr_spec by lia.
    replace (Z.of_nat i + 1) with (Z.succ (Z.of_nat i)) by lia.
    destruct (Z.testbit z (Z.succ (Z.of_nat i))); cbn [map]; now rewrite IH. }
  change (Z.of_nat 0) with 0.
  destruct (Z.testbit z 0); cbn [List.length]; rewrite E, length_map; lia.
Qed.

Lemma popcount_div2 z :
  0 <= z -> popcount z = (if Z.testbit z 0 then 1 else 0) + popcount (Z.div2 z).
Proof. destruct z as [|[p|p|]|p]; intros H; cbn; try reflexivity; lia. Qed.

Lemma popcount_set_bits n z :
  0 <= z < 2 ^ Z.of_nat n -> popcount z = Z.of_nat (set_bits n z).
Proof.
  revert z; induction n as [|n IH]; intros z H.
  - cbn in H. assert (z = 0) by lia. subst z. reflexivity.
  - rewrite set_bits_S, popcount_div2 by lia.
    rewrite Nat2Z.inj_add, <- IH.
    + destruct (Z.testbit z 0); reflexivity.
    + rewrite Z.div2_div. rewrite Nat2Z.inj_succ, Z.pow_succ_r in H by lia.
      split; [apply Z.div_pos; lia|]. apply Z.div_lt_upper_bound; lia.
Qed.

Lemma lxor_bound n a b :
  0 <= n -> 0 <= a < 2 ^ n -> 0 <= b < 2 ^ n -> 0 <= Z.lxor a b < 2 ^ n.
Proof.
  intros Hn Ha Hb.
  assert (N : 0 <= Z.lxor a b) by (apply Z.lxor_nonneg; lia).
  split; [exact N|].
  destruct (Z.eq_dec (Z.lxor a b) 0) as [->|NZ]; [apply Z.pow_pos_nonneg; lia|].
  apply Z.log2_lt_pow2; [lia|].
  pose proof (Z.log2_lxor a b ltac:(lia) ltac:(lia)) as L.
  assert (La : a = 0 \/ Z.log2 a < n).
  { destruct (Z.eq_dec a 0); [now left|right; apply Z.log2_lt_pow2; lia]. }
  assert (Lb : b = 0 \/ Z.log2 b < n).
  { destruct (Z.eq_dec b 0); [now left|right; apply Z.log2_lt_pow2; lia]. }
  assert (Z.log2 0 = 0) by reflexivity.
  assert (0 < Z.log2 (Z.lxor a b) \/ Z.log2 (Z.lxor a b) = 0) as [P|Z0].
  { pose proof (Z.log2_nonneg (Z.lxor a b)); lia. }
  - destruct La as [->|La], Lb as [->|Lb]; lia.
  - destruct (Z.eq_dec n 0) as [->|]; [|lia].
    cbn in Ha, Hb. assert (a = 0) by lia. assert (b = 0) by lia. subst. now cbn in NZ.
Qed.

(** On 32-bit bitmaps the program's distance is the Hamming distance. *)
Lemma diff_bits_hamming a b :
  0 <= a < 2 ^ 32 -> 0 <= b < 2 ^ 32 -> diff_bits a b = hamming a b.
Proof.
  intros Ha Hb. unfold diff_bits. rewrite count_bin.
  rewrite (popcount_set_bits 32) by (apply (lxor_bound 32); lia).
  unfold hamming, set_bits. do 2 f_equal.
  apply filter_ext. intros i. apply Z.lxor_spec.
Qed.

Lemma invert32_bound a : 0 <= invert32 a < 2 ^ 32.
Proof.
  unfold invert32. change 0xffffffff with (Z.ones 32).
  rewrite Z.land_ones by lia. apply Z.mod_pos_bound. lia.
Qed.

Lemma patterns_bound P : In P patterns -> 0 <= P < 2 ^ 32.
Proof.
  intros I.
  assert (F : forallb (fun P => (0 <=? P) && (P <? 2 ^ 32)) patterns = true)
    by (vm_compute; reflexivity).
  rewrite forallb_forall in F. specialize (F P I).
  apply andb_true_iff in F as [F1 F2]. apply Z.leb_le in F1. apply Z.ltb_lt in F2. lia.
Qed.

(** No pattern of the registry is the 32-bit complement of a pattern. *)
Lemma no_complementary_patterns P Q :
  In P patterns -> In Q patterns -> P <> invert32 Q.
Proof.
  intros IP IQ E.
  assert (F : forallb (fun P => forallb (fun Q => negb (P =? invert32 Q)) patterns)
                      patterns = true) by (vm_compute; reflexivity).
  rewrite forallb_forall in F. specialize (F P IP).
  rewrite forallb_forall in F. specialize (F Q IQ).
  apply negb_true_iff in F. apply Z.eqb_neq in F. contradiction.
Qed.

Lemma BITMAPS_get_in d P : In P (map fst d) -> exists g, BITMAPS_get d P = Some g.
Proof.
  induction d as [|[k v] d IH]; cbn; [tauto|]. intros [->|I].
  - rewrite Z.eqb_refl. now exists v.
  - destruct (k =? P); [now exists v|now apply IH].
Qed.

(* ================================================================== *)
(** ** The matching loop *)
(* ================================================================== *)

Lemma match_bitmap_step b m k g :
  BITMAPS_get BITMAPS k = Some g ->
  exists m',
    match_bitmap b (Some m) k = Some m'
    /\ best_diff m' <= best_diff m
    /\ best_diff m' <= diff_bits k b
    /\ best_diff m' <= diff_bits (invert32 k) b
    /\ (m' = m
        \/ m' = Matching (Some g) (diff_bits k b) false
        \/ m' = Matching (Some g) (diff_bits (invert32 k) b) true).
Proof.
  intros G. unfold match_bitmap. cbn [bind]. rewrite G. cbn [bind].
  destruct (Z.ltb_spec (diff_bits k b) (best_diff m)) as [L1|L1]; cbn [bind best_diff].
  - destruct (Z.ltb_spec (diff_bits (invert32 k) b) (diff_bits k b)) as [L2|L2].
    + eexists; split; [reflexivity|]. cbn [best_diff]. repeat split; try lia. auto.
    + eexists; split; [reflexivity|]. cbn [best_diff]. repeat split; try lia. auto.
  - destruct (Z.ltb_spec (diff_bits (invert32 k) b) (best_diff m)) as [L2|L2].
    + eexists; split; [reflexivity|]. cbn [best_diff]. repeat split; try lia. auto.
    + eexists; split; [reflexivity|]. repeat split; try lia. auto.
Qed.

(** The loop over any list of registry patterns: it ends, its distance
    is below the initial one and below every distance examined, and its
    state is the initial one or the one of an examined candidate. *)
Lemma match_loop keys b m0 :
  (forall k, In k keys -> In k patterns) ->
  exists m,
    fold_left (match_bitmap b) keys (Some m0) = Some m
    /\ best_diff m <= best_diff m0
    /\ (forall k, In k keys ->
          best_diff m <= diff_bits k b /\ best_diff m <= diff_bits (invert32 k) b)
    /\ (m = m0
        \/ exists k g, In k keys /\ BITMAPS_get BITMAPS k = Some g
             /\ (m = Matching (Some g) (diff_bits k b) false
                 \/ m = Matching (Some g) (diff_bits (invert32 k) b) true)).
Proof.
  revert m0; induction keys as [|k keys IH]; intros m0 S.
  - exists m0. cbn. split; [reflexivity|]. split; [lia|]. split; [intros k []|now left].
  - destruct (BITMAPS_get_in BITMAPS k) as [g G]; [apply S; now left|].
    destruct (match_bitmap_step b m0 k g G) as (m1 & E1 & L0 & L1 & L2 & D1).
    destruct (IH m1) as (m & E & L & A & D); [intros k' I; apply S; now right|].
    exists m. cbn [fold_left]. rewrite E1. split; [exact E|]. split; [lia|]. split.
    + intros k' [<-|I]; [lia|now apply A].
    + destruct D as [->|(k' & g' & I & G' & D)].
      * destruct D1 as [->|D1]; [now left|]. right. exists k, g.
        split; [now left|]. split; [exact G|exact D1].
      * right. exists k', g'. split; [now right|]. split; [exact G'|exact D].
Qed.

Lemma hamming_le_32 a b : 0 <= hamming a b <= 32.
Proof.
  unfold hamming. split; [lia|].
  pose proof (filter_length_le (fun i => xorb (Z.testbit a i) (Z.testbit b i))
                               (map Z.of_nat (seq 0 32))) as L.
  rewrite length_map, length_seq in L. lia.
Qed.

Lemma in_all_distances b d :
  In d (all_distances b)
  <-> exists P, In P patterns /\ (d = hamming P b \/ d = hamming (invert32 P) b).
Proof.
  unfold all_distances. rewrite in_flat_map. split.
  - intros (P & I & H). cbn in H. exists P. split; [exact I|].
    destruct H as [H|H]; [left; now symmetry|].
    destruct H as [H|H]; [right; now symmetry|contradiction].
  - intros (P & I & [ -> | -> ]); exists P; split; trivial; cbn; auto.
Qed.

(** The loop over the keys of the registry, in any order, on a 32-bit
    bitmap: [best_diff] is the least of the distances to all patterns in
    both orientations, and the glyph and the flag are those of a
    candidate at that distance. *)
Lemma match_glyph_spec keys b :
  Permutation keys patterns -> 0 <= b < 2 ^ 32 ->
  exists m P g,
    match_glyph keys b = Some m
    /\ is_min (best_diff m) (all_distances b)
    /\ In P patterns /\ BITMAPS_get BITMAPS P = Some g /\ character m = Some g
    /\ ((best_diff m = hamming P b /\ inverted m = false)
        \/ (best_diff m = hamming (invert32 P) b /\ inverted m = true)).
Proof.
  intros Pm Hb.
  assert (S : forall k, In k keys -> In k patterns)
    by (intros k I; now apply (Permutation_in _ Pm)).
  destruct (match_loop keys b (Matching None Py.maxint false) S) as (m & E & L & A & D).
  assert (A' : forall P, In P patterns ->
             best_diff m <= hamming P b /\ best_diff m <= hamming (invert32 P) b).
  { intros P I. pose proof (Permutation_in _ (Permutation_sym Pm) I) as I'.
    destruct (A P I') as [A1 A2].
    rewrite (diff_bits_hamming P b (patterns_bound P I) Hb) in A1.
    rewrite (diff_bits_hamming (invert32 P) b (invert32_bound P) Hb) in A2.
    split; assumption. }
  destruct D as [->|(k & g & I & G & D)].
  - exfalso. destruct (A' 0) as [A1 _]; [now left|].
    pose proof (hamming_le_32 0 b). cbn [best_diff] in A1. unfold Py.maxint in A1. lia.
  - exists m, k, g. split; [exact E|].
    assert (Ik : In k patterns) by now apply S.
    assert (H1 : diff_bits k b = hamming k b)
      by (apply diff_bits_hamming; [now apply patterns_bound|lia]).
    assert (H2 : diff_bits (invert32 k) b = hamming (invert32 k) b)
      by (apply diff_bits_hamming; [apply invert32_bound|lia]).
    assert (C : (best_diff m = hamming k b /\ inverted m = false)
                \/ (best_diff m = hamming (invert32 k) b /\ inverted m = true)).
    { destruct D as [ -> | -> ]; cbn [best_diff inverted]; [left|right]; split; auto. }
    split.
    + split.
      * apply in_all_distances. exists k. split; [exact Ik|]. destruct C as [[-> _]|[-> _]]; auto.
      * intros v Iv. apply in_all_distances in Iv as (P & IP & [ -> | -> ]);
          now apply A'.
    + split; [exact Ik|]. split; [exact G|]. split; [|exact C].
      destruct D as [ -> | -> ]; reflexivity.
Qed.

Lemma ramp_index n : (n <= 4)%nat -> exists g, nth_error RAMP n = Some g.
Proof.
  intros H. destruct n as [|[|[|[|[|n]]]]]; try lia; cbn; eexists; reflexivity.
Qed.

Lemma fallback_spec fg m :
  exists g,
    nth_error RAMP (Z.to_nat (Z.min 4 (Py.len fg * 5 / 32))) = Some g
    /\ fallback fg m
       = Some (if best_diff m >? 10 then Matching (Some g) (best_diff m) false else m).
Proof.
  destruct (ramp_index (Z.to_nat (Z.min 4 (Py.len fg * 5 / 32)))) as [g G]; [lia|].
  exists g. split; [exact G|]. unfold fallback. rewrite G.
  destruct (best_diff m >? 10); reflexivity.
Qed.

Lemma quantize_of_match keys img x y m m' g :
  match_glyph keys (bits (block_partition img x y)) = Some m ->
  fallback (fg_color (block_partition img x y)) m = Some m' ->
  character m' = Some g ->
  quantize keys img x y
  = Some (Cell (bits (block_partition img x y))
               (fg_color (block_partition img x y))
               (bg_color (block_partition img x y))
               (best_diff m') (inverted m') g
               (if inverted m' then fst (averages (block_partition img x y))
                else snd (averages (block_partition img x y)))
               (if inverted m' then snd (averages (block_partition img x y))
                else fst (averages (block_partition img x y)))).
Proof.
  intros E F C. unfold quantize.
  destruct (averages (block_partition img x y)) as [bg fg].
  rewrite E. cbn [bind]. rewrite F. cbn [bind]. rewrite C. cbn [bind fst snd].
  destruct (inverted m'); reflexivity.
Qed.

Lemma block_bits_bound img x y :
  nonempty_block img x y -> valid_block img x y = true ->
  0 <= bits (block_partition img x y) < 2 ^ 32.
Proof.
  intros N V. destruct (block_partition_spec img x y N V) as (-> & _).
  pose proof (coverage_bound (split_channel img x y)
                (threshold img x y (split_channel img x y)) (block_pixels img x y)) as B.
  pose proof (block_pixels_at_most_32 img x y) as L.
  split; [lia|]. eapply Z.lt_le_trans; [apply B|].
  apply Z.pow_le_mono_r; lia.
Qed.

(* ================================================================== *)
(** ** Properties of the glyph selection *)
(* ================================================================== *)

(** The block of [sample_inverted] is the inverse of the left-half
    pattern and no pattern of the registry: in whatever order the loop
    visits the keys it ends at distance 0 with the inversion flag set. *)
Lemma sample_inverted_match keys :
  Permutation keys patterns ->
  exists m g,
    match_glyph keys (bits (block_partition sample_inverted 0 0)) = Some m
    /\ best_diff m = 0 /\ inverted m = true /\ character m = Some g.
Proof.
  intros Pm.
  assert (Eb : bits (block_partition sample_inverted 0 0) = 858993459)
    by (vm_compute; reflexivity).
  rewrite Eb.
  assert (Hb : 0 <= 858993459 < 2 ^ 32) by (split; [discriminate|reflexivity]).
  destruct (match_glyph_spec keys 858993459 Pm Hb)
    as (m & P & g & E & [_ Mn] & IP & _ & C & D).
  assert (I : In 3435973836 patterns).
  { assert (X : existsb (Z.eqb 3435973836) patterns = true) by (vm_compute; reflexivity).
    apply existsb_exists in X as (k & Ik & Ek). apply Z.eqb_eq in Ek. now subst k. }
  assert (Z0 : In 0 (all_distances 858993459)).
  { apply in_all_distances. exists 3435973836. split; [exact I|].
    right. vm_compute. reflexivity. }
  specialize (Mn 0 Z0).
  assert (A : forallb (fun P => negb (hamming P 858993459 =? 0)) patterns = true)
    by (vm_compute; reflexivity).
  pose proof (proj1 (forallb_forall _ _) A P IP) as A'. cbv beta in A'.
  exists m, g. split; [exact E|].
  destruct D as [[D _]|[D F]].
  - exfalso. pose proof (hamming_le_32 P 858993459) as H.
    assert (H0 : hamming P 858993459 = 0) by lia.
    rewrite H0 in A'. discriminate A'.
  - pose proof (hamming_le_32 (invert32 P) 858993459) as H.
    split; [lia|]. split; [exact F|exact C].
Qed.

(** C2, as the specification states it, fails: in the 4x8 frame whose
    two left columns are (10,20,30) and two right columns (200,210,220)
    the pixels above the threshold are the light ones, of mean
    (200,210,220), and the others have the mean (10,20,30); the best
    match is an inverted one, and the cell is produced with the
    foreground (10,20,30), the mean of the pixels below the threshold,
    and the background (200,210,220), in whatever order the loop visits
    the registry. *)
Lemma inverted_cell_exchanges_the_means :
  mean_color (foreground_side sample_inverted 0 0) = [200; 210; 220]
  /\ mean_color (background_side sample_inverted 0 0) = [10; 20; 30]
  /\ (exists c,
        quantize patterns sample_inverted 0 0 = Some c
        /\ cell_fg_color c = map rgb_of (foreground_side sample_inverted 0 0)
        /\ cell_bg_color c = map rgb_of (background_side sample_inverted 0 0)
        /\ cell_inverted c = true
        /\ cell_fg c = [10; 20; 30]
        /\ cell_bg c = [200; 210; 220]
        /\ handle_pixel patterns sample_inverted 0 0
           = make_char (cell_character c) [10; 20; 30] [200; 210; 220])
  /\ (forall keys, Permutation keys patterns ->
        exists c,
          quantize keys sample_inverted 0 0 = Some c
          /\ cell_fg c <> mean_color (foreground_side sample_inverted 0 0)
          /\ cell_bg c <> mean_color (background_side sample_inverted 0 0)).
Proof.
  assert (Mf : mean_color (foreground_side sample_inverted 0 0) = [200; 210; 220])
    by (vm_compute; reflexivity).
  assert (Mb : mean_color (background_side sample_inverted 0 0) = [10; 20; 30])
    by (vm_compute; reflexivity).
  assert (Av : averages (block_partition sample_inverted 0 0)
               = ([10; 20; 30], [200; 210; 220])) by (vm_compute; reflexivity).
  assert (Q : forall keys, Permutation keys patterns ->
            exists c,
              quantize keys sample_inverted 0 0 = Some c
              /\ cell_fg_color c = fg_color (block_partition sample_inverted 0 0)
              /\ cell_bg_color c = bg_color (block_partition sample_inverted 0 0)
              /\ cell_inverted c = true
              /\ cell_fg c = [10; 20; 30]
              /\ cell_bg c = [200; 210; 220]).
  { intros keys Pm.
    destruct (sample_inverted_match keys Pm) as (m & g & E & B & I & C).
    destruct (fallback_spec (fg_color (block_partition sample_inverted 0 0)) m)
      as (r & _ & F).
    rewrite B in F. change (0 >? 10) with false in F. cbv iota in F.
    eexists. split; [exact (quantize_of_match keys sample_inverted 0 0 m m g E F C)|].
    cbn [cell_fg_color cell_bg_color cell_inverted cell_fg cell_bg].
    rewrite I, Av. repeat split; reflexivity. }
  split; [exact Mf|]. split; [exact Mb|]. split.
  - destruct (Q patterns (Permutation_refl _)) as (c & E & Ef & Eg & I & F & B).
    exists c. split; [exact E|].
    split; [rewrite Ef; vm_compute; reflexivity|].
    split; [rewrite Eg; vm_compute; reflexivity|].
    split; [exact I|]. split; [exact F|]. split; [exact B|].
    unfold handle_pixel. rewrite E. cbn [bind]. now rewrite F, B.
  - intros keys Pm. destruct (Q keys Pm) as (c & E & _ & _ & _ & F & B).
    exists c. split; [exact E|]. rewrite F, B, Mf, Mb. split; discriminate.
Qed.

(** C2, amended: on every block inside the frame the cell is built from
    the two sides of the threshold: its two pixel lists are the colours
    of the pixels strictly above the threshold and of the others, the
    second list is never empty, and its two colours are the channel-wise
    integer means of the two sides, the colour of an empty foreground
    side being the default black.  When the match is a direct one the
    foreground colour is the one of the pixels above the threshold and
    the background colour the one of the others; when the match is an
    inverted one the two colours are exchanged.  These are the colours
    [make_char] is called with. *)
Theorem cell_colours_are_side_means keys img x y :
  Permutation keys patterns -> nonempty_block img x y -> valid_block img x y = true ->
  exists c,
    quantize keys img x y = Some c
    /\ handle_pixel keys img x y = make_char (cell_character c) (cell_fg c) (cell_bg c)
    /\ cell_fg_color c = map rgb_of (foreground_side img x y)
    /\ cell_bg_color c = map rgb_of (background_side img x y)
    /\ background_side img x y <> []
    /\ (cell_inverted c = false ->
        cell_bg c = mean_color (background_side img x y)
        /\ (foreground_side img x y <> [] ->
            cell_fg c = mean_color (foreground_side img x y))
        /\ (foreground_side img x y = [] -> cell_fg c = [0; 0; 0]))
    /\ (cell_inverted c = true ->
        cell_fg c = mean_color (background_side img x y)
        /\ (foreground_side img x y <> [] ->
            cell_bg c = mean_color (foreground_side img x y))
        /\ (foreground_side img x y = [] -> cell_bg c = [0; 0; 0])).
Proof.
  intros Pm N V.
  pose proof (block_bits_bound img x y N V) as Hb.
  destruct (match_glyph_spec keys _ Pm Hb) as (m & P & g & E & _ & _ & _ & C & _).
  destruct (fallback_spec (fg_color (block_partition img x y)) m) as (r & _ & F).
  assert (G : exists g', character (if best_diff m >? 10
                                    then Matching (Some r) (best_diff m) false else m)
                         = Some g').
  { destruct (best_diff m >? 10); [now exists r|now exists g]. }
  destruct G as [g' G].
  pose proof (quantize_of_match keys img x y m _ g' E F G) as Q.
  destruct (block_partition_spec img x y N V) as (_ & Ef & Eb).
  fold (foreground_side img x y) in Ef. fold (background_side img x y) in Eb.
  pose proof (background_side_nonempty img x y N V) as B.
  pose proof (averages_spec img x y N V B) as A.
  eexists. split; [exact Q|].
  split; [unfold handle_pixel; rewrite Q; reflexivity|].
  cbn [cell_fg_color cell_bg_color cell_inverted cell_fg cell_bg].
  rewrite A. cbn [fst snd].
  split; [exact Ef|]. split; [exact Eb|]. split; [exact B|].
  split; intros I; rewrite I; (split; [reflexivity|]); split.
  - intros F'. destruct (foreground_side img x y); [congruence|reflexivity].
  - intros ->. reflexivity.
  - intros F'. destruct (foreground_side img x y); [congruence|reflexivity].
  - intros ->. reflexivity.
Qed.

Lemma cell_colours_are_side_means_witness :
  exists c,
    quantize patterns sample_inverted 0 0 = Some c
    /\ cell_inverted c = true
    /\ cell_fg c = mean_color (background_side sample_inverted 0 0)
    /\ cell_bg c = mean_color (foreground_side sample_inverted 0 0).
Proof.
  destruct (cell_colours_are_side_means patterns sample_inverted 0 0 (Permutation_refl _))
    as (c & E & _ & _ & _ & _ & _ & I).
  - split; cbn; lia.
  - reflexivity.
  - assert (X : exists c', quantize patterns sample_inverted 0 0 = Some c'
                           /\ cell_inverted c' = true).
    { eexists. split; vm_compute; reflexivity. }
    destruct X as (c' & E' & I'). rewrite E in E'. injection E' as <-.
    destruct (I I') as (Fg & Bg & _).
    exists c. split; [exact E|]. split; [exact I'|]. split; [exact Fg|].
    apply Bg. vm_compute. discriminate.
Defined.

(** C4: when the coverage bitmap of the block is a pattern of the
    registry, the matching loop, in whatever order it visits the keys,
    ends with the glyph of that pattern, distance 0 and the inversion
    flag false, and the cell keeps them (the fallback is not taken). *)
Theorem exact_pattern_match keys img x y :
  Permutation keys patterns ->
  In (bits (block_partition img x y)) patterns ->
  exists g c,
    BITMAPS_get BITMAPS (bits (block_partition img x y)) = Some g
    /\ match_glyph keys (bits (block_partition img x y)) = Some (Matching (Some g) 0 false)
    /\ quantize keys img x y = Some c
    /\ cell_character c = g /\ cell_best_diff c = 0 /\ cell_inverted c = false.
Proof.
  intros Pm Ib. set (b := bits (block_partition img x y)) in *.
  assert (S : forall k, In k keys -> In k patterns)
    by (intros k I; now apply (Permutation_in _ Pm)).
  destruct (match_loop keys b (Matching None Py.maxint false) S) as (m & E & L & A & D).
  assert (Ik : In b keys) by now apply (Permutation_in _ (Permutation_sym Pm)).
  destruct (A b Ik) as [A1 _]. rewrite diff_bits_same in A1.
  destruct D as [->|(k & g & I & G & D)].
  - exfalso. cbn [best_diff] in A1. unfold Py.maxint in A1. lia.
  - destruct D as [ -> | -> ]; cbn [best_diff] in A1.
    + pose proof (diff_bits_nonneg k b) as P.
      assert (Z0 : diff_bits k b = 0) by lia.
      pose proof (diff_bits_zero k b Z0) as ->.
      rewrite Z0 in E. exists g.
      eexists. split; [exact G|]. split; [exact E|]. split.
      * apply (quantize_of_match keys img x y _ (Matching (Some g) 0 false) g E);
          reflexivity.
      * cbn. auto.
    + exfalso. pose proof (diff_bits_nonneg (invert32 k) b) as P.
      assert (Z0 : diff_bits (invert32 k) b = 0) by lia.
      pose proof (diff_bits_zero _ _ Z0) as Q.
      apply (no_complementary_patterns b k); [exact Ib|now apply S|now symmetry].
Qed.

Lemma exact_pattern_match_witness :
  exists c,
    quantize patterns sample_half 0 0 = Some c
    /\ cell_bits c = 0xcccccccc
    /\ cell_character c = 0x258c /\ cell_best_diff c = 0 /\ cell_inverted c = false.
Proof.
  destruct (exact_pattern_match patterns sample_half 0 0) as (g & c & G & _ & Q & C1 & C2 & C3).
  - apply Permutation_refl.
  - vm_compute. tauto.
  - exists c. split; [exact Q|].
    vm_compute in G. injection G as <-.
    split; [|split; [exact C1|split; [exact C2|exact C3]]].
    vm_compute in Q. injection Q as <-. reflexivity.
Defined.

(** C5: the distance left by the matching loop is the least of the
    Hamming distances between the coverage bitmap and every pattern in
    both orientations.  When it exceeds 10 the glyph is the character of
    the five-character ramp at index min(4, foreground count * 5 / 32),
    the inversion flag is false and the two colours are not swapped;
    when it is at most 10 the fallback leaves the match as it is. *)
Theorem fallback_iff_min_distance_above_10 keys img x y :
  Permutation keys patterns -> nonempty_block img x y -> valid_block img x y = true ->
  let p := block_partition img x y in
  exists d m c,
    is_min d (all_distances (bits p))
    /\ match_glyph keys (bits p) = Some m /\ best_diff m = d
    /\ quantize keys img x y = Some c
    /\ (10 < d ->
          fallback (fg_color p) m = Some (Matching (Some (cell_character c)) d false)
          /\ nth_error RAMP
               (Z.to_nat (Z.min 4 (Z.of_nat (List.length (foreground_side img x y)) * 5 / 32)))
             = Some (cell_character c)
          /\ cell_inverted c = false
          /\ cell_fg c = snd (averages p) /\ cell_bg c = fst (averages p))
    /\ (d <= 10 ->
          fallback (fg_color p) m = Some m
          /\ character m = Some (cell_character c)
          /\ cell_inverted c = inverted m
          /\ exists P, In P patterns /\ BITMAPS_get BITMAPS P = Some (cell_character c)
               /\ (if inverted m then hamming (invert32 P) (bits p)
                   else hamming P (bits p)) = d).
Proof.
  intros Pm N V p.
  pose proof (block_bits_bound img x y N V) as Hb. fold p in Hb.
  destruct (match_glyph_spec keys (bits p) Pm Hb) as (m & P & g & E & M & IP & G & C & O).
  destruct (fallback_spec (fg_color p) m) as (r & R & F).
  assert (Lf : Py.len (fg_color p) = Z.of_nat (List.length (foreground_side img x y))).
  { destruct (block_partition_spec img x y N V) as (_ & Ef & _).
    unfold p, Py.len. rewrite Ef. now rewrite length_map. }
  rewrite Lf in R.
  exists (best_diff m), m.
  destruct (Z.gtb_spec (best_diff m) 10) as [Hi|Lo].
  - eexists. split; [exact M|]. split; [exact E|]. split; [reflexivity|]. split.
    + apply (quantize_of_match keys img x y m _ r E F). reflexivity.
    + cbn [cell_character cell_inverted cell_fg cell_bg inverted]. split.
      * intros _. auto.
      * intros Hle. lia.
  - eexists. split; [exact M|]. split; [exact E|]. split; [reflexivity|]. split.
    + apply (quantize_of_match keys img x y m _ g E F). exact C.
    + cbn [cell_character cell_inverted cell_fg cell_bg]. split.
      * intros Hgt. lia.
      * intros _. split; [exact F|]. split; [exact C|]. split; [reflexivity|].
        exists P. split; [exact IP|]. split; [exact G|].
        destruct O as [[-> ->]|[-> ->]]; reflexivity.
Qed.

Lemma fallback_iff_min_distance_above_10_witness :
  exists c,
    quantize patterns sample_checker 0 0 = Some c
    /\ cell_character c = 0x2592 /\ cell_inverted c = false
    /\ cell_fg c = [200; 10; 30] /\ cell_bg c = [20; 10; 40].
Proof.
  destruct (fallback_iff_min_distance_above_10 patterns sample_checker 0 0)
    as (d & m & c & M & _ & _ & Q & Hi & _).
  - apply Permutation_refl.
  - split; cbn; lia.
  - reflexivity.
  - assert (D : 10 < d).
    { destruct M as [I _].
      assert (F : forallb (fun v => 10 <? v)
                          (all_distances (bits (block_partition sample_checker 0 0))) = true)
        by (vm_compute; reflexivity).
      rewrite forallb_forall in F. apply Z.ltb_lt. now apply F. }
    destruct (Hi D) as (_ & R & I & Ef & Eb).
    exists c. split; [exact Q|].
    assert (R' : Some (cell_character c) = Some 0x2592)
      by (rewrite <- R; vm_compute; reflexivity).
    injection R' as R'.
    split; [exact R'|]. split; [exact I|]. split; [exact Ef|exact Eb].
Defined.

Lemma mean_color_black l :
  l <> [] -> (forall p, In p l -> rgb_of p = (0, 0, 0)) -> mean_color l = [0; 0; 0].
Proof.
  intros N B.
  assert (S : forall c, (c < 3)%nat -> fold_right Z.add 0 (map (chan c) l) = 0).
  { intros c Hc. clear N. induction l as [|p l IH]; [reflexivity|].
    cbn [map fold_right]. rewrite IH by (intros q I; apply B; now right).
    rewrite <- (rgb_get_rgb_of p c Hc), (B p) by now left.
    destruct c as [|[|[|c]]]; try lia; reflexivity. }
  unfold mean_color, channel_mean. rewrite !S by lia. reflexivity.
Qed.

(** C6: a block inside the frame whose pixels are all (0,0,0), of any
    width and height, is rendered as the style reset followed by one
    space, whatever the order of the keys, and nothing else. *)
Theorem all_black_shortcut keys img x y :
  Permutation keys patterns -> nonempty_block img x y -> valid_block img x y = true ->
  (forall p, In p (block_pixels img x y) -> rgb_of p = (0, 0, 0)) ->
  handle_pixel keys img x y = Some (Py.ESC ++ "[0m ")%string.
Proof.
  intros Pm N V B.
  pose proof (block_bits_bound img x y N V) as Hb.
  destruct (match_glyph_spec keys _ Pm Hb) as (m & P & g & E & _ & _ & _ & C & _).
  destruct (fallback_spec (fg_color (block_partition img x y)) m) as (r & _ & F).
  assert (G : exists g', character (if best_diff m >? 10
                                    then Matching (Some r) (best_diff m) false else m)
                         = Some g').
  { destruct (best_diff m >? 10); [now exists r|now exists g]. }
  destruct G as [g' G].
  unfold handle_pixel. rewrite (quantize_of_match keys img x y m _ g' E F G).
  cbn [bind cell_character cell_fg cell_bg].
  pose proof (background_side_nonempty img x y N V) as Nb.
  rewrite (averages_spec img x y N V Nb). cbn [fst snd].
  assert (Bb : mean_color (background_side img x y) = [0; 0; 0]).
  { apply mean_color_black; [exact Nb|].
    intros p I. apply B. unfold background_side in I. now apply filter_In in I. }
  assert (Bf : match foreground_side img x y with
               | [] => [0; 0; 0]
               | _ => mean_color (foreground_side img x y)
               end = [0; 0; 0]).
  { destruct (foreground_side img x y) as [|q l] eqn:Fs; [reflexivity|].
    apply mean_color_black; [discriminate|].
    intros p I. apply B. rewrite <- Fs in I. unfold foreground_side in I.
    now apply filter_In in I. }
  rewrite Bb, Bf.
  destruct (inverted _); reflexivity.
Qed.

Lemma all_black_shortcut_witness :
  handle_pixel patterns sample_black 0 8 = Some (Py.ESC ++ "[0m ")%string.
Proof.
  apply all_black_shortcut.
  - apply Permutation_refl.
  - split; cbn; lia.
  - reflexivity.
  - intros p I. apply in_block_pixels in I as (i & j & _ & ->). reflexivity.
Defined.

(* ================================================================== *)
(** ** Floats and rounding *)
(* ================================================================== *)

Lemma round_half_even_bounds a b :
  0 <= a -> 0 < b ->
  a / b <= Py.round_half_even a b /\ 2 * b * Py.round_half_even a b <= 2 * a + b.
Proof.
  intros Ha Hb. unfold Py.round_half_even.
  pose proof (Z.div_mod a b ltac:(lia)) as E.
  pose proof (Z.mod_pos_bound a b Hb) as B.
  destruct (Z.ltb_spec (2 * (a mod b)) b) as [L|G]; [split; [lia|nia]|].
  destruct (Z.ltb_spec b (2 * (a mod b))) as [L'|G']; [split; [lia|nia]|].
  destruct (Z.even (a / b)); split; try lia; nia.
Qed.

Lemma round_half_even_nonneg a b : 0 <= a -> 0 < b -> 0 <= Py.round_half_even a b.
Proof.
  intros Ha Hb. destruct (round_half_even_bounds a b Ha Hb) as [L _].
  pose proof (Z.div_pos a b Ha Hb). lia.
Qed.

(** [floor_log2_ratio n d] does not exceed the binary logarithm of
    [n/d], and lies between the two obvious bounds. *)
Lemma floor_log2_ratio_spec n d :
  0 < n -> 0 < d ->
  let k := Py.floor_log2_ratio n d in
  Z.log2 n - Z.log2 d - 1 <= k <= Z.log2 n - Z.log2 d
  /\ (0 <= k -> d * 2 ^ k <= n)
  /\ (k < 0 -> d <= n * 2 ^ (- k)).
Proof.
  intros Hn Hd. cbv zeta. unfold Py.floor_log2_ratio.
  destruct (Z.log2_spec n Hn) as [N1 N2]. destruct (Z.log2_spec d Hd) as [D1 D2].
  pose proof (Z.log2_nonneg n) as Ln. pose proof (Z.log2_nonneg d) as Ld.
  set (ln := Z.log2 n) in *. set (ld := Z.log2 d) in *.
  set (k := ln - ld).
  destruct (Z.leb_spec 0 k) as [K|K].
  - destruct (Z.leb_spec (d * 2 ^ k) n) as [T|T].
    + split; [lia|]. split; [intros _; exact T|lia].
    + split; [lia|]. split.
      * intros K1. 
        assert (P : 2 ^ (Z.succ ld) * 2 ^ (k - 1) = 2 ^ ln).
        { rewrite <- Z.pow_add_r by lia. f_equal. lia. }
        pose proof (Z.pow_pos_nonneg 2 (k - 1) ltac:(lia) ltac:(lia)). nia.
      * intros K1. assert (K0 : ln = ld) by (unfold k in *; lia).
        replace (- (k - 1)) with 1 by (unfold k; lia).
        replace (Z.succ ld) with (ln + 1) in D2 by lia.
        rewrite Z.pow_add_r in D2 by lia. change (2 ^ 1) with 2 in *. lia.
  - destruct (Z.leb_spec d (n * 2 ^ (- k))) as [T|T].
    + split; [lia|]. split; [lia|intros _; exact T].
    + split; [lia|]. split; [lia|]. intros _.
      assert (P : 2 ^ ln * 2 ^ (- (k - 1)) = 2 ^ (Z.succ ld)).
      { rewrite <- Z.pow_add_r by lia. f_equal. lia. }
      pose proof (Z.pow_pos_nonneg 2 (- (k - 1)) ltac:(lia) ltac:(lia)). nia.
Qed.

Lemma log2_lt_52 n : 0 < n < 2 ^ 52 -> 0 <= Z.log2 n < 52.
Proof.
  intros [P L]. split; [apply Z.log2_nonneg|].
  apply Z.log2_lt_pow2; [exact P|exact L].
Qed.

(** Below [2^52] the conversion to a float cannot move a fraction
    across a half-integer: rounding the float of [n/d] is rounding
    [n/d]. *)
Lemma round_small q :
  0 < Qnum q < 2 ^ 52 -> Zpos (Qden q) < 2 ^ 52 ->
  Py.round q = Some (Qfloor (q + (1 # 2))).
Proof.
  destruct q as [n d]. cbn [Qnum Qden]. intros Hn Hd.
  unfold Py.round, Py.float. cbn [Qnum Qden].
  destruct n as [|n|n]; try lia.
  unfold Py.true_divide.
  pose proof (floor_log2_ratio_spec (Zpos n) (Zpos d) ltac:(lia) ltac:(lia)) as S.
  cbv zeta in S. destruct S as (K & S1 & S2).
  pose proof (log2_lt_52 (Zpos n) Hn) as Ln.
  pose proof (log2_lt_52 (Zpos d) ltac:(lia)) as Ld.
  set (k := Py.floor_log2_ratio (Zpos n) (Zpos d)) in *.
  replace (Z.max (k - 52) (-1074)) with (k - 52) by lia.
  destruct (Z.leb_spec 0 (k - 52)) as [T|_]; [lia|].
  replace (- (k - 52)) with (52 - k) by lia.
  set (E := 52 - k).
  assert (HE : 1 <= E) by (unfold E; lia).
  assert (PE : 0 < 2 ^ E) by (apply Z.pow_pos_nonneg; lia).
  (* the denominator is below [2^E] *)
  assert (DE : Zpos d < 2 ^ E).
  { destruct (Z.lt_ge_cases k 0) as [K0|K0].
    - specialize (S2 K0).
      assert (P : 2 ^ 52 * 2 ^ (- k) = 2 ^ E).
      { rewrite <- Z.pow_add_r by lia. f_equal; unfold E; lia. }
      pose proof (Z.pow_pos_nonneg 2 (- k) ltac:(lia) ltac:(lia)). nia.
    - specialize (S1 K0).
      assert (P : 2 ^ E * 2 ^ k = 2 ^ 52).
      { rewrite <- Z.pow_add_r by (unfold E; lia). f_equal; unfold E; lia. }
      pose proof (Z.pow_pos_nonneg 2 k ltac:(lia) K0).
      destruct (Z.lt_ge_cases (Zpos d) (2 ^ E)) as [A|A]; [exact A|]. exfalso. nia. }
  destruct (round_half_even_bounds (Zpos n * 2 ^ E) (Zpos d) ltac:(lia) ltac:(lia))
    as [M1 M2].
  set (m := Py.round_half_even (Zpos n * 2 ^ E) (Zpos d)) in *.
  assert (M0 : 0 <= m).
  { pose proof (Z.div_pos (Zpos n * 2 ^ E) (Zpos d) ltac:(lia) ltac:(lia)). lia. }
  f_equal. unfold Py.round_float.
  assert (Q0 : Qle_bool 0 (m # Z.to_pos (2 ^ E)) = true).
  { apply Qle_bool_iff. unfold Qle. cbn [Qnum Qden]. lia. }
  rewrite Q0. unfold Qfloor, Qplus. cbn [Qnum Qden].
  rewrite !Pos2Z.inj_mul, Z2Pos.id by exact PE.
  (* both sides are [r] *)
  set (r := (Zpos n * 2 + 1 * Zpos d) / (Zpos d * 2)).
  pose proof (Z.div_mod (Zpos n * 2 + 1 * Zpos d) (Zpos d * 2) ltac:(lia)) as R.
  pose proof (Z.mod_pos_bound (Zpos n * 2 + 1 * Zpos d) (Zpos d * 2) ltac:(lia)) as RB.
  fold r in R.
  assert (T2 : 2 ^ E = 2 * 2 ^ (E - 1)).
  { replace E with (1 + (E - 1)) at 1 by lia. rewrite Z.pow_add_r by lia. reflexivity. }
  assert (PT : 0 < 2 ^ (E - 1)) by (apply Z.pow_pos_nonneg; lia).
  set (T := 2 ^ (E - 1)) in *.
  assert (LO : (2 * r - 1) * T <= m).
  { apply Z.le_trans with (Zpos n * 2 ^ E / Zpos d); [|exact M1].
    apply Z.div_le_lower_bound; [lia|]. rewrite T2. nia. }
  assert (HI : m < (2 * r + 1) * T).
  { assert (2 * Zpos d * m < 2 * Zpos d * ((2 * r + 1) * T)); [|nia].
    rewrite T2 in M2, DE. nia. }
  symmetry. apply Z.div_unique with (r := m * 2 + 1 * 2 ^ E - 2 ^ E * 2 * r); [|lia].
  left. rewrite T2. nia.
Qed.

(* ================================================================== *)
(** ** The aspect fitter *)
(* ================================================================== *)

Lemma inject_Z_nonzero d : d <> 0 -> ~ (inject_Z d == 0)%Q.
Proof. intros H E. unfold Qeq in E. cbn in E. lia. Qed.

Lemma Fraction_eq n d : (Fraction n d == inject_Z n / inject_Z d)%Q.
Proof. unfold Fraction. apply Qred_correct. Qed.

Lemma Qle_Fraction a b c d :
  0 < b -> 0 < d -> (Fraction a b <= Fraction c d)%Q <-> a * d <= c * b.
Proof.
  intros Hb Hd. destruct b as [|pb|pb], d as [|pd|pd]; try lia.
  rewrite !Fraction_eq, <- !Qmake_Qdiv. unfold Qle. cbn [Qnum Qden]. reflexivity.
Qed.

Lemma Fraction_nonneg n d : 0 <= n -> 0 < d -> (0 <= Fraction n d)%Q.
Proof.
  intros Hn Hd. destruct d as [|pd|pd]; try lia.
  rewrite Fraction_eq, <- Qmake_Qdiv. unfold Qle. cbn [Qnum Qden]. lia.
Qed.

Lemma Qgt_bool_Fraction a b c d :
  0 < b -> 0 < d -> Qgt_bool (Fraction a b) (Fraction c d) = (c * b <? a * d).
Proof.
  intros Hb Hd. unfold Qgt_bool.
  destruct (Qle_bool (Fraction a b) (Fraction c d)) eqn:E; cbn [negb]; symmetry.
  - apply Qle_bool_iff in E. apply (proj1 (Qle_Fraction a b c d Hb Hd)) in E.
    apply Z.ltb_ge. exact E.
  - apply Z.ltb_lt. destruct (Z.lt_ge_cases (c * b) (a * d)) as [L|G]; [exact L|].
    exfalso. assert (T : Qle_bool (Fraction a b) (Fraction c d) = true).
    { apply Qle_bool_iff. apply (proj2 (Qle_Fraction a b c d Hb Hd)). lia. }
    congruence.
Qed.

(** Reducing a positive fraction to lowest terms enlarges neither its
    numerator nor its denominator. *)
Lemma Qred_bounds n d :
  0 < n ->
  0 < Qnum (Qred (n # d)) <= n /\ Zpos (Qden (Qred (n # d))) <= Zpos d.
Proof.
  intros Hn. unfold Qred.
  pose proof (Z.ggcd_correct_divisors n (Zpos d)) as C.
  pose proof (Z.ggcd_gcd n (Zpos d)) as G.
  pose proof (Z.gcd_nonneg n (Zpos d)) as P.
  destruct (Z.ggcd n (Zpos d)) as [g [aa bb]]. cbn [fst snd] in *.
  destruct C as [C1 C2]. cbn [Qnum Qden].
  rewrite <- G in P. clear G.
  assert (0 < g) by (destruct (Z.eq_dec g 0); [subst g; lia|lia]).
  assert (0 < bb) by nia. assert (0 < aa) by nia.
  rewrite Z2Pos.id by lia. nia.
Qed.

(** Rounding a positive fraction [n/d] with [n] and [d] below [2^52]
    gives [(2n + d) / 2d]. *)
Lemma round_Fraction q n d :
  0 < n < 2 ^ 52 -> 0 < d < 2 ^ 52 -> (q == inject_Z n / inject_Z d)%Q ->
  Py.round (Qred q) = Some ((2 * n + d) / (2 * d)).
Proof.
  intros Hn Hd E.
  assert (E' : (q == n # Z.to_pos d)%Q).
  { rewrite E, Qmake_Qdiv, Z2Pos.id by lia. reflexivity. }
  rewrite (Qred_complete _ _ E').
  destruct (Qred_bounds n (Z.to_pos d) ltac:(lia)) as [B1 B2].
  rewrite Z2Pos.id in B2 by lia.
  rewrite round_small by lia. f_equal.
  rewrite (Zdiv_Qdiv (2 * n + d) (2 * d)). apply Qfloor_comp.
  rewrite Qred_correct, Qmake_Qdiv, Z2Pos.id by lia.
  rewrite inject_Z_plus, !inject_Z_mult.
  field. apply inject_Z_nonzero. lia.
Qed.

(** Rounding never turns a non-negative fraction into a negative
    integer. *)
Lemma round_nonneg q z : (0 <= q)%Q -> Py.round q = Some z -> 0 <= z.
Proof.
  intros Hq. unfold Py.round, Py.float.
  assert (N : 0 <= Qnum q) by (unfold Qle in Hq; cbn in Hq; lia).
  assert (R : forall x, (0 <= x)%Q -> 0 <= Py.round_float x).
  { intros x Hx. unfold Py.round_float.
    apply Qle_bool_iff in Hx as Hb. rewrite Hb.
    change 0 with (Qfloor 0). apply Qfloor_resp_le.
    apply Qle_trans with x; [exact Hx|].
    rewrite <- (Qplus_0_r x) at 1. apply Qplus_le_r. discriminate. }
  destruct (Qnum q) as [|n|n] eqn:En; try lia.
  - intros [= <-]. apply R. apply Qle_refl.
  - unfold Py.true_divide.
    set (k := Py.floor_log2_ratio (Zpos n) (Zpos (Qden q))).
    set (e := Z.max (k - 52) (-1074)).
    destruct (Z.leb_spec 0 e) as [T|T].
    + assert (PE : 0 < 2 ^ e) by (apply Z.pow_pos_nonneg; lia).
      pose proof (round_half_even_nonneg (Zpos n) (Zpos (Qden q) * 2 ^ e)
                    ltac:(lia) ltac:(lia)) as M.
      set (m := Py.round_half_even _ _) in *.
      destruct (2 ^ 1024 <=? _); [discriminate|].
      intros [= <-]. apply R. change 0%Q with (inject_Z 0).
      rewrite <- Zle_Qle. apply Z.mul_nonneg_nonneg; [exact M|lia].
    + assert (PE : 0 < 2 ^ (- e)) by (apply Z.pow_pos_nonneg; lia).
      pose proof (round_half_even_nonneg (Zpos n * 2 ^ (- e)) (Zpos (Qden q))
                    ltac:(lia) ltac:(lia)) as M.
      set (m := Py.round_half_even _ _) in *.
      intros [= <-]. apply R. unfold Qle. cbv [Qnum Qden]. lia.
Qed.

Lemma round_half_bound n d h :
  0 <= n -> 0 < d -> h = (2 * n + d) / (2 * d) ->
  0 <= h /\ - d < 2 * (h * d - n) <= d.
Proof.
  intros Hn Hd ->.
  pose proof (Z.div_mod (2 * n + d) (2 * d) ltac:(lia)) as E.
  pose proof (Z.mod_pos_bound (2 * n + d) (2 * d) ltac:(lia)) as B.
  split; [apply Z.div_pos; lia|]. nia.
Qed.

(** The result of [calculate_borders] on positive arguments small
    enough for the floats to be exact where it matters: the side that
    binds takes its bound, the other one the rounded proportional value,
    and neither [min] changes anything. *)
Lemma calculate_borders_eq bw bh ow oh :
  0 < bw -> 0 < bh -> 0 < ow < 2 ^ 52 -> 0 < oh < 2 ^ 52 ->
  bw * oh < 2 ^ 52 -> bh * ow < 2 ^ 52 ->
  calculate_borders bw bh ow oh
  = if bw * oh <? ow * bh
    then Some (bw, (2 * (bw * oh) + ow) / (2 * ow))
    else Some ((2 * (bh * ow) + oh) / (2 * oh), bh).
Proof.
  intros Hbw Hbh How Hoh B1 B2. unfold calculate_borders.
  rewrite Qgt_bool_Fraction by lia.
  assert (Nw : ~ (inject_Z ow == 0)%Q) by (apply inject_Z_nonzero; lia).
  assert (Nh : ~ (inject_Z oh == 0)%Q) by (apply inject_Z_nonzero; lia).
  destruct (Z.ltb_spec (bw * oh) (ow * bh)) as [L|G]; cbv beta iota zeta.
  - rewrite (round_Fraction _ bw 1); [|nia|lia|].
    2:{ rewrite Qred_correct, !Fraction_eq. field. split; assumption. }
    rewrite (round_Fraction _ (bw * oh) ow); [|nia|lia|].
    2:{ rewrite !Fraction_eq, inject_Z_mult. field. split; assumption. }
    cbn [bind].
    destruct (round_half_bound (bw * oh) ow _ ltac:(lia) ltac:(lia) eq_refl) as [P B].
    f_equal. f_equal.
    + replace ((2 * bw + 1) / (2 * 1)) with bw; [lia|].
      apply Z.div_unique with (r := 1); lia.
    + apply Z.min_l. nia.
  - rewrite (round_Fraction _ (bh * ow) oh); [|nia|lia|].
    2:{ rewrite !Fraction_eq, inject_Z_mult. field. assumption. }
    rewrite (round_Fraction _ bh 1); [|nia|lia|].
    2:{ rewrite Qred_correct, !Fraction_eq. field. split; assumption. }
    cbn [bind].
    destruct (round_half_bound (bh * ow) oh _ ltac:(lia) ltac:(lia) eq_refl) as [P B].
    f_equal. f_equal.
    + apply Z.min_l. nia.
    + replace ((2 * bh + 1) / (2 * 1)) with bh; [lia|].
      apply Z.div_unique with (r := 1); lia.
Qed.

Lemma inject_Z_nonneg z : 0 <= z -> (0 <= inject_Z z)%Q.
Proof. intros H. change 0%Q with (inject_Z 0). now rewrite <- Zle_Qle. Qed.

Lemma Qdiv_nonneg a b : (0 <= a)%Q -> (0 <= b)%Q -> (0 <= a / b)%Q.
Proof.
  intros Ha Hb. unfold Qdiv. apply Qmult_le_0_compat; [exact Ha|].
  now apply Qinv_le_0_compat.
Qed.

(** Whatever the size of the arguments, a size that [calculate_borders]
    returns lies between 0 and the bounds. *)
Lemma calculate_borders_range bw bh ow oh w h :
  0 < bw -> 0 < bh -> 0 < ow -> 0 < oh ->
  calculate_borders bw bh ow oh = Some (w, h) ->
  0 <= w <= bw /\ 0 <= h <= bh.
Proof.
  intros Hbw Hbh How Hoh. unfold calculate_borders.
  pose proof (Fraction_nonneg ow oh ltac:(lia) Hoh) as R.
  pose proof (Fraction_nonneg oh ow ltac:(lia) How) as R'.
  pose proof (inject_Z_nonneg bw ltac:(lia)) as Bw.
  pose proof (inject_Z_nonneg bh ltac:(lia)) as Bh.
  destruct (Qgt_bool _ _); cbv beta iota zeta.
  - destruct (Py.round _) as [x|] eqn:Ex; [|discriminate].
    destruct (Py.round (Qred (inject_Z bw / _))) as [y|] eqn:Ey; [|discriminate].
    cbn [bind]. intros [= <- <-].
    apply round_nonneg in Ex, Ey; [lia| |].
    + rewrite Qred_correct. now apply Qdiv_nonneg.
    + rewrite !Qred_correct. apply Qmult_le_0_compat; [|exact R].
      now apply Qdiv_nonneg.
  - destruct (Py.round _) as [x|] eqn:Ex; [|discriminate].
    destruct (Py.round (Qred (Fraction oh ow * _))) as [y|] eqn:Ey; [|discriminate].
    cbn [bind]. intros [= <- <-].
    apply round_nonneg in Ex, Ey; [lia| |].
    + rewrite !Qred_correct. apply Qmult_le_0_compat; [exact R'|].
      now apply Qmult_le_0_compat.
    + rewrite Qred_correct. now apply Qmult_le_0_compat.
Qed.

Lemma pow2_26_bound a b : 0 < a < 2 ^ 26 -> 0 < b < 2 ^ 26 -> 0 < a * b < 2 ^ 52.
Proof. intros Ha Hb. change (2 ^ 52) with (2 ^ 26 * 2 ^ 26). nia. Qed.

(** C7, as the specification states it, fails: for a bounding box of
    80x24 and a source of 1000x5 the fitted height is 0, which is not a
    positive integer. *)
Lemma aspect_fit_height_can_be_zero :
  calculate_borders 80 24 1000 5 = Some (80, 0)
  /\ ~ (forall bw bh ow oh, 0 < bw -> 0 < bh -> 0 < ow -> 0 < oh ->
          exists w h, calculate_borders bw bh ow oh = Some (w, h)
                      /\ 0 < w /\ 0 < h /\ w <= bw /\ h <= bh).
Proof.
  assert (E : calculate_borders 80 24 1000 5 = Some (80, 0)) by (vm_compute; reflexivity).
  split; [exact E|]. intros H.
  destruct (H 80 24 1000 5) as (w & h & E' & _ & P & _); try lia.
  rewrite E in E'. injection E' as <- <-. lia.
Qed.

(** C7, amended: on positive arguments a fitted width and height are
    non-negative integers within their bounds; and when the four
    arguments are below [2^26] (so that the conversion of the fractions
    to floats before rounding loses nothing that matters) the size is
    returned, one of its dimensions is its bound (and so positive) and
    the other is the integer nearest to the proportional value, at most
    half a unit away from it, which is positive exactly when that value
    is at least one half. *)
Theorem aspect_fit_within_bounds bw bh ow oh :
  0 < bw -> 0 < bh -> 0 < ow -> 0 < oh ->
  (forall w h, calculate_borders bw bh ow oh = Some (w, h) ->
     0 <= w <= bw /\ 0 <= h <= bh)
  /\ (bw < 2 ^ 26 -> bh < 2 ^ 26 -> ow < 2 ^ 26 -> oh < 2 ^ 26 ->
      exists w h,
        calculate_borders bw bh ow oh = Some (w, h)
        /\ 0 <= w <= bw /\ 0 <= h <= bh
        /\ ((bw * oh < ow * bh /\ w = bw
             /\ - ow < 2 * (h * ow - w * oh) <= ow
             /\ (0 < h <-> ow <= 2 * (bw * oh)))
            \/ (ow * bh <= bw * oh /\ h = bh
                /\ - oh < 2 * (w * oh - h * ow) <= oh
                /\ (0 < w <-> oh <= 2 * (bh * ow))))).
Proof.
  intros Hbw Hbh How Hoh. split.
  { intros w h E. now apply (calculate_borders_range bw bh ow oh). }
  intros Bbw Bbh Bow Boh.
  pose proof (pow2_26_bound bw oh ltac:(lia) ltac:(lia)) as P1.
  pose proof (pow2_26_bound bh ow ltac:(lia) ltac:(lia)) as P2.
  assert (T : 2 ^ 26 < 2 ^ 52) by reflexivity.
  rewrite calculate_borders_eq by lia.
  destruct (Z.ltb_spec (bw * oh) (ow * bh)) as [L|G].
  - destruct (round_half_bound (bw * oh) ow _ ltac:(lia) How eq_refl) as [P B].
    set (r := (2 * (bw * oh) + ow) / (2 * ow)) in *.
    exists bw, r. split; [reflexivity|].
    split; [lia|]. split; [nia|]. left.
    split; [exact L|]. split; [reflexivity|]. split; [lia|]. nia.
  - destruct (round_half_bound (bh * ow) oh _ ltac:(lia) Hoh eq_refl) as [P B].
    set (r := (2 * (bh * ow) + oh) / (2 * oh)) in *.
    exists r, bh. split; [reflexivity|].
    split; [nia|]. split; [lia|]. right.
    split; [exact G|]. split; [reflexivity|]. split; [lia|]. nia.
Qed.

Lemma aspect_fit_within_bounds_witness :
  calculate_borders 80 24 320 200 = Some (38, 24)
  /\ (0 <= 38 <= 80 /\ 0 <= 24 <= 24)
  /\ exists w h, calculate_borders 80 24 320 200 = Some (w, h)
                 /\ 0 <= w <= 80 /\ 0 <= h <= 24.
Proof.
  assert (E : calculate_borders 80 24 320 200 = Some (38, 24)) by (vm_compute; reflexivity).
  destruct (aspect_fit_within_bounds 80 24 320 200) as [A B]; try lia.
  split; [exact E|]. split; [exact (A 38 24 E)|].
  destruct B as (w & h & E' & W & H & _); try reflexivity.
  exists w, h. split; [exact E'|]. split; [exact W|exact H].
Defined.

(* ================================================================== *)
(** ** The playback loop *)
(* ================================================================== *)

Lemma iter_take_list k l : iter_take k (ListIter l) = firstn k l.
Proof.
  revert l; induction k as [|k IH]; intros l; [reflexivity|].
  destruct l as [|f l]; [reflexivity|]. cbn. now rewrite IH.
Qed.

Lemma next_cycle r saved :
  saved <> [] -> exists f r', next (CycleIter r saved) = Some (f, CycleIter r' saved).
Proof.
  intros N. destruct r as [|f r]; [|now exists f, r].
  destruct saved as [|f r]; [congruence|]. now exists f, r.
Qed.

Lemma iter_take_cycle_length k r saved :
  saved <> [] -> List.length (iter_take k (CycleIter r saved)) = k.
Proof.
  intros N. revert r; induction k as [|k IH]; intros r; [reflexivity|].
  destruct (next_cycle r saved N) as (f & r' & E).
  cbn [iter_take]. rewrite E. cbn [List.length]. now rewrite IH.
Qed.

Lemma iter_take_cycle_in k r saved f :
  In f (iter_take k (CycleIter r saved)) -> In f r \/ In f saved.
Proof.
  revert r; induction k as [|k IH]; intros r; [intros []|].
  destruct r as [|g r]; cbn [iter_take next].
  - destruct saved as [|g s]; [intros []|].
    intros [<-|I]; [right; now left|].
    apply IH in I as [I|I]; right; [now right|exact I].
  - intros [<-|I]; [left; now left|].
    apply IH in I as [I|I]; [left; now right|now right].
Qed.

(** The iterator of the loop and the frames it can yield. *)
Lemma iter_take_in (forever : bool) frames k f :
  In f (iter_take k (if forever then CycleIter frames frames else ListIter frames)) ->
  In f frames.
Proof.
  destruct forever.
  - intros I. apply iter_take_cycle_in in I. tauto.
  - rewrite iter_take_list. intros I.
    rewrite <- (firstn_skipn k frames). apply in_or_app. now left.
Qed.

Lemma still_playing_yields (forever : bool) frames k :
  still_playing forever frames k ->
  List.length (iter_take (S k) (if forever then CycleIter frames frames else ListIter frames))
  = S k.
Proof.
  intros [L|[-> N]].
  - destruct forever.
    + apply iter_take_cycle_length. intros ->. cbn in L. lia.
    + rewrite iter_take_list, length_firstn. lia.
  - now apply iter_take_cycle_length.
Qed.

(** Whatever happens, the loop has written the texts of the first
    frames of its iterator and is over, interrupted or still running. *)
Lemma play_loop_prefix fuel new_size sep it interrupt :
  exists k,
    fst (play_loop fuel new_size sep it interrupt)
    = map (frame_text new_size sep) (iter_take k it)
    /\ (snd (play_loop fuel new_size sep it interrupt) = Normal
        \/ snd (play_loop fuel new_size sep it interrupt) = Raise KeyboardInterrupt
        \/ snd (play_loop fuel new_size sep it interrupt) = Running).
Proof.
  revert it interrupt; induction fuel as [|fuel IH]; intros it interrupt.
  - exists 0%nat. cbn. auto.
  - cbn [play_loop]. destruct (next it) as [[frame it']|] eqn:E.
    + assert (R : exists k,
                fst (let '(out, r) := play_loop fuel new_size sep it'
                                        (option_map (fun n => (n - 2)%nat) interrupt) in
                     (frame_text new_size sep frame :: out, r))
                = map (frame_text new_size sep) (iter_take k it)
                /\ (snd (let '(out, r) := play_loop fuel new_size sep it'
                                            (option_map (fun n => (n - 2)%nat) interrupt) in
                         (frame_text new_size sep frame :: out, r)) = Normal
                    \/ snd (let '(out, r) := play_loop fuel new_size sep it'
                                               (option_map (fun n => (n - 2)%nat) interrupt) in
                            (frame_text new_size sep frame :: out, r)) = Raise KeyboardInterrupt
                    \/ snd (let '(out, r) := play_loop fuel new_size sep it'
                                               (option_map (fun n => (n - 2)%nat) interrupt) in
                            (frame_text new_size sep frame :: out, r)) = Running)).
      { destruct (IH it' (option_map (fun n => (n - 2)%nat) interrupt)) as (k & Eo & Er).
        destruct (play_loop fuel new_size sep it' _) as [out r]. cbn [fst snd] in *.
        exists (S k). cbn [iter_take]. rewrite E. cbn [map]. now rewrite Eo. }
      destruct interrupt as [[|[|n]]|]; try exact R.
      * exists 0%nat. cbn. auto.
      * exists 1%nat. cbn [iter_take]. rewrite E. cbn. auto.
    + exists 0%nat. cbn. auto.
Qed.

(** A Ctrl-C after [n] statements, while the loop still has frames to
    show: the first [(n + 1) / 2] frames have been written. *)
Lemma play_loop_interrupted fuel new_size sep it n :
  (n / 2 < fuel)%nat ->
  List.length (iter_take (S (n / 2)) it) = S (n / 2) ->
  play_loop fuel new_size sep it (Some n)
  = (map (frame_text new_size sep) (iter_take ((n + 1) / 2) it), Raise KeyboardInterrupt).
Proof.
  revert it n; induction fuel as [|fuel IH]; intros it n F Y; [lia|].
  cbn [play_loop]. cbn [iter_take] in Y.
  destruct (next it) as [[frame it']|] eqn:E; [|discriminate].
  destruct n as [|[|n]].
  - reflexivity.
  - change ((1 + 1) / 2)%nat with 1%nat. cbn [iter_take]. rewrite E. reflexivity.
  - cbn [option_map].
    replace (S (S n) - 2)%nat with n by lia.
    assert (D : (S (S n) / 2 = S (n / 2))%nat).
    { change (S (S n)) with (2 + n)%nat.
      replace (2 + n)%nat with (n + 1 * 2)%nat by lia. rewrite Nat.div_add by lia. lia. }
    assert (D' : ((S (S n) + 1) / 2 = S ((n + 1) / 2))%nat).
    { replace (S (S n) + 1)%nat with ((n + 1) + 1 * 2)%nat by lia.
      rewrite Nat.div_add by lia. lia. }
    rewrite D in F, Y. cbn [List.length] in Y.
    rewrite (IH it' n); [|lia|lia].
    rewrite D'. cbn [iter_take]. rewrite E. reflexivity.
Qed.

(** Without a Ctrl-C the loop over a list shows every frame and ends. *)
Lemma play_loop_completes fuel new_size sep frames :
  (List.length frames < fuel)%nat ->
  play_loop fuel new_size sep (ListIter frames) None
  = (map (frame_text new_size sep) frames, Normal).
Proof.
  revert fuel; induction frames as [|f frames IH]; intros fuel F.
  - destruct fuel; [lia|reflexivity].
  - destruct fuel; [cbn in F; lia|]. cbn [play_loop next option_map].
    rewrite IH by (cbn in F; lia). reflexivity.
Qed.

Lemma frame_text_head new_size sep frame :
  exists s, frame_text new_size sep frame = String "013" s.
Proof. unfold frame_text, rewind, Py.CR. cbn [append]. eexists; reflexivity. Qed.

Lemma frame_text_not_restore new_size sep frame :
  frame_text new_size sep frame <> restored_terminal_exit.
Proof.
  destruct (frame_text_head new_size sep frame) as [s ->].
  unfold restored_terminal_exit, restore_sequence, Py.ESC. cbn [append]. discriminate.
Qed.

(** The restoration text occurs once in an output that ends with it
    after frame texts. *)
Lemma restore_once new_size sep l :
  count_occ string_dec
    (map (frame_text new_size sep) l ++ [restored_terminal_exit])%list
    restored_terminal_exit = 1%nat.
Proof.
  rewrite count_occ_app.
  assert (Z0 : count_occ string_dec (map (frame_text new_size sep) l)
                 restored_terminal_exit = 0%nat).
  { apply count_occ_not_In. intros I. apply in_map_iff in I as (f & E & _).
    now apply (frame_text_not_restore new_size sep f). }
  rewrite Z0. cbn. destruct (string_dec restored_terminal_exit restored_terminal_exit);
    [reflexivity|congruence].
Qed.

(** A loop that ends normally has run two statements for each text it
    has written, all of them before the Ctrl-C. *)
Lemma play_loop_normal_count fuel new_size sep it n :
  snd (play_loop fuel new_size sep it (Some n)) = Normal ->
  (2 * List.length (fst (play_loop fuel new_size sep it (Some n))) <= n)%nat.
Proof.
  revert it n; induction fuel as [|fuel IH]; intros it n; [discriminate|].
  cbn [play_loop]. destruct (next it) as [[frame it']|]; [|cbn; lia].
  destruct n as [|[|n]]; [discriminate|discriminate|].
  cbn [option_map]. replace (S (S n) - 2)%nat with n by lia.
  specialize (IH it' n). destruct (play_loop fuel new_size sep it' (Some n)) as [out r].
  cbn [fst snd List.length] in *. intros E. specialize (IH E). lia.
Qed.

(** A Ctrl-C that arrives when the loop over a list is over leaves the
    loop alone. *)
Lemma play_loop_outlasts fuel new_size sep frames n :
  (List.length frames < fuel)%nat -> (2 * List.length frames <= n)%nat ->
  play_loop fuel new_size sep (ListIter frames) (Some n)
  = (map (frame_text new_size sep) frames, Normal).
Proof.
  revert fuel n; induction frames as [|f frames IH]; intros fuel n F L.
  - destruct fuel; [lia|reflexivity].
  - destruct fuel; [cbn in F; lia|]. cbn [List.length] in F, L.
    cbn [play_loop next].
    destruct n as [|[|n]]; [lia|lia|]. cbn [option_map].
    rewrite IH by lia. reflexivity.
Qed.

Lemma not_restore_in_frames new_size sep l :
  ~ In restored_terminal_exit (map (frame_text new_size sep) l).
Proof.
  intros I. apply in_map_iff in I as (f & E & _).
  now apply (frame_text_not_restore new_size sep f).
Qed.

(** C9, as the specification states it, fails.  The text that
    [RestoredTerminal.__exit__] prints does not contain the sequence
    that re-enables line wrap, so a playback with no frame, which writes
    that text and nothing else, writes no restoration text in the sense
    of the specification.  And a Ctrl-C that arrives when the loop over
    two frames is over and [__exit__] is about to print ends the process
    with status 128 and nothing restored. *)
Lemma restoration_does_not_enable_line_wrap :
  contains line_wrap_on restored_terminal_exit = false
  /\ playback 1 false [] (4, 16) None None = ([restored_terminal_exit], Normal)
  /\ ~ (forall fuel forever frames new_size sep interrupt,
          snd (playback fuel forever frames new_size sep interrupt) <> Running ->
          exists t,
            is_restoration t
            /\ count_occ string_dec
                 (fst (playback fuel forever frames new_size sep interrupt)) t = 1%nat)
  /\ playback 3 false ["a"; "b"]%string (4, 16) None (Some 4%nat)
     = ([frame_text (4, 16) None "a"; frame_text (4, 16) None "b"], Raise (SystemExit 128))
  /\ ~ In restored_terminal_exit
          (fst (playback 3 false ["a"; "b"]%string (4, 16) None (Some 4%nat))).
Proof.
  assert (W : contains line_wrap_on restored_terminal_exit = false) by reflexivity.
  assert (E : playback 1 false [] (4, 16) None None = ([restored_terminal_exit], Normal))
    by reflexivity.
  split; [exact W|]. split; [exact E|]. split; [|split].
  - intros H. destruct (H 1%nat false [] (4, 16) None None) as (t & (L & _) & C).
    + rewrite E. discriminate.
    + rewrite E in C. cbn [fst count_occ] in C.
      destruct (string_dec restored_terminal_exit t) as [<-|]; [|discriminate].
      rewrite W in L. discriminate.
  - reflexivity.
  - change (fst (playback 3 false ["a"; "b"]%string (4, 16) None (Some 4%nat)))
      with (map (frame_text (4, 16) None) ["a"; "b"]%string).
    apply not_restore_in_frames.
Qed.

(** C9, amended.  The text that [RestoredTerminal.__exit__] prints is
    ESC[34h ESC[?25h ESC[0m ESC[0m and a newline: it shows the cursor
    and resets the colours, and does not re-enable line wrap.  A Ctrl-C
    during the playback loop, whichever frame is in flight, leaves that
    text written exactly once, as the last output, and the process exits
    with status 128; a playback that completes writes it once after the
    frames and exits with status 0.  A Ctrl-C that arrives when the loop
    is over and [__exit__] has not printed yet gives status 128 without
    the text; one that arrives after the print gives status 128 after
    it.  So every way out writes the text at most once, as the last
    output, and exactly once unless the Ctrl-C falls on that print. *)
Theorem restoration_on_every_exit_path
    fuel (forever : bool) frames new_size sep :
  let it := if forever then CycleIter frames frames else ListIter frames in
  (bytes_of restored_terminal_exit
   = [27; 91; 51; 52; 104; 27; 91; 63; 50; 53; 104;
      27; 91; 48; 109; 27; 91; 48; 109; 10]%nat
   /\ contains cursor_show restored_terminal_exit = true
   /\ contains style_reset restored_terminal_exit = true
   /\ contains line_wrap_on restored_terminal_exit = false)
  /\ (forall n, still_playing forever frames (n / 2) -> (n / 2 < fuel)%nat ->
        fst (playback fuel forever frames new_size sep (Some n))
        = (map (frame_text new_size sep) (iter_take ((n + 1) / 2) it)
           ++ [restored_terminal_exit])%list
        /\ count_occ string_dec (fst (playback fuel forever frames new_size sep (Some n)))
                     restored_terminal_exit = 1%nat
        /\ snd (playback fuel forever frames new_size sep (Some n)) = Raise (SystemExit 128)
        /\ exit_status (snd (playback fuel forever frames new_size sep (Some n)))
           = Some 128)
  /\ (forever = false -> (List.length frames < fuel)%nat ->
      fst (playback fuel forever frames new_size sep None)
      = (map (frame_text new_size sep) frames ++ [restored_terminal_exit])%list
      /\ count_occ string_dec (fst (playback fuel forever frames new_size sep None))
                   restored_terminal_exit = 1%nat
      /\ snd (playback fuel forever frames new_size sep None) = Normal
      /\ exit_status (snd (playback fuel forever frames new_size sep None)) = Some 0)
  /\ (forever = false -> (List.length frames < fuel)%nat ->
      playback fuel forever frames new_size sep (Some (2 * List.length frames)%nat)
      = (map (frame_text new_size sep) frames, Raise (SystemExit 128))
      /\ ~ In restored_terminal_exit (map (frame_text new_size sep) frames)
      /\ playback fuel forever frames new_size sep (Some (2 * List.length frames + 1)%nat)
         = ((map (frame_text new_size sep) frames ++ [restored_terminal_exit])%list,
            Raise (SystemExit 128)))
  /\ (forall interrupt,
        snd (playback fuel forever frames new_size sep interrupt) = Running
        \/ (count_occ string_dec (fst (playback fuel forever frames new_size sep interrupt))
                      restored_terminal_exit = 1%nat
            /\ last (fst (playback fuel forever frames new_size sep interrupt)) EmptyString
               = restored_terminal_exit
            /\ (snd (playback fuel forever frames new_size sep interrupt) = Normal
                \/ snd (playback fuel forever frames new_size sep interrupt)
                   = Raise (SystemExit 128)))
        \/ (~ In restored_terminal_exit
                 (fst (playback fuel forever frames new_size sep interrupt))
            /\ snd (playback fuel forever frames new_size sep interrupt)
               = Raise (SystemExit 128)
            /\ interrupt
               = Some (2 * List.length
                             (fst (playback fuel forever frames new_size sep interrupt)))%nat)).
Proof.
  intros it. split; [|split; [|split; [|split]]].
  - repeat split; reflexivity.
  - intros n S F. unfold playback. fold it. cbv zeta.
    rewrite (play_loop_interrupted fuel new_size sep it n F
               (still_playing_yields forever frames (n / 2)%nat S)).
    cbn [with_RestoredTerminal fst snd exit_status].
    split; [reflexivity|]. split; [apply restore_once|]. split; reflexivity.
  - intros -> F. unfold playback. cbv zeta.
    rewrite (play_loop_completes fuel new_size sep frames F).
    cbn [with_RestoredTerminal RestoredTerminal_exit option_map fst snd exit_status].
    split; [reflexivity|]. split; [apply restore_once|]. split; reflexivity.
  - intros -> F. split; [|split].
    + unfold playback. cbv zeta.
      rewrite (play_loop_outlasts fuel new_size sep frames _ F (Nat.le_refl _)).
      cbn [fst option_map]. rewrite length_map, Nat.sub_diag.
      cbn [with_RestoredTerminal RestoredTerminal_exit]. now rewrite app_nil_r.
    + apply not_restore_in_frames.
    + unfold playback. cbv zeta.
      rewrite (play_loop_outlasts fuel new_size sep frames _ F) by lia.
      cbn [fst option_map]. rewrite length_map.
      replace (2 * List.length frames + 1 - 2 * List.length frames)%nat with 1%nat by lia.
      reflexivity.
  - intros interrupt. unfold playback. fold it. cbv zeta.
    destruct (play_loop_prefix fuel new_size sep it interrupt) as (k & Eo & Er).
    pose proof (play_loop_normal_count fuel new_size sep it) as Cn.
    destruct (play_loop fuel new_size sep it interrupt) as [out r] eqn:Ep.
    cbn [fst snd] in Eo, Er. subst out.
    destruct Er as [ -> | [ -> | -> ] ]; cbn [with_RestoredTerminal fst snd].
    + destruct interrupt as [n|]; cbn [option_map].
      * specialize (Cn n). rewrite Ep in Cn. cbn [fst snd] in Cn. specialize (Cn eq_refl).
        destruct (n - 2 * List.length (map (frame_text new_size sep) (iter_take k it)))%nat
          as [|[|d]] eqn:D; cbn [RestoredTerminal_exit fst snd].
        -- right. right. rewrite app_nil_r. split; [apply not_restore_in_frames|].
           split; [reflexivity|]. f_equal. lia.
        -- right. left. split; [apply restore_once|]. split; [apply last_last|now right].
        -- right. left. split; [apply restore_once|]. split; [apply last_last|now left].
      * cbn [RestoredTerminal_exit fst snd].
        right. left. split; [apply restore_once|]. split; [apply last_last|now left].
    + right. left. split; [apply restore_once|]. split; [apply last_last|now right].
    + now left.
Qed.

Lemma restoration_on_every_exit_path_witness :
  playback 3 true ["a"; "b"]%string (4, 16) None (Some 3%nat)
  = ([frame_text (4, 16) None "a"; frame_text (4, 16) None "b"; restored_terminal_exit],
     Raise (SystemExit 128))
  /\ playback 3 false ["a"; "b"]%string (4, 16) None None
     = ([frame_text (4, 16) None "a"; frame_text (4, 16) None "b"; restored_terminal_exit],
        Normal)
  /\ playback 3 false ["a"; "b"]%string (4, 16) None (Some 4%nat)
     = ([frame_text (4, 16) None "a"; frame_text (4, 16) None "b"], Raise (SystemExit 128))
  /\ bytes_of restored_terminal_exit
     = [27; 91; 51; 52; 104; 27; 91; 63; 50; 53; 104;
        27; 91; 48; 109; 27; 91; 48; 109; 10]%nat.
Proof.
  destruct (restoration_on_every_exit_path 3 true ["a"; "b"]%string (4, 16) None)
    as (_ & I & _).
  destruct (restoration_on_every_exit_path 3 false ["a"; "b"]%string (4, 16) None)
    as ((B & _) & _ & C & X & _).
  split; [|split; [|split]].
  - destruct (I 3%nat) as (Eo & _ & Er & _).
    + right. split; [reflexivity|discriminate].
    + cbn. lia.
    + rewrite (surjective_pairing (playback 3 true _ _ _ _)). rewrite Eo, Er. reflexivity.
  - destruct (C eq_refl) as (Eo & _ & Er & _).
    + cbn. lia.
    + rewrite (surjective_pairing (playback 3 false _ _ _ _)). rewrite Eo, Er. reflexivity.
  - destruct (X eq_refl) as (E & _).
    + cbn. lia.
    + exact E.
  - exact B.
Defined.

Lemma mapM_length {A B} (f : A -> option B) l r :
  mapM f l = Some r -> List.length r = List.length l.
Proof.
  revert r; induction l as [|a l IH]; intros r; cbn [mapM].
  - intros E; injection E as <-. reflexivity.
  - destruct (f a) as [b|]; cbn [bind]; [|discriminate].
    destruct (mapM f l) as [bs|]; cbn [bind]; [|discriminate].
    intros E; injection E as <-. cbn. now rewrite (IH bs).
Qed.

Lemma range_step_length b step :
  List.length (Py.range_step 0 b step) = ((b + (step - 1)) / step)%nat.
Proof. unfold Py.range_step. rewrite length_map, length_seq. f_equal. lia. Qed.

(** C8, as the specification states it, fails: a black frame of 4x16
    pixels has two text rows, and the text written for it starts with
    the cursor-up sequence of 16 rows, not of 2. *)
Lemma rewind_is_not_the_row_count :
  exists text lines,
    frame_to_ansi patterns sample_black = Some text
    /\ frame_lines patterns sample_black = Some lines
    /\ List.length lines = 2%nat
    /\ fst (playback 2 false [text] (4, 16) None None)
       = [frame_text (4, 16) None text; restored_terminal_exit]
    /\ frame_text (4, 16) None text = (rewind 16 ++ text ++ "None")%string
    /\ frame_text (4, 16) None text
       <> (rewind (Z.of_nat (List.length lines)) ++ text ++ "None")%string.
Proof.
  eexists. eexists.
  split; [vm_compute; reflexivity|].
  split; [vm_compute; reflexivity|].
  split; [reflexivity|].
  split; [vm_compute; reflexivity|].
  split; [vm_compute; reflexivity|].
  vm_compute. discriminate.
Qed.

(* ================================================================== *)
(** ** The quantizer and the renderer always return *)
(* ================================================================== *)

(** The colours of the cell are the two averages, exchanged when the
    match is an inverted one. *)
Lemma cell_colours keys img x y c :
  quantize keys img x y = Some c ->
  (cell_fg c, cell_bg c)
  = if cell_inverted c
    then (fst (averages (block_partition img x y)), snd (averages (block_partition img x y)))
    else (snd (averages (block_partition img x y)), fst (averages (block_partition img x y))).
Proof.
  unfold quantize. destruct (averages (block_partition img x y)) as [bg fg].
  destruct (match_glyph keys _) as [m|]; cbn [bind]; [|discriminate].
  destruct (fallback _ m) as [m'|]; cbn [bind]; [|discriminate].
  destruct (character m') as [g|]; cbn [bind]; [|discriminate].
  destruct (inverted m'); intros E; injection E as <-; reflexivity.
Qed.

Lemma make_char_total g f0 f1 f2 b0 b1 b2 :
  exists s, make_char g [f0; f1; f2] [b0; b1; b2] = Some s.
Proof.
  unfold make_char. cbn [nth_error bind].
  destruct ((f0 =? f1) && (f1 =? f2) && (f2 =? b0) && (b0 =? b1) && (b1 =? b2) && (b2 =? 0));
    eexists; reflexivity.
Qed.

Lemma handle_pixel_total keys img x y :
  Permutation keys patterns -> nonempty_block img x y -> valid_block img x y = true ->
  exists s, handle_pixel keys img x y = Some s.
Proof.
  intros Pm N V.
  pose proof (block_bits_bound img x y N V) as Hb.
  destruct (match_glyph_spec keys _ Pm Hb) as (m & P & g & E & _ & _ & _ & C & _).
  destruct (fallback_spec (fg_color (block_partition img x y)) m) as (r & _ & F).
  assert (G : exists g', character (if best_diff m >? 10
                                    then Matching (Some r) (best_diff m) false else m)
                         = Some g').
  { destruct (best_diff m >? 10); [now exists r|now exists g]. }
  destruct G as [g' G].
  unfold handle_pixel. rewrite (quantize_of_match keys img x y m _ g' E F G).
  cbn [bind cell_character cell_fg cell_bg].
  rewrite (averages_spec img x y N V (background_side_nonempty img x y N V)).
  cbn [fst snd]. unfold mean_color.
  destruct (foreground_side img x y), (inverted _); apply make_char_total.
Qed.

Lemma mapM_total {A B} (f : A -> option B) l :
  (forall a, In a l -> exists b, f a = Some b) -> exists r, mapM f l = Some r.
Proof.
  induction l as [|a l IH]; intros H; [now exists []|].
  destruct (H a) as [b Eb]; [now left|].
  destruct IH as [r Er]; [intros a' I; apply H; now right|].
  exists (b :: r). cbn [mapM]. rewrite Eb. cbn [bind]. rewrite Er. reflexivity.
Qed.

Lemma in_range_step b step v :
  (0 < step)%nat -> In v (Py.range_step 0 b step) -> (v < b)%nat.
Proof.
  intros S I. unfold Py.range_step in I. apply in_map_iff in I as (k & <- & I).
  apply in_seq in I.
  pose proof (Nat.div_mod_eq (b - 0 + (step - 1)) step) as D.
  pose proof (Nat.mod_upper_bound (b - 0 + (step - 1)) step ltac:(lia)) as M.
  nia.
Qed.

Lemma valid_frame_block img x y :
  valid_frame img -> valid_block img x y = true.
Proof.
  intros V. unfold valid_block. apply forallb_forall. intros p I.
  apply in_block_pixels in I as (i & j & [Hi Hj] & ->).
  unfold x_offset, y_offset in Hi, Hj. apply V; lia.
Qed.

(** [frame_to_ansi] returns a text for every frame of 8-bit samples. *)
Lemma frame_to_ansi_total keys img :
  Permutation keys patterns -> valid_frame img ->
  exists lines text,
    frame_lines keys img = Some lines /\ frame_to_ansi keys img = Some text.
Proof.
  intros Pm V.
  assert (L : exists lines, frame_lines keys img = Some lines).
  { unfold frame_lines. destruct (size img) as [w h] eqn:Sz.
    apply mapM_total. intros y Iy. apply in_range_step in Iy; [|lia].
    destruct (mapM_total (fun x => handle_pixel keys img x y) (Py.range_step 0 w 4))
      as [cells Ec].
    - intros x Ix. apply in_range_step in Ix; [|lia].
      apply handle_pixel_total; [exact Pm| |now apply valid_frame_block].
      unfold nonempty_block. rewrite Sz. cbn. lia.
    - rewrite Ec. cbn [bind]. eexists; reflexivity. }
  destruct L as [lines L]. exists lines. unfold frame_to_ansi. rewrite L.
  cbn [bind]. eexists. split; reflexivity.
Qed.

(* ================================================================== *)
(** ** Further properties of the aspect fitter *)
(* ================================================================== *)

(** X1: on positive arguments below [2^26] [calculate_borders] is given
    by integer arithmetic alone: the conversion of the two fractions to
    floats before rounding changes neither rounded value, the side that
    binds takes its bound and the other one is [(2n + d) / 2d] for the
    proportional value [n/d]; the two [min] of the last lines never
    change the rounded values. *)
Theorem calculate_borders_closed_form bw bh ow oh :
  0 < bw < 2 ^ 26 -> 0 < bh < 2 ^ 26 -> 0 < ow < 2 ^ 26 -> 0 < oh < 2 ^ 26 ->
  calculate_borders bw bh ow oh
  = if bw * oh <? ow * bh
    then Some (bw, (2 * (bw * oh) + ow) / (2 * ow))
    else Some ((2 * (bh * ow) + oh) / (2 * oh), bh).
Proof.
  intros Hbw Hbh How Hoh.
  pose proof (pow2_26_bound bw oh Hbw Hoh) as P1.
  pose proof (pow2_26_bound bh ow Hbh How) as P2.
  assert (T : 2 ^ 26 < 2 ^ 52) by reflexivity.
  apply calculate_borders_eq; lia.
Qed.

Lemma calculate_borders_closed_form_witness :
  calculate_borders 80 24 1920 1080 = Some (43, 24).
Proof.
  rewrite (calculate_borders_closed_form 80 24 1920 1080) by (split; reflexivity).
  reflexivity.
Defined.

(** X2: the fitted size depends on the aspect ratio of the source only:
    multiplying its width and height by the same positive factor leaves
    the result of [calculate_borders] unchanged (the fractions are kept
    in lowest terms, so the very same floats are rounded). *)
Theorem calculate_borders_scale_invariant k bw bh ow oh :
  0 < k -> 0 < bw -> 0 < bh -> 0 < ow -> 0 < oh ->
  calculate_borders bw bh (k * ow) (k * oh) = calculate_borders bw bh ow oh.
Proof.
  intros Hk Hbw Hbh How Hoh. unfold calculate_borders.
  assert (Nk : ~ (inject_Z k == 0)%Q) by (apply inject_Z_nonzero; lia).
  assert (Nw : ~ (inject_Z ow == 0)%Q) by (apply inject_Z_nonzero; lia).
  assert (Nh : ~ (inject_Z oh == 0)%Q) by (apply inject_Z_nonzero; lia).
  assert (E1 : Fraction (k * ow) (k * oh) = Fraction ow oh).
  { unfold Fraction. apply Qred_complete. rewrite !inject_Z_mult. field.
    split; assumption. }
  assert (E2 : Fraction (k * oh) (k * ow) = Fraction oh ow).
  { unfold Fraction. apply Qred_complete. rewrite !inject_Z_mult. field.
    split; assumption. }
  rewrite E1, E2. reflexivity.
Qed.

Lemma calculate_borders_scale_invariant_witness :
  calculate_borders 80 24 (10 * 16) (10 * 9) = calculate_borders 80 24 16 9.
Proof. apply calculate_borders_scale_invariant; lia. Defined.

(** X3: exchanging width and height in both the box and the source
    exchanges them in the result of [calculate_borders] (and an
    [OverflowError] stays one). *)
Theorem calculate_borders_transpose bw bh ow oh :
  0 < bw -> 0 < bh -> 0 < ow -> 0 < oh ->
  calculate_borders bh bw oh ow
  = option_map (fun s => (snd s, fst s)) (calculate_borders bw bh ow oh).
Proof.
  intros Hbw Hbh How Hoh. unfold calculate_borders.
  rewrite !Qgt_bool_Fraction by assumption.
  assert (Nw : ~ (inject_Z ow == 0)%Q) by (apply inject_Z_nonzero; lia).
  assert (Nh : ~ (inject_Z oh == 0)%Q) by (apply inject_Z_nonzero; lia).
  destruct (Z.ltb_spec (bh * ow) (oh * bw)) as [L1|G1];
    destruct (Z.ltb_spec (bw * oh) (ow * bh)) as [L2|G2]; try lia;
    cbv beta iota zeta.
  - (* the width binds in the transposed problem, the height here *)
    assert (EA : Qred (inject_Z bh / Fraction oh ow)
                 = Qred (inject_Z bh * Fraction ow oh)).
    { apply Qred_complete. rewrite !Fraction_eq. field. split; assumption. }
    rewrite EA.
    assert (EB : Qred (Qred (inject_Z bh * Fraction ow oh) * Fraction oh ow)
                 = Qred (Fraction oh ow * Qred (inject_Z bh * Fraction ow oh))).
    { apply Qred_complete. apply Qmult_comm. }
    rewrite EB.
    destruct (Py.round _), (Py.round _); reflexivity.
  - assert (EA : Qred (inject_Z bw * Fraction oh ow)
                 = Qred (inject_Z bw / Fraction ow oh)).
    { apply Qred_complete. rewrite !Fraction_eq. field. split; assumption. }
    rewrite EA.
    assert (EB : Qred (Fraction ow oh * Qred (inject_Z bw / Fraction ow oh))
                 = Qred (Qred (inject_Z bw / Fraction ow oh) * Fraction ow oh)).
    { apply Qred_complete. apply Qmult_comm. }
    rewrite EB.
    destruct (Py.round _), (Py.round _); reflexivity.
  - (* equal ratios: both sides take the second branch *)
    assert (EQ : (inject_Z bw * inject_Z oh == inject_Z bh * inject_Z ow)%Q).
    { rewrite <- !inject_Z_mult. replace (bw * oh) with (bh * ow) by lia. reflexivity. }
    assert (W : (inject_Z bw * Fraction oh ow == inject_Z bh)%Q).
    { rewrite Fraction_eq.
      transitivity (inject_Z bw * inject_Z oh / inject_Z ow)%Q; [field; assumption|].
      rewrite EQ. field. assumption. }
    assert (H : (inject_Z bh * Fraction ow oh == inject_Z bw)%Q).
    { rewrite Fraction_eq.
      transitivity (inject_Z bh * inject_Z ow / inject_Z oh)%Q; [field; assumption|].
      rewrite <- EQ. field. assumption. }
    assert (EA : Qred (inject_Z bw * Fraction oh ow)
                 = Qred (Fraction oh ow * Qred (inject_Z bh * Fraction ow oh))).
    { apply Qred_complete. rewrite Qred_correct, H. apply Qmult_comm. }
    assert (EB : Qred (Fraction ow oh * Qred (inject_Z bw * Fraction oh ow))
                 = Qred (inject_Z bh * Fraction ow oh)).
    { apply Qred_complete. rewrite Qred_correct, W. apply Qmult_comm. }
    rewrite EB, EA.
    destruct (Py.round _), (Py.round _); reflexivity.
Qed.

Lemma calculate_borders_transpose_witness :
  calculate_borders 24 80 200 320 = Some (24, 38).
Proof.
  rewrite (calculate_borders_transpose 80 24 320 200) by lia.
  vm_compute. reflexivity.
Defined.

(** X4: a source with the aspect ratio of the bounding box is fitted to
    exactly the bounding box, whatever its own size (small images are
    enlarged), as long as the two bounds are below [2^52] and so are
    floats. *)
Theorem calculate_borders_same_ratio bw bh ow oh :
  0 < bw < 2 ^ 52 -> 0 < bh < 2 ^ 52 -> 0 < ow -> 0 < oh ->
  ow * bh = oh * bw ->
  calculate_borders bw bh ow oh = Some (bw, bh).
Proof.
  intros Hbw Hbh How Hoh E. unfold calculate_borders.
  rewrite Qgt_bool_Fraction by lia.
  assert (Nw : ~ (inject_Z ow == 0)%Q) by (apply inject_Z_nonzero; lia).
  assert (Nh : ~ (inject_Z oh == 0)%Q) by (apply inject_Z_nonzero; lia).
  destruct (Z.ltb_spec (bw * oh) (ow * bh)) as [L|G]; [lia|]. cbv beta iota zeta.
  assert (EQ : (inject_Z bh * inject_Z ow == inject_Z bw * inject_Z oh)%Q).
  { rewrite <- !inject_Z_mult. replace (bh * ow) with (bw * oh) by lia. reflexivity. }
  assert (W : (inject_Z bh * Fraction ow oh == inject_Z bw / inject_Z 1)%Q).
  { rewrite Fraction_eq.
    transitivity (inject_Z bh * inject_Z ow / inject_Z oh)%Q; [field; assumption|].
    rewrite EQ. field. assumption. }
  rewrite (round_Fraction _ bw 1 ltac:(lia) ltac:(lia) W).
  rewrite (round_Fraction _ bh 1); [|lia|lia|].
  2:{ rewrite Qred_correct, W, Fraction_eq.
      transitivity (inject_Z bw * inject_Z oh / inject_Z ow)%Q; [field; assumption|].
      rewrite <- EQ. field. assumption. }
  cbn [bind].
  replace ((2 * bw + 1) / (2 * 1)) with bw by (apply Z.div_unique with (r := 1); lia).
  replace ((2 * bh + 1) / (2 * 1)) with bh by (apply Z.div_unique with (r := 1); lia).
  rewrite !Z.min_id. reflexivity.
Qed.

Lemma calculate_borders_same_ratio_witness :
  calculate_borders 80 24 10 3 = Some (80, 24).
Proof. apply calculate_borders_same_ratio; try lia; split; reflexivity. Defined.

(** X24: beyond [2^53] the conversion to a float shows.  A square box of
    side [2^53 + 1] is fitted to [2^53] for a square source, since
    [2^53 + 1] is not a double; for a side of [2^53 + 3] the float is
    [2^53 + 4] and the [min] brings the bound back; a height just below
    one half, [(2^60 - 1) / 2^61], is rounded up to 1 because its float
    is one half; and a side of [2^1024] raises the [OverflowError] of
    the conversion. *)
Example calculate_borders_beyond_double_precision :
  calculate_borders (2 ^ 53 + 1) (2 ^ 53 + 1) 1 1 = Some (2 ^ 53, 2 ^ 53)
  /\ calculate_borders (2 ^ 53 + 3) (2 ^ 53 + 3) 1 1 = Some (2 ^ 53 + 3, 2 ^ 53 + 3)
  /\ calculate_borders 1 1 (2 ^ 61) (2 ^ 60 - 1) = Some (1, 1)
  /\ calculate_borders (2 ^ 1024) (2 ^ 1024) 1 1 = None.
Proof. repeat split; vm_compute; reflexivity. Qed.

(* ================================================================== *)
(** ** Further properties of the quantizer *)
(* ================================================================== *)

(** The loop on a bitmap that is a pattern of the registry. *)
Lemma match_glyph_exact keys b :
  Permutation keys patterns -> In b patterns ->
  exists g, BITMAPS_get BITMAPS b = Some g
            /\ match_glyph keys b = Some (Matching (Some g) 0 false).
Proof.
  intros Pm Ib.
  assert (S : forall k, In k keys -> In k patterns)
    by (intros k I; now apply (Permutation_in _ Pm)).
  destruct (match_loop keys b (Matching None Py.maxint false) S) as (m & E & L & A & D).
  assert (Ik : In b keys) by now apply (Permutation_in _ (Permutation_sym Pm)).
  destruct (A b Ik) as [A1 _]. rewrite diff_bits_same in A1.
  destruct D as [->|(k & g & I & G & D)].
  - exfalso. cbn [best_diff] in A1. unfold Py.maxint in A1. lia.
  - destruct D as [ -> | -> ]; cbn [best_diff] in A1.
    + pose proof (diff_bits_nonneg k b) as P.
      assert (Z0 : diff_bits k b = 0) by lia.
      pose proof (diff_bits_zero k b Z0) as ->.
      rewrite Z0 in E. exists g. split; [exact G|exact E].
    + exfalso. pose proof (diff_bits_nonneg (invert32 k) b) as P.
      assert (Z0 : diff_bits (invert32 k) b = 0) by lia.
      pose proof (diff_bits_zero _ _ Z0) as Q.
      apply (no_complementary_patterns b k); [exact Ib|now apply S|now symmetry].
Qed.

Lemma range_empty a b : (b <= a)%nat -> Py.range a b = [].
Proof. intros H. unfold Py.range. replace (b - a)%nat with 0%nat by lia. reflexivity. Qed.

Lemma flat_map_nil {A B} (l : list A) : flat_map (fun _ : A => @nil B) l = [].
Proof. induction l as [|a l IH]; [reflexivity|exact IH]. Qed.

Lemma empty_block_pixels img x y :
  (fst (size img) <= x \/ snd (size img) <= y)%nat ->
  block_pixels img x y = [] /\ block_pixels_by_column img x y = [].
Proof.
  intros H. unfold block_pixels, block_pixels_by_column.
  destruct H as [H|H].
  - rewrite (range_empty x (x_offset img x)) by (unfold x_offset; lia).
    split; [apply flat_map_nil|reflexivity].
  - rewrite (range_empty y (y_offset img y)) by (unfold y_offset; lia).
    split; [reflexivity|apply flat_map_nil].
Qed.

(** X5: called on a block outside the frame (no pixel at all),
    [handle_pixel] fails: the foreground average is set to black, the
    background average stays the empty list, the blank glyph matches at
    distance 0, and [make_char] then indexes the empty list. *)
Theorem handle_pixel_empty_block keys img x y :
  Permutation keys patterns ->
  (fst (size img) <= x \/ snd (size img) <= y)%nat ->
  quantize keys img x y = Some (Cell 0 [] [] 0 false 0x20 [0; 0; 0] [])
  /\ handle_pixel keys img x y = None.
Proof.
  intros Pm H. destruct (empty_block_pixels img x y H) as [Er Ec].
  assert (S : scan_minmax img x y = ((0, 0, 0), (255, 255, 255)))
    by (rewrite scan_minmax_fold, Ec; reflexivity).
  assert (P : block_partition img x y = Partition 0 [] []).
  { unfold block_partition. rewrite split_pixels_fold, Er. reflexivity. }
  destruct (match_glyph_exact keys 0 Pm) as (g & G & M); [now left|].
  cbn in G. injection G as <-.
  assert (Q : quantize keys img x y = Some (Cell 0 [] [] 0 false 0x20 [0; 0; 0] [])).
  { unfold quantize. rewrite P. cbn [bits fg_color bg_color averages average zip_star map].
    rewrite M. reflexivity. }
  split; [exact Q|]. unfold handle_pixel. rewrite Q. reflexivity.
Qed.

Lemma handle_pixel_empty_block_witness :
  handle_pixel patterns sample_half 4 0 = None.
Proof.
  apply (handle_pixel_empty_block patterns sample_half 4 0).
  - apply Permutation_refl.
  - left. cbn. lia.
Defined.

Lemma channel_sum_bounds (c : nat) l :
  (forall p, In p l -> 0 <= chan c p <= 255) ->
  0 <= fold_right Z.add 0 (map (chan c) l) <= 255 * Z.of_nat (List.length l).
Proof.
  induction l as [|p l IH]; intros B; [cbn; lia|].
  cbn [map fold_right List.length]. rewrite Nat2Z.inj_succ.
  pose proof (B p ltac:(now left)). specialize (IH ltac:(intros q I; apply B; now right)).
  lia.
Qed.

Lemma channel_mean_bounds (c : nat) l :
  l <> [] -> (forall p, In p l -> 0 <= chan c p <= 255) ->
  0 <= channel_mean c l <= 255.
Proof.
  intros N B. pose proof (channel_sum_bounds c l B) as S. unfold channel_mean.
  assert (0 < Z.of_nat (List.length l)) by (destruct l; [congruence|cbn; lia]).
  split; [apply Z.div_pos; lia|].
  apply Z.div_le_upper_bound; lia.
Qed.

Lemma mean_color_bounds l :
  l <> [] -> (forall p, In p l -> pixel_ok p = true) ->
  Forall (fun v => 0 <= v <= 255) (mean_color l).
Proof.
  intros N V. unfold mean_color.
  repeat constructor; apply channel_mean_bounds; trivial;
    intros p I; apply pixel_ok_chan; now apply V.
Qed.

(** The two averages of a block inside a frame of 8-bit samples. *)
Lemma averages_bounds img x y :
  nonempty_block img x y -> valid_block img x y = true ->
  (List.length (fst (averages (block_partition img x y))) = 3%nat
   /\ Forall (fun v => 0 <= v <= 255) (fst (averages (block_partition img x y))))
  /\ (List.length (snd (averages (block_partition img x y))) = 3%nat
      /\ Forall (fun v => 0 <= v <= 255) (snd (averages (block_partition img x y)))).
Proof.
  intros N V.
  pose proof (background_side_nonempty img x y N V) as Nb.
  rewrite (averages_spec img x y N V Nb). cbn [fst snd].
  assert (Vp : forall p, In p (block_pixels img x y) -> pixel_ok p = true).
  { unfold valid_block in V. now rewrite forallb_forall in V. }
  split.
  - split; [reflexivity|]. apply mean_color_bounds; [exact Nb|].
    intros p I. apply Vp. unfold background_side in I. now apply filter_In in I.
  - destruct (foreground_side img x y) as [|q l] eqn:F.
    + split; [reflexivity|]. repeat constructor; lia.
    + split; [reflexivity|]. apply mean_color_bounds; [discriminate|].
      intros p I. apply Vp. rewrite <- F in I. unfold foreground_side in I.
      now apply filter_In in I.
Qed.

(** X6: on a block inside a frame of 8-bit samples both colours of the
    cell have three components, each between 0 and 255, so the escape
    sequences carry valid 8-bit colour values without any clamping. *)
Theorem cell_colours_are_8bit keys img x y c :
  nonempty_block img x y -> valid_block img x y = true ->
  quantize keys img x y = Some c ->
  (List.length (cell_fg c) = 3%nat /\ Forall (fun v => 0 <= v <= 255) (cell_fg c))
  /\ (List.length (cell_bg c) = 3%nat /\ Forall (fun v => 0 <= v <= 255) (cell_bg c)).
Proof.
  intros N V Q. pose proof (cell_colours keys img x y c Q) as E.
  destruct (averages_bounds img x y N V) as [B F].
  destruct (cell_inverted c); injection E as -> ->; auto.
Qed.

Lemma cell_colours_are_8bit_witness :
  exists c, quantize patterns sample_checker 0 0 = Some c
            /\ Forall (fun v => 0 <= v <= 255) (cell_fg c)
            /\ Forall (fun v => 0 <= v <= 255) (cell_bg c).
Proof.
  assert (Q : exists c, quantize patterns sample_checker 0 0 = Some c)
    by (eexists; vm_compute; reflexivity).
  destruct Q as [c Q]. exists c. split; [exact Q|].
  destruct (cell_colours_are_8bit patterns sample_checker 0 0 c) as [[_ F] [_ B]].
  - split; cbn; lia.
  - reflexivity.
  - exact Q.
  - split; assumption.
Defined.

Lemma popcount_shift_bit acc (b : bool) :
  0 <= acc -> popcount (Z.lor (Z.shiftl acc 1) (Z.b2z b)) = popcount acc + Z.b2z b.
Proof.
  intros H. destruct acc as [|p|p]; [| |lia]; destruct b.
  - reflexivity.
  - reflexivity.
  - change (popcount (Z.lor (Z.shiftl (Z.pos p) 1) (Z.b2z true)))
      with (1 + popcount_pos p).
    change (popcount (Z.pos p)) with (popcount_pos p). change (Z.b2z true) with 1. lia.
  - change (popcount (Z.lor (Z.shiftl (Z.pos p) 1) (Z.b2z false)))
      with (popcount_pos p).
    change (popcount (Z.pos p)) with (popcount_pos p). change (Z.b2z false) with 0. lia.
Qed.

Lemma popcount_coverage c t l acc :
  0 <= acc ->
  popcount (coverage c t l acc)
  = popcount acc + Z.of_nat (List.length (filter (above c t) l)).
Proof.
  revert acc; induction l as [|p l IH]; intros acc H.
  - cbn. lia.
  - rewrite coverage_cons. rewrite IH.
    + rewrite popcount_shift_bit by exact H. cbn [filter].
      destruct (above c t p); cbn [Z.b2z List.length]; lia.
    + apply Z.lor_nonneg; split; [now apply Z.shiftl_nonneg|].
      destruct (above c t p); cbn; lia.
Qed.

Lemma filter_split_length {A} (f : A -> bool) l :
  (List.length (filter f l) + List.length (filter (fun a => negb (f a)) l)
   = List.length l)%nat.
Proof.
  induction l as [|a l IH]; [reflexivity|]. cbn [filter].
  destruct (f a); cbn [negb List.length]; lia.
Qed.

(** X7: on a block inside a frame of 8-bit samples every pixel goes to
    exactly one of the two lists, and the coverage bitmap has as many 1
    bits as there are foreground pixels: [bin(bits).count('1')] is
    [len(fg_color)], and [len(fg_color) + len(bg_color)] is the number
    of pixels of the block, at most 32. *)
Theorem bits_count_foreground img x y :
  nonempty_block img x y -> valid_block img x y = true ->
  let p := block_partition img x y in
  Py.count "1" (Py.bin (bits p)) = Py.len (fg_color p)
  /\ Py.len (fg_color p) + Py.len (bg_color p)
     = Z.of_nat ((y_offset img y - y) * (x_offset img x - x))
  /\ Py.len (fg_color p) + Py.len (bg_color p) <= 32.
Proof.
  intros N V p. destruct (block_partition_spec img x y N V) as (Eb & Ef & Eg).
  fold p in Eb, Ef, Eg.
  assert (S : Py.len (fg_color p) + Py.len (bg_color p)
              = Z.of_nat (List.length (block_pixels img x y))).
  { unfold Py.len. rewrite Ef, Eg, !length_map.
    rewrite <- (filter_split_length
                  (above (split_channel img x y)
                         (threshold img x y (split_channel img x y)))
                  (block_pixels img x y)). lia. }
  split.
  - rewrite count_bin, Eb, popcount_coverage by lia.
    unfold Py.len. rewrite Ef, length_map. cbn. lia.
  - rewrite S. split; [now rewrite block_pixels_length|].
    pose proof (block_pixels_at_most_32 img x y). lia.
Qed.

Lemma bits_count_foreground_witness :
  Py.count "1" (Py.bin (bits (block_partition sample_half 0 0))) = 16
  /\ Py.len (fg_color (block_partition sample_half 0 0)) = 16.
Proof.
  destruct (bits_count_foreground sample_half 0 0) as (E & _).
  - split; cbn; lia.
  - reflexivity.
  - split; [|vm_compute; reflexivity]. rewrite E. vm_compute. reflexivity.
Defined.

Lemma testbit_invert32 P i :
  0 <= i < 32 -> Z.testbit (invert32 P) i = negb (Z.testbit P i).
Proof.
  intros H. unfold invert32. change 0xffffffff with (Z.ones 32).
  rewrite Z.land_spec, Z.lnot_spec by lia.
  rewrite Z.ones_spec_low by lia. apply andb_true_r.
Qed.

Lemma filter_complement_length {A} (f g : A -> bool) l :
  (forall a, In a l -> g a = negb (f a)) ->
  (List.length (filter f l) + List.length (filter g l) = List.length l)%nat.
Proof.
  induction l as [|a l IH]; intros H; [reflexivity|]. cbn [filter].
  rewrite (H a) by now left.
  specialize (IH ltac:(intros b I; apply H; now right)).
  destruct (f a); cbn [negb List.length]; lia.
Qed.

Lemma hamming_complement P b : hamming P b + hamming (invert32 P) b = 32.
Proof.
  unfold hamming. rewrite <- Nat2Z.inj_add.
  rewrite (filter_complement_length
             (fun i => xorb (Z.testbit P i) (Z.testbit b i))
             (fun i => xorb (Z.testbit (invert32 P) i) (Z.testbit b i))).
  - rewrite length_map, length_seq. reflexivity.
  - intros i I. apply in_map_iff in I as (k & <- & I). apply in_seq in I.
    rewrite testbit_invert32 by lia.
    destruct (Z.testbit P (Z.of_nat k)), (Z.testbit b (Z.of_nat k)); reflexivity.
Qed.

Lemma direct_and_inverted_distance_sum_helper P b :
  0 <= P < 2 ^ 32 -> 0 <= b < 2 ^ 32 ->
  diff_bits P b + diff_bits (invert32 P) b = 32.
Proof.
  intros HP Hb.
  rewrite (diff_bits_hamming P b HP Hb).
  rewrite (diff_bits_hamming (invert32 P) b (invert32_bound P) Hb).
  apply hamming_complement.
Qed.

(** X8: for a 32-bit pattern and a 32-bit coverage bitmap the two
    distances the matching loop computes, to the pattern and to its
    inverse, add up to 32. *)
Theorem direct_and_inverted_distance_sum P b :
  0 <= P < 2 ^ 32 -> 0 <= b < 2 ^ 32 ->
  diff_bits P b + diff_bits (invert32 P) b = 32.
Proof.
  exact (direct_and_inverted_distance_sum_helper P b).
Qed.

Lemma direct_and_inverted_distance_sum_witness :
  diff_bits 0xcccccccc 0x0000ffff + diff_bits (invert32 0xcccccccc) 0x0000ffff = 32.
Proof. apply direct_and_inverted_distance_sum; lia. Defined.

Lemma block_bits_popcount img x y :
  nonempty_block img x y -> valid_block img x y = true ->
  diff_bits 0 (bits (block_partition img x y))
  = Py.len (fg_color (block_partition img x y)).
Proof.
  intros N V. destruct (block_partition_spec img x y N V) as (Eb & Ef & _).
  unfold diff_bits. rewrite Z.lxor_0_l, count_bin, Eb, popcount_coverage by lia.
  unfold Py.len. rewrite Ef, length_map. cbn. lia.
Qed.

(** What [quantize] returns on a block inside a frame of 8-bit samples,
    in terms of the state the matching loop ends in. *)
Lemma quantize_inv keys img x y c :
  Permutation keys patterns -> nonempty_block img x y -> valid_block img x y = true ->
  quantize keys img x y = Some c ->
  exists m r,
    match_glyph keys (bits (block_partition img x y)) = Some m
    /\ is_min (best_diff m) (all_distances (bits (block_partition img x y)))
    /\ nth_error RAMP
         (Z.to_nat (Z.min 4 (Py.len (fg_color (block_partition img x y)) * 5 / 32)))
       = Some r
    /\ cell_best_diff c = best_diff m
    /\ (10 < best_diff m -> cell_character c = r /\ cell_inverted c = false)
    /\ (best_diff m <= 10 ->
        character m = Some (cell_character c) /\ cell_inverted c = inverted m).
Proof.
  intros Pm N V Q.
  pose proof (block_bits_bound img x y N V) as Hb.
  destruct (match_glyph_spec keys _ Pm Hb) as (m & P & g & E & M & _ & _ & C & _).
  destruct (fallback_spec (fg_color (block_partition img x y)) m) as (r & R & F).
  exists m, r. split; [exact E|]. split; [exact M|]. split; [exact R|].
  destruct (Z.gtb_spec (best_diff m) 10) as [Hi|Lo].
  - rewrite (quantize_of_match keys img x y m _ r E F eq_refl) in Q.
    injection Q as <-. cbn [cell_best_diff cell_character cell_inverted best_diff inverted].
    split; [reflexivity|]. split; [auto|lia].
  - rewrite (quantize_of_match keys img x y m _ g E F C) in Q.
    injection Q as <-. cbn [cell_best_diff cell_character cell_inverted].
    split; [reflexivity|]. split; [lia|auto].
Qed.

(** X9: on a block inside a frame of 8-bit samples the best distance
    never exceeds 16, nor the number of foreground pixels, nor 32 minus
    that number (the blank pattern is in the registry).  So the fallback
    is only taken for 11 to 21 foreground pixels and only picks the
    light, medium or dark shade: the blank and the solid character of the
    ramp are never used. *)
Theorem fallback_uses_shades_only keys img x y c :
  Permutation keys patterns -> nonempty_block img x y -> valid_block img x y = true ->
  quantize keys img x y = Some c ->
  cell_best_diff c <= 16
  /\ cell_best_diff c <= Py.len (cell_fg_color c)
  /\ cell_best_diff c <= 32 - Py.len (cell_fg_color c)
  /\ (10 < cell_best_diff c ->
      11 <= Py.len (cell_fg_color c) <= 21
      /\ In (cell_character c) [0x2591; 0x2592; 0x2593]).
Proof.
  intros Pm N V Q.
  destruct (quantize_inv keys img x y c Pm N V Q) as (m & r & E & [_ M] & R & B & Hi & _).
  assert (Fg : cell_fg_color c = fg_color (block_partition img x y)).
  { unfold quantize in Q. destruct (averages _) as [bg fg].
    destruct (match_glyph keys _) as [m0|]; cbn [bind] in Q; [|discriminate].
    destruct (fallback _ m0) as [m1|]; cbn [bind] in Q; [|discriminate].
    destruct (character m1) as [g|]; cbn [bind] in Q; [|discriminate].
    destruct (inverted m1); injection Q as <-; reflexivity. }
  rewrite Fg, B. set (n := Py.len (fg_color (block_partition img x y))) in *.
  pose proof (block_bits_bound img x y N V) as Hb.
  assert (I0 : In 0 patterns) by now left.
  assert (D0 : hamming 0 (bits (block_partition img x y)) = n).
  { rewrite <- (diff_bits_hamming 0 _ ltac:(lia) Hb). now apply block_bits_popcount. }
  pose proof (hamming_complement 0 (bits (block_partition img x y))) as S.
  assert (L1 : best_diff m <= n).
  { rewrite <- D0. apply M. apply in_all_distances. exists 0. auto. }
  assert (L2 : best_diff m <= 32 - n).
  { replace (32 - n) with (hamming (invert32 0) (bits (block_partition img x y))) by lia.
    apply M. apply in_all_distances. exists 0. auto. }
  split; [lia|]. split; [exact L1|]. split; [exact L2|].
  intros H. split; [lia|]. destruct (Hi H) as [-> _].
  assert (Lo : 1 <= n * 5 / 32) by (apply Z.div_le_lower_bound; lia).
  assert (Up : n * 5 / 32 < 4) by (apply Z.div_lt_upper_bound; lia).
  rewrite Z.min_r in R by lia.
  assert (K : n * 5 / 32 = 1 \/ n * 5 / 32 = 2 \/ n * 5 / 32 = 3) by lia.
  destruct K as [K|[K|K]]; rewrite K in R; cbn in R; injection R as <-; cbn; auto.
Qed.

Lemma fallback_uses_shades_only_witness :
  exists c, quantize patterns sample_checker 0 0 = Some c
            /\ cell_best_diff c <= 16
            /\ In (cell_character c) [0x2591; 0x2592; 0x2593].
Proof.
  assert (Q : exists c, quantize patterns sample_checker 0 0 = Some c
                        /\ 10 < cell_best_diff c)
    by (eexists; split; vm_compute; reflexivity).
  destruct Q as (c & Q & H). exists c. split; [exact Q|].
  destruct (fallback_uses_shades_only patterns sample_checker 0 0 c) as (L & _ & _ & S).
  - apply Permutation_refl.
  - split; cbn; lia.
  - reflexivity.
  - exact Q.
  - split; [exact L|]. now apply S.
Defined.

Lemma match_bitmap_step_strict b m k g :
  BITMAPS_get BITMAPS k = Some g ->
  exists m',
    match_bitmap b (Some m) k = Some m'
    /\ (m' = m
        \/ m' = Matching (Some g) (diff_bits k b) false
        \/ (m' = Matching (Some g) (diff_bits (invert32 k) b) true
            /\ diff_bits (invert32 k) b < diff_bits k b)).
Proof.
  intros G. unfold match_bitmap. cbn [bind]. rewrite G. cbn [bind].
  destruct (Z.ltb_spec (diff_bits k b) (best_diff m)) as [L1|L1]; cbn [bind best_diff].
  - destruct (Z.ltb_spec (diff_bits (invert32 k) b) (diff_bits k b)) as [L2|L2];
      eexists; (split; [reflexivity|auto]).
  - destruct (Z.ltb_spec (diff_bits (invert32 k) b) (best_diff m)) as [L2|L2];
      eexists; (split; [reflexivity|]); [right; right; split; [reflexivity|lia]|auto].
Qed.

Lemma match_loop_strict keys b m0 :
  (forall k, In k keys -> In k patterns) ->
  inverted_is_strict b m0 ->
  exists m, fold_left (match_bitmap b) keys (Some m0) = Some m
            /\ inverted_is_strict b m.
Proof.
  revert m0; induction keys as [|k keys IH]; intros m0 S I0.
  - now exists m0.
  - destruct (BITMAPS_get_in BITMAPS k) as [g G]; [apply S; now left|].
    destruct (match_bitmap_step_strict b m0 k g G) as (m1 & E1 & D).
    cbn [fold_left]. rewrite E1. apply IH; [intros k' I; apply S; now right|].
    destruct D as [ -> | [ -> | [ -> L ] ] ]; [exact I0| |].
    + intros H. discriminate H.
    + intros _. exists k, g. split; [apply S; now left|]. auto.
Qed.

(** X10: the matching loop prefers the direct orientation on ties: when
    it ends with the inversion flag set, the glyph is the one of a
    pattern whose inverse is strictly closer to the coverage bitmap than
    the pattern itself, so the distance is at most 15. *)
Theorem inversion_only_when_strictly_closer keys b m :
  Permutation keys patterns -> 0 <= b < 2 ^ 32 ->
  match_glyph keys b = Some m -> inverted m = true ->
  exists P g,
    In P patterns /\ BITMAPS_get BITMAPS P = Some g /\ character m = Some g
    /\ best_diff m = diff_bits (invert32 P) b
    /\ diff_bits (invert32 P) b < diff_bits P b
    /\ best_diff m <= 15.
Proof.
  intros Pm Hb E I.
  assert (S : forall k, In k keys -> In k patterns)
    by (intros k J; now apply (Permutation_in _ Pm)).
  destruct (match_loop_strict keys b (Matching None Py.maxint false) S) as (m' & E' & St).
  { intros H. discriminate H. }
  unfold match_glyph in E. rewrite E' in E. injection E as ->.
  destruct (St I) as (k & g & Ik & G & -> & L).
  exists k, g. cbn [character best_diff].
  pose proof (direct_and_inverted_distance_sum_helper k b) as Sum.
  split; [exact Ik|]. split; [exact G|]. split; [reflexivity|]. split; [reflexivity|].
  split; [exact L|].
  specialize (Sum (patterns_bound k Ik) Hb). lia.
Qed.

Lemma inversion_only_when_strictly_closer_witness :
  exists m P g,
    match_glyph patterns 0x33333333 = Some m
    /\ inverted m = true
    /\ In P patterns /\ BITMAPS_get BITMAPS P = Some g /\ character m = Some g
    /\ best_diff m <= 15.
Proof.
  assert (Q : exists m, match_glyph patterns 0x33333333 = Some m /\ inverted m = true)
    by (eexists; split; vm_compute; reflexivity).
  destruct Q as (m & Q & I).
  destruct (inversion_only_when_strictly_closer patterns 0x33333333 m)
    as (P & g & IP & G & C & _ & _ & L).
  - apply Permutation_refl.
  - lia.
  - exact Q.
  - exact I.
  - exists m, P, g. auto 10.
Defined.

Lemma fold_left_ext_in {S A} (f g : S -> A -> S) l s :
  (forall st a, In a l -> f st a = g st a) -> fold_left f l s = fold_left g l s.
Proof.
  revert s; induction l as [|a l IH]; intros s E; cbn [fold_left]; [reflexivity|].
  rewrite E by now left. apply IH. intros st b I. apply E. now right.
Qed.

Lemma minmax_pixel_rgb st p p' :
  rgb_of p = rgb_of p' -> minmax_pixel st p = minmax_pixel st p'.
Proof.
  destruct p as [[[r g] b] a], p' as [[[r' g'] b'] a']. cbn [rgb_of].
  intros E. injection E as -> -> ->. reflexivity.
Qed.

Lemma classify_rgb c t st p p' :
  (c < 3)%nat -> rgb_of p = rgb_of p' -> classify c t st p = classify c t st p'.
Proof.
  destruct p as [[[r g] b] a], p' as [[[r' g'] b'] a']. cbn [rgb_of].
  intros Hc E. injection E as -> -> ->.
  destruct c as [|[|[|c]]]; try lia; reflexivity.
Qed.

Lemma select_split_lt mx mn : (fst (select_split mx mn) < 3)%nat.
Proof.
  destruct mx as [[a b] d], mn as [[e f] g]. unfold select_split, Py.range. cbn.
  destruct (a - e >? 0); cbn.
  - destruct (b - f >? a - e); cbn.
    + destruct (d - g >? b - f); cbn; lia.
    + destruct (d - g >? a - e); cbn; lia.
  - destruct (b - f >? 0); cbn.
    + destruct (d - g >? b - f); cbn; lia.
    + destruct (d - g >? 0); cbn; lia.
Qed.

(** X11: [handle_pixel] reads nothing but the red, green and blue
    samples of the pixels of its block: two frames of the same size that
    agree on them (whatever their alpha samples and their other pixels)
    give the same cell. *)
Theorem handle_pixel_reads_block_rgb_only keys img img' x y :
  size img = size img' ->
  (forall i j, in_block img x y i j ->
               rgb_of (getpixel img i j) = rgb_of (getpixel img' i j)) ->
  quantize keys img x y = quantize keys img' x y
  /\ handle_pixel keys img x y = handle_pixel keys img' x y.
Proof.
  intros Sz H.
  assert (Ox : x_offset img' x = x_offset img x) by (unfold x_offset; now rewrite Sz).
  assert (Oy : y_offset img' y = y_offset img y) by (unfold y_offset; now rewrite Sz).
  assert (Sc : scan_minmax img x y = scan_minmax img' x y).
  { unfold scan_minmax. rewrite Ox, Oy. apply fold_left_ext_in. intros st i Hi.
    apply fold_left_ext_in. intros st' j Hj. apply minmax_pixel_rgb. apply H.
    split; now apply in_range. }
  assert (C : split_channel img x y = split_channel img' x y)
    by (unfold split_channel, max_rgb, min_rgb; now rewrite Sc).
  assert (T : split_val img x y = split_val img' x y)
    by (unfold split_val, best_split, min_rgb, max_rgb; now rewrite <- C, Sc).
  assert (P : block_partition img x y = block_partition img' x y).
  { unfold block_partition. rewrite <- C, <- T. unfold split_pixels. rewrite Ox, Oy.
    apply fold_left_ext_in. intros st j Hj.
    apply fold_left_ext_in. intros st' i Hi. apply classify_rgb.
    - apply select_split_lt.
    - apply H. split; now apply in_range. }
  assert (Q : quantize keys img x y = quantize keys img' x y)
    by (unfold quantize; now rewrite P).
  split; [exact Q|]. unfold handle_pixel. now rewrite Q.
Qed.

Lemma handle_pixel_reads_block_rgb_only_witness :
  handle_pixel patterns sample_half 0 0
  = handle_pixel patterns
      (Image (4, 8)%nat
             (fun i j => if (i <? 2)%nat then (255, 255, 255, Z.of_nat j)
                         else (0, 0, 0, 0)))
      0 0.
Proof.
  apply handle_pixel_reads_block_rgb_only.
  - reflexivity.
  - intros i j _. unfold sample_half. cbn [getpixel]. destruct (i <? 2)%nat; reflexivity.
Defined.

Lemma esc_38_head f0 f1 f2 :
  exists rest, esc [38; 2; f0; f1; f2] = String "027" (String "[" (String "3" rest)).
Proof. unfold esc, Py.ESC. cbn [map Py.join append]. eexists. reflexivity. Qed.

Lemma append_assoc_string (a b c : string) : ((a ++ b) ++ c = a ++ b ++ c)%string.
Proof. induction a as [|x a IH]; [reflexivity|]. cbn [append]. now rewrite IH. Qed.

(** The colour sequence [esc(k, 2, r, g, b)]. *)
Lemma esc_colour k r g b :
  esc [k; 2; r; g; b]
  = (Py.ESC ++ "[" ++ Py.str k ++ ";2;" ++ Py.str r ++ ";" ++ Py.str g ++ ";" ++ Py.str b
     ++ "sm")%string.
Proof.
  unfold esc. cbn [map Py.join]. rewrite !append_assoc_string. reflexivity.
Qed.

(** X12: [make_char] returns the plain reset and a space exactly when
    the first three components of both colours are all 0; the glyph
    plays no part in that case.  In every other case its text is the
    foreground colour sequence [ESC[38;2;r;g;bsm] of the first colour,
    the background colour sequence [ESC[48;2;r;g;bsm] of the second one
    and the UTF-8 bytes of the glyph. *)
Theorem make_char_shortcut_iff_black g f0 f1 f2 fr b0 b1 b2 br :
  (make_char g (f0 :: f1 :: f2 :: fr) (b0 :: b1 :: b2 :: br)
     = Some (Py.ESC ++ "[0m ")%string
   <-> (f0 = 0 /\ f1 = 0 /\ f2 = 0 /\ b0 = 0 /\ b1 = 0 /\ b2 = 0))
  /\ (~ (f0 = 0 /\ f1 = 0 /\ f2 = 0 /\ b0 = 0 /\ b1 = 0 /\ b2 = 0) ->
      make_char g (f0 :: f1 :: f2 :: fr) (b0 :: b1 :: b2 :: br)
      = Some ((Py.ESC ++ "[38;2;" ++ Py.str f0 ++ ";" ++ Py.str f1 ++ ";" ++ Py.str f2
               ++ "sm")
              ++ (Py.ESC ++ "[48;2;" ++ Py.str b0 ++ ";" ++ Py.str b1 ++ ";" ++ Py.str b2
                  ++ "sm")
              ++ Py.encode_utf8 g)%string).
Proof.
  unfold make_char. cbn [nth_error bind].
  destruct ((f0 =? f1) && (f1 =? f2) && (f2 =? b0) && (b0 =? b1) && (b1 =? b2) && (b2 =? 0))
    eqn:E.
  - assert (Z0 : f0 = 0 /\ f1 = 0 /\ f2 = 0 /\ b0 = 0 /\ b1 = 0 /\ b2 = 0).
    { rewrite !andb_true_iff, !Z.eqb_eq in E. lia. }
    split; [split; [intros _; exact Z0|reflexivity]|]. intros N. now destruct N.
  - split.
    + split.
      * intros H. exfalso.
        destruct (esc_38_head f0 f1 f2) as [rest R]. rewrite R in H.
        unfold Py.ESC in H. cbn [append] in H. discriminate H.
      * intros (-> & -> & -> & -> & -> & ->). cbn in E. discriminate E.
    + intros _. rewrite !esc_colour. reflexivity.
Qed.

Lemma make_char_shortcut_iff_black_witness :
  make_char 0x20 [10; 20; 30] [0; 0; 0]
  = Some ((Py.ESC ++ "[38;2;10;20;30sm") ++ (Py.ESC ++ "[48;2;0;0;0sm") ++ " ")%string.
Proof.
  destruct (make_char_shortcut_iff_black 0x20 10 20 30 [] 0 0 0 []) as [_ H].
  rewrite H by lia. reflexivity.
Defined.

(** X13: [make_char] fails (an [IndexError]) whenever one of the two
    colours has fewer than three components. *)
Theorem make_char_short_colour_fails g fg bg :
  (List.length fg < 3 \/ List.length bg < 3)%nat -> make_char g fg bg = None.
Proof.
  intros H. unfold make_char.
  destruct fg as [|f0 [|f1 [|f2 fr]]]; cbn [nth_error bind]; try reflexivity.
  destruct bg as [|b0 [|b1 [|b2 br]]]; cbn [nth_error bind]; try reflexivity.
  cbn in H. lia.
Qed.

Lemma make_char_short_colour_fails_witness :
  make_char 0x20 [0; 0; 0] [] = None.
Proof. apply make_char_short_colour_fails. right. cbn. lia. Defined.

(* ================================================================== *)
(** ** Further properties of the renderer *)
(* ================================================================== *)

(** X14: on a block inside a frame of 8-bit samples [handle_pixel]
    returns a text, and [frame_to_ansi] returns a text for every frame
    of 8-bit samples, of any width and height: no index, key or name
    error can occur. *)
Theorem frame_to_ansi_never_raises keys img :
  Permutation keys patterns -> valid_frame img ->
  (forall x y, nonempty_block img x y -> exists s, handle_pixel keys img x y = Some s)
  /\ exists text, frame_to_ansi keys img = Some text.
Proof.
  intros Pm V. split.
  - intros x y N. apply handle_pixel_total; [exact Pm|exact N|now apply valid_frame_block].
  - destruct (frame_to_ansi_total keys img Pm V) as (lines & text & _ & E).
    now exists text.
Qed.

Lemma sample_checker_valid : valid_frame sample_checker.
Proof.
  intros i j _ _. unfold sample_checker. cbn [getpixel].
  destruct (Nat.even (i + j)); reflexivity.
Qed.

Lemma frame_to_ansi_never_raises_witness :
  exists text, frame_to_ansi patterns sample_checker = Some text.
Proof.
  destruct (frame_to_ansi_never_raises patterns sample_checker) as [_ E].
  - apply Permutation_refl.
  - exact sample_checker_valid.
  - exact E.
Defined.

Lemma string_forall_app P a b :
  string_forall P (a ++ b) = string_forall P a && string_forall P b.
Proof.
  induction a as [|c a IH]; [reflexivity|]. cbn [append string_forall].
  rewrite IH. apply andb_assoc.
Qed.

Lemma string_forall_join P sep l :
  string_forall P sep = true -> (forall s, In s l -> string_forall P s = true) ->
  string_forall P (Py.join sep l) = true.
Proof.
  intros Hs. induction l as [|s l IH]; intros H; [reflexivity|].
  destruct l as [|t l]; [apply H; now left|].
  change (Py.join sep (s :: t :: l)) with (s ++ sep ++ Py.join sep (t :: l))%string.
  rewrite !string_forall_app, Hs, (H s) by now left.
  rewrite IH by (intros u I; apply H; now right). reflexivity.
Qed.

Lemma uint_digits d : string_forall cell_byte (NilEmpty.string_of_uint d) = true.
Proof. induction d; cbn [NilEmpty.string_of_uint string_forall]; try rewrite IHd; reflexivity. Qed.

Lemma str_digits n : 0 <= n -> string_forall cell_byte (Py.str n) = true.
Proof.
  intros H. unfold Py.str. destruct n as [|p|p]; [reflexivity| |lia].
  unfold Z.to_int, NilZero.string_of_int, NilZero.string_of_uint.
  destruct (Pos.to_uint p); try reflexivity;
    cbn [NilEmpty.string_of_uint string_forall]; rewrite uint_digits; reflexivity.
Qed.

Lemma esc_alphabet args :
  (forall a, In a args -> 0 <= a) -> string_forall cell_byte (esc args) = true.
Proof.
  intros H. unfold esc. rewrite !string_forall_app.
  rewrite string_forall_join; [reflexivity|reflexivity|].
  intros s I. apply in_map_iff in I as (a & <- & I). apply str_digits. now apply H.
Qed.

Lemma glyph_alphabet g : In g glyphs -> string_forall cell_byte (Py.encode_utf8 g) = true.
Proof.
  intros I.
  assert (F : forallb (fun g => string_forall cell_byte (Py.encode_utf8 g)) glyphs = true)
    by (vm_compute; reflexivity).
  rewrite forallb_forall in F. now apply F.
Qed.

Lemma make_char_alphabet g f0 f1 f2 b0 b1 b2 s :
  In g glyphs ->
  0 <= f0 -> 0 <= f1 -> 0 <= f2 -> 0 <= b0 -> 0 <= b1 -> 0 <= b2 ->
  make_char g [f0; f1; f2] [b0; b1; b2] = Some s ->
  string_forall cell_byte s = true.
Proof.
  intros G F0 F1 F2 B0 B1 B2.
  assert (H : string_forall cell_byte
                (esc [38; 2; f0; f1; f2] ++ esc [48; 2; b0; b1; b2] ++ Py.encode_utf8 g)
              = true).
  { rewrite !string_forall_app, !esc_alphabet, glyph_alphabet; trivial;
      intros a I; cbn in I; intuition lia. }
  unfold make_char. cbn [nth_error bind].
  destruct ((f0 =? f1) && (f1 =? f2) && (f2 =? b0) && (b0 =? b1) && (b1 =? b2) && (b2 =? 0));
    intros E.
  - replace s with (Py.ESC ++ "[0m ")%string by congruence. reflexivity.
  - replace s
      with (esc [38; 2; f0; f1; f2] ++ esc [48; 2; b0; b1; b2] ++ Py.encode_utf8 g)%string
      by congruence.
    exact H.
Qed.

Lemma BITMAPS_get_value d P g : BITMAPS_get d P = Some g -> In g (map snd d).
Proof.
  induction d as [|[k v] d IH]; cbn; [discriminate|].
  destruct (k =? P); [intros E; injection E as <-; now left|intros E; right; now apply IH].
Qed.

(** The glyph of a cell is one of the registry or of the ramp. *)
Lemma quantize_glyph keys img x y c :
  Permutation keys patterns -> nonempty_block img x y -> valid_block img x y = true ->
  quantize keys img x y = Some c -> In (cell_character c) glyphs.
Proof.
  intros Pm N V Q.
  pose proof (block_bits_bound img x y N V) as Hb.
  destruct (match_glyph_spec keys _ Pm Hb) as (m & P & g & E & _ & _ & G & C & _).
  destruct (fallback_spec (fg_color (block_partition img x y)) m) as (r & R & F).
  unfold glyphs. apply in_or_app.
  destruct (best_diff m >? 10).
  - rewrite (quantize_of_match keys img x y m _ r E F eq_refl) in Q.
    injection Q as <-. right. cbn [cell_character]. eapply nth_error_In. exact R.
  - rewrite (quantize_of_match keys img x y m _ g E F C) in Q.
    injection Q as <-. left. cbn [cell_character]. eapply BITMAPS_get_value. exact G.
Qed.

(** The bytes of a rendered cell. *)
Lemma handle_pixel_alphabet keys img x y s :
  Permutation keys patterns -> nonempty_block img x y -> valid_block img x y = true ->
  handle_pixel keys img x y = Some s -> string_forall cell_byte s = true.
Proof.
  intros Pm N V. unfold handle_pixel.
  destruct (quantize keys img x y) as [c|] eqn:Q; cbn [bind]; [|discriminate].
  pose proof (quantize_glyph keys img x y c Pm N V Q) as G.
  pose proof (cell_colours keys img x y c Q) as E.
  destruct (averages_bounds img x y N V) as [[Lb Fb] [Lf Ff]].
  assert (K : forall l, List.length l = 3%nat -> Forall (fun v => 0 <= v <= 255) l ->
              exists a b d, l = [a; b; d] /\ 0 <= a /\ 0 <= b /\ 0 <= d).
  { intros l L F. destruct l as [|a [|b [|d [|e l]]]]; try discriminate.
    inversion F as [|? ? Ha F1]; subst. inversion F1 as [|? ? Hb' F2]; subst.
    inversion F2 as [|? ? Hd F3]; subst. exists a, b, d. repeat split; lia. }
  destruct (K _ Lb Fb) as (a1 & a2 & a3 & Eb & ? & ? & ?).
  destruct (K _ Lf Ff) as (c1 & c2 & c3 & Ef & ? & ? & ?).
  rewrite Eb, Ef in E.
  destruct (cell_inverted c); injection E as -> ->; intros M;
    eapply make_char_alphabet; try exact M; trivial.
Qed.

Lemma mapM_in {A B} (f : A -> option B) l r b :
  mapM f l = Some r -> In b r -> exists a, In a l /\ f a = Some b.
Proof.
  revert r; induction l as [|a l IH]; intros r; cbn [mapM].
  - intros E; injection E as <-. intros [].
  - destruct (f a) as [b'|] eqn:Fa; cbn [bind]; [|discriminate].
    destruct (mapM f l) as [bs|]; cbn [bind]; [|discriminate].
    intros E; injection E as <-. intros [<-|I].
    + exists a. split; [now left|exact Fa].
    + destruct (IH bs eq_refl I) as (a' & Ia & Ea). exists a'. split; [now right|exact Ea].
Qed.

(** The text rows of a frame of 8-bit samples are made of cell bytes. *)
Lemma frame_lines_alphabet keys img lines line :
  Permutation keys patterns -> valid_frame img ->
  frame_lines keys img = Some lines -> In line lines ->
  string_forall cell_byte line = true.
Proof.
  intros Pm V E I. unfold frame_lines in E. destruct (size img) as [w h] eqn:Sz.
  destruct (mapM_in _ _ _ _ E I) as (y & Iy & Ey).
  apply in_range_step in Iy; [|lia].
  destruct (mapM (fun x => handle_pixel keys img x y) (Py.range_step 0 w 4))
    as [cells|] eqn:Ec; cbn [bind] in Ey; [|discriminate].
  injection Ey as <-. apply string_forall_join; [reflexivity|].
  intros s Is. destruct (mapM_in _ _ _ _ Ec Is) as (x & Ix & Ex).
  apply in_range_step in Ix; [|lia].
  apply (handle_pixel_alphabet keys img x y s Pm); [|now apply valid_frame_block|exact Ex].
  unfold nonempty_block. rewrite Sz. cbn. lia.
Qed.

Lemma count_app a s t : Py.count a (s ++ t) = Py.count a s + Py.count a t.
Proof.
  induction s as [|c s IH]; [reflexivity|]. cbn [append Py.count]. rewrite IH. lia.
Qed.

Lemma count_absent P a s :
  string_forall P s = true -> P a = false -> Py.count a s = 0.
Proof.
  intros F N. induction s as [|c s IH]; [reflexivity|].
  cbn [string_forall] in F. apply andb_true_iff in F as [Fc Fs].
  cbn [Py.count]. rewrite (IH Fs).
  destruct (Ascii.eqb_spec c a) as [->|_]; [congruence|reflexivity].
Qed.

Lemma count_join_LF lines :
  (forall l, In l lines -> Py.count "010" l = 0) ->
  Py.count "010" (Py.join Py.LF lines) = Z.of_nat (List.length lines - 1).
Proof.
  induction lines as [|l lines IH]; intros H; [reflexivity|].
  destruct lines as [|l' lines]; [cbn; apply H; now left|].
  change (Py.join Py.LF (l :: l' :: lines))
    with (l ++ Py.LF ++ Py.join Py.LF (l' :: lines))%string.
  rewrite !count_app, (H l) by now left.
  rewrite IH by (intros u I; apply H; now right).
  change (Py.count "010" Py.LF) with 1. cbn [List.length]. lia.
Qed.

Lemma frame_to_ansi_text keys img lines :
  frame_lines keys img = Some lines ->
  frame_to_ansi keys img = Some (Py.ESC ++ "[0m" ++ Py.join Py.LF lines)%string.
Proof. intros E. unfold frame_to_ansi. rewrite E. reflexivity. Qed.

(** X15: the text of a frame of 8-bit samples of pixel height [h]
    contains exactly ceil(h/8) - 1 newline characters (none for a height
    of at most 8): its rows are joined by newlines and no cell contains
    one. *)
Theorem frame_newline_count keys img :
  Permutation keys patterns -> valid_frame img ->
  exists text,
    frame_to_ansi keys img = Some text
    /\ Py.count "010" text = Z.of_nat ((snd (size img) + 7) / 8 - 1).
Proof.
  intros Pm V. destruct (frame_to_ansi_total keys img Pm V) as (lines & text & L & _).
  eexists. split; [apply frame_to_ansi_text; exact L|].
  rewrite !count_app. change (Py.count "010" Py.ESC) with 0.
  change (Py.count "010" "[0m") with 0.
  rewrite count_join_LF.
  - assert (Len : List.length lines = ((snd (size img) + 7) / 8)%nat).
    { unfold frame_lines in L. destruct (size img) as [w h]. apply mapM_length in L.
      rewrite L, range_step_length. reflexivity. }
    rewrite Len. lia.
  - intros l I. apply (count_absent cell_byte); [|reflexivity].
    now apply (frame_lines_alphabet keys img lines l Pm V L).
Qed.

Lemma sample_black_valid : valid_frame sample_black.
Proof. intros i j _ _. reflexivity. Qed.

Lemma frame_newline_count_witness :
  exists text, frame_to_ansi patterns sample_black = Some text
               /\ Py.count "010" text = 1.
Proof.
  destruct (frame_newline_count patterns sample_black) as (text & E & C).
  - apply Permutation_refl.
  - exact sample_black_valid.
  - exists text. split; [exact E|exact C].
Defined.

(** X16: every byte of the text of a frame of 8-bit samples is a
    newline, the escape character, one of [[], [;], [s], [m], a space, a
    decimal digit, or a byte of a multi-byte UTF-8 character; so a
    rendered frame contains no dollar sign, back quote, backslash or
    capital letter. *)
Theorem frame_text_alphabet keys img :
  Permutation keys patterns -> valid_frame img ->
  exists text,
    frame_to_ansi keys img = Some text
    /\ string_forall (fun a => cell_byte a || Ascii.eqb a "010") text = true
    /\ Py.count "$" text = 0 /\ Py.count "`" text = 0
    /\ Py.count "\" text = 0 /\ Py.count "F" text = 0.
Proof.
  intros Pm V. destruct (frame_to_ansi_total keys img Pm V) as (lines & text & L & _).
  assert (W : forall P s, string_forall cell_byte s = true ->
              string_forall (fun a => cell_byte a || P a) s = true).
  { intros P s. induction s as [|c s IH]; [reflexivity|]. cbn [string_forall].
    intros H. apply andb_true_iff in H as [Hc Hs]. now rewrite Hc, IH. }
  assert (A : string_forall (fun a => cell_byte a || Ascii.eqb a "010")
                (Py.ESC ++ "[0m" ++ Py.join Py.LF lines) = true).
  { rewrite !string_forall_app. rewrite string_forall_join; [reflexivity|reflexivity|].
    intros l I. apply W. now apply (frame_lines_alphabet keys img lines l Pm V L). }
  eexists. split; [apply frame_to_ansi_text; exact L|]. split; [exact A|].
  repeat split; apply (count_absent _ _ _ A); reflexivity.
Qed.

Lemma frame_text_alphabet_witness :
  exists text, frame_to_ansi patterns sample_checker = Some text
               /\ Py.count "F" text = 0.
Proof.
  destruct (frame_text_alphabet patterns sample_checker) as (text & E & _ & _ & _ & _ & C).
  - apply Permutation_refl.
  - exact sample_checker_valid.
  - exists text. split; [exact E|exact C].
Defined.

(** X17: a frame of height 0 is rendered as the style reset alone, and
    a frame of width 0 as the style reset followed by one newline
    between each two of its empty text rows; [handle_pixel] is not
    called. *)
Theorem frame_to_ansi_degenerate keys img :
  (snd (size img) = 0%nat -> frame_to_ansi keys img = Some (Py.ESC ++ "[0m")%string)
  /\ (fst (size img) = 0%nat ->
      frame_lines keys img
      = Some (repeat EmptyString ((snd (size img) + 7) / 8))).
Proof.
  split.
  - intros H. unfold frame_to_ansi, frame_lines. destruct (size img) as [w h].
    cbn [snd] in H. subst h. reflexivity.
  - intros H. unfold frame_lines. destruct (size img) as [w h]. cbn [fst snd] in *.
    subst w.
    assert (R : forall l : list nat,
              mapM (fun y : nat =>
                      cells <- mapM (fun x => handle_pixel keys img x y)
                                    (Py.range_step 0 0 4) ;;
                      Some (Py.join "" cells)) l
              = Some (repeat EmptyString (List.length l))).
    { induction l as [|k l IH]; [reflexivity|].
      cbn [mapM]. rewrite IH. reflexivity. }
    rewrite R, range_step_length. reflexivity.
Qed.

Lemma frame_to_ansi_degenerate_witness :
  frame_to_ansi patterns (Image (80, 0)%nat (fun _ _ => (0, 0, 0, 255)))
  = Some (Py.ESC ++ "[0m")%string.
Proof.
  apply (frame_to_ansi_degenerate patterns (Image (80, 0)%nat (fun _ _ => (0, 0, 0, 255)))).
  reflexivity.
Defined.

(* ================================================================== *)
(** ** The rewind of the playback *)
(* ================================================================== *)

(** Every text the playback writes is the restoration text or the text
    of one of the frames. *)
Lemma playback_texts fuel (forever : bool) frames new_size sep interrupt t :
  In t (fst (playback fuel forever frames new_size sep interrupt)) ->
  t = restored_terminal_exit
  \/ exists f, In f frames /\ t = frame_text new_size sep f.
Proof.
  intros I. unfold playback in I. cbv zeta in I.
  destruct (play_loop_prefix fuel new_size sep
              (if forever then CycleIter frames frames else ListIter frames) interrupt)
    as (k & Eo & _).
  destruct (play_loop fuel new_size sep _ interrupt) as [out r].
  cbn [fst snd] in Eo, I. subst out.
  assert (J : In t (map (frame_text new_size sep)
                        (iter_take k (if forever then CycleIter frames frames
                                      else ListIter frames)))
              \/ t = restored_terminal_exit).
  { destruct r as [|[|status]|]; cbn [with_RestoredTerminal fst] in I.
    - destruct (RestoredTerminal_exit _) as [out' r'] eqn:X.
      assert (O : out' = [] \/ out' = [restored_terminal_exit]).
      { unfold RestoredTerminal_exit in X.
        destruct (option_map _ interrupt) as [[|[|n]]|]; injection X as <- <-; auto. }
      assert (I' : In t (map (frame_text new_size sep)
                          (iter_take k (if forever then CycleIter frames frames
                                        else ListIter frames)) ++ out')%list).
      { destruct r' as [|[|status]|]; exact I. }
      apply in_app_or in I' as [I'|I']; [now left|].
      destruct O as [ -> | -> ]; [contradiction|].
      destruct I' as [I'|I']; [now right|contradiction].
    - apply in_app_or in I as [I|I]; [now left|].
      destruct I as [I|I]; [now right|contradiction].
    - apply in_app_or in I as [I|I]; [now left|].
      destruct I as [I|I]; [now right|contradiction].
    - now left. }
  destruct J as [J|J]; [|now left]. right.
  apply in_map_iff in J as (f & <- & J). exists f.
  split; [now apply (iter_take_in forever frames k f)|reflexivity].
Qed.

(** C8, amended: let the frames be the texts of [frame_to_ansi] for
    images that all have the size [new_size], as [resize] leaves them.
    Every text the playback writes before the restoration is, for one of
    these images, the carriage return and the cursor-up sequence of
    [new_size[1]] rows, the pixel height [h] of the image, followed by
    the style reset, the text rows of the image joined by newlines, and
    the separator.  The image has one text row per started block of 8
    pixel rows, [(h + 7) / 8] of them, so the rewind is the row count
    only for a height of at most 1. *)
Theorem rewind_is_pixel_height
    keys fuel (forever : bool) imgs frames new_size sep interrupt :
  mapM (frame_to_ansi keys) imgs = Some frames ->
  (forall img, In img imgs ->
     (Z.of_nat (fst (size img)), Z.of_nat (snd (size img))) = new_size) ->
  forall t, In t (fst (playback fuel forever frames new_size sep interrupt)) ->
    t = restored_terminal_exit
    \/ exists img lines,
         In img imgs
         /\ frame_lines keys img = Some lines
         /\ t = (rewind (Z.of_nat (snd (size img)))
                 ++ (Py.ESC ++ "[0m" ++ Py.join Py.LF lines)
                 ++ format_sep sep)%string
         /\ List.length lines = ((snd (size img) + 7) / 8)%nat
         /\ (List.length lines = snd (size img) <-> (snd (size img) <= 1)%nat).
Proof.
  intros M Sz t I.
  destruct (playback_texts fuel forever frames new_size sep interrupt t I)
    as [R|(f & If & ->)]; [now left|]. right.
  destruct (mapM_in (frame_to_ansi keys) imgs frames f M If) as (img & Ii & E).
  destruct (frame_lines keys img) as [lines|] eqn:L.
  2:{ unfold frame_to_ansi in E. rewrite L in E. discriminate E. }
  rewrite (frame_to_ansi_text keys img lines L) in E.
  assert (Ef : f = (Py.ESC ++ "[0m" ++ Py.join Py.LF lines)%string) by congruence.
  clear E. subst f.
  assert (Len : List.length lines = ((snd (size img) + 7) / 8)%nat).
  { unfold frame_lines in L. destruct (size img) as [w h]. apply mapM_length in L.
    cbn [snd]. rewrite L. rewrite range_step_length. reflexivity. }
  exists img, lines. split; [exact Ii|]. split; [exact L|]. split.
  - unfold frame_text. rewrite <- (Sz img Ii). reflexivity.
  - split; [exact Len|]. rewrite Len.
    set (h := snd (size img)). split.
    + intros E. destruct (Nat.le_gt_cases h 1) as [G|G]; [exact G|]. exfalso.
      pose proof (Nat.div_mod_eq (h + 7) 8). pose proof (Nat.mod_upper_bound (h + 7) 8).
      lia.
    + intros G. destruct h as [|[|h]]; [reflexivity|reflexivity|lia].
Qed.

Lemma rewind_is_pixel_height_witness :
  exists text lines,
    frame_to_ansi patterns sample_black = Some text
    /\ frame_lines patterns sample_black = Some lines
    /\ In (frame_text (4, 16) None text)
          (fst (playback 2 false [text] (4, 16) None None))
    /\ frame_text (4, 16) None text
       = (rewind 16 ++ (Py.ESC ++ "[0m" ++ Py.join Py.LF lines) ++ "None")%string
    /\ List.length lines = 2%nat.
Proof.
  destruct (frame_to_ansi_total patterns sample_black (Permutation_refl _)
              sample_black_valid) as (lines & text & L & E).
  exists text, lines.
  assert (I : In (frame_text (4, 16) None text)
                 (fst (playback 2 false [text] (4, 16) None None))) by (left; reflexivity).
  assert (M : mapM (frame_to_ansi patterns) [sample_black] = Some [text]).
  { cbn [mapM]. rewrite E. reflexivity. }
  assert (Sz : forall img, In img [sample_black] ->
               (Z.of_nat (fst (size img)), Z.of_nat (snd (size img))) = (4, 16)).
  { intros img [<-|[]]. reflexivity. }
  destruct (rewind_is_pixel_height patterns 2 false [sample_black] [text] (4, 16) None None
              M Sz _ I) as [R|(img & lines' & Ii & L' & T & Len & _)].
  - exfalso. exact (frame_text_not_restore (4, 16) None text R).
  - destruct Ii as [<-|[]]. rewrite L in L'. injection L' as <-.
    split; [exact E|]. split; [exact L|]. split; [exact I|]. split; [exact T|exact Len].
Defined.

(* ================================================================== *)
(** ** Further properties of the player *)
(* ================================================================== *)

Lemma play_loop_cycle_running fuel new_size sep r saved :
  saved <> [] ->
  play_loop fuel new_size sep (CycleIter r saved) None
  = (map (frame_text new_size sep) (iter_take fuel (CycleIter r saved)), Running).
Proof.
  intros N. revert r; induction fuel as [|fuel IH]; intros r; [reflexivity|].
  destruct (next_cycle r saved N) as (f & r' & E).
  cbn [play_loop iter_take]. rewrite E. cbn [option_map]. rewrite IH. reflexivity.
Qed.

Lemma skipn_cons_nth {A} j (l : list A) f r :
  skipn j l = f :: r -> nth_error l j = Some f /\ skipn (S j) l = r /\ (j < List.length l)%nat.
Proof.
  revert l; induction j as [|j IH]; intros l E.
  - cbn in E. subst l. cbn. repeat split. lia.
  - destruct l as [|a l]; [discriminate|]. cbn [skipn] in E.
    destruct (IH l E) as (H1 & H2 & H3). cbn [nth_error List.length].
    repeat split; [exact H1|exact H2|lia].
Qed.

Lemma iter_take_cycle_nth k saved j i :
  saved <> [] -> (j <= List.length saved)%nat -> (i < k)%nat ->
  nth_error (iter_take k (CycleIter (skipn j saved) saved)) i
  = nth_error saved ((j + i) mod List.length saved).
Proof.
  intros N. revert j i; induction k as [|k IH]; intros j i Hj Hi; [lia|].
  assert (P : (0 < List.length saved)%nat) by (destruct saved; [congruence|cbn; lia]).
  destruct (skipn j saved) as [|f r] eqn:E.
  - assert (J : j = List.length saved).
    { pose proof (length_skipn j saved) as L. rewrite E in L. cbn in L. lia. }
    destruct saved as [|f r] eqn:Sv; [congruence|]. rewrite <- Sv in *.
    assert (R : r = skipn 1 saved) by (rewrite Sv; reflexivity).
    cbn [iter_take next]. rewrite Sv at 1. cbn [next].
    rewrite <- Sv. destruct i as [|i].
    + cbn [nth_error]. rewrite J, Nat.add_0_r, Nat.Div0.mod_same. now rewrite Sv.
    + cbn [nth_error]. rewrite R. rewrite IH by lia.
      f_equal. rewrite J.
      replace (List.length saved + S i)%nat with (1 + i + 1 * List.length saved)%nat by lia.
      now rewrite Nat.Div0.mod_add.
  - destruct (skipn_cons_nth j saved f r E) as (H1 & H2 & H3).
    cbn [iter_take next]. destruct i as [|i].
    + cbn [nth_error]. rewrite Nat.add_0_r, Nat.mod_small by lia. now symmetry.
    + cbn [nth_error]. rewrite <- H2. rewrite IH by lia. f_equal. f_equal. lia.
Qed.

(** X18: with [forever] and at least one frame the playback never ends
    without a Ctrl-C, never writes the restoration text, and shows the
    frames in order again and again: the text written at position [i] is
    the one of frame [i mod len(frames)]. *)
Theorem forever_cycles_frames fuel frames new_size sep :
  frames <> [] ->
  snd (playback fuel true frames new_size sep None) = Running
  /\ List.length (fst (playback fuel true frames new_size sep None)) = fuel
  /\ ~ In restored_terminal_exit (fst (playback fuel true frames new_size sep None))
  /\ forall i, (i < fuel)%nat ->
       nth_error (fst (playback fuel true frames new_size sep None)) i
       = option_map (frame_text new_size sep) (cyclic_nth frames i).
Proof.
  intros N. unfold playback. cbv zeta.
  rewrite (play_loop_cycle_running fuel new_size sep _ _ N).
  cbn [with_RestoredTerminal fst snd].
  split; [reflexivity|]. split.
  - rewrite length_map. now apply iter_take_cycle_length.
  - split.
    + intros I. apply in_map_iff in I as (f & E & _).
      now apply (frame_text_not_restore new_size sep f).
    + intros i Hi. rewrite nth_error_map. unfold cyclic_nth. f_equal.
      apply (iter_take_cycle_nth fuel frames 0 i N); lia.
Qed.

Lemma forever_cycles_frames_witness :
  nth_error (fst (playback 5 true ["a"; "b"]%string (4, 16) None None)) 4
  = Some (frame_text (4, 16) None "a").
Proof.
  destruct (forever_cycles_frames 5 ["a"; "b"]%string (4, 16) None) as (_ & _ & _ & C).
  - discriminate.
  - rewrite C by lia. reflexivity.
Defined.

Lemma enumerate_nth {A} (l : list A) s k :
  nth_error (combine (seq s (List.length l)) l) k
  = option_map (pair (s + k)%nat) (nth_error l k).
Proof.
  revert s k; induction l as [|a l IH]; intros s k.
  - destruct k; reflexivity.
  - cbn [List.length seq combine]. destruct k as [|k]; cbn [nth_error option_map].
    + now rewrite Nat.add_0_r.
    + rewrite IH. destruct (nth_error l k); cbn [option_map]; [|reflexivity].
      do 2 f_equal. lia.
Qed.

(** X19: the script branch prints [len(frames) + 2] texts: the
    interpreter line first, then for the frame of index [k] a
    here-document delimited by [FILEk] on both sides that holds exactly
    the text the interactive branch writes for that frame, followed by
    its [sleep], and the clear statement last. *)
Theorem script_structure frames new_size sep delay :
  List.length (script frames new_size sep delay) = (List.length frames + 2)%nat
  /\ nth_error (script frames new_size sep delay) 0
     = Some ("#!/usr/bin/env bash" ++ Py.LF)%string
  /\ (forall k f, nth_error frames k = Some f ->
        nth_error (script frames new_size sep delay) (S k)
        = Some ("cat <<FILE" ++ Py.str (Z.of_nat k) ++ Py.LF
                ++ frame_text new_size sep f ++ Py.LF
                ++ "FILE" ++ Py.str (Z.of_nat k) ++ Py.LF
                ++ "sleep " ++ delay ++ Py.LF)%string)
  /\ nth_error (script frames new_size sep delay) (S (List.length frames))
     = Some ("printf " ++ Py.ESC ++ "[H" ++ Py.ESC ++ "[J" ++ Py.LF)%string.
Proof.
  assert (Le : List.length (enumerate frames) = List.length frames).
  { unfold enumerate. rewrite length_combine, length_seq. lia. }
  unfold script. split; [|split; [reflexivity|split]].
  - cbn [List.length]. rewrite length_app, length_map, Le. cbn. lia.
  - intros k f H. cbn [nth_error].
    rewrite nth_error_app1 by (rewrite length_map, Le; apply nth_error_Some; congruence).
    rewrite nth_error_map. unfold enumerate. rewrite enumerate_nth, H. reflexivity.
  - cbn [nth_error].
    rewrite nth_error_app2 by (rewrite length_map, Le; lia).
    rewrite length_map, Le, Nat.sub_diag. reflexivity.
Qed.

Lemma script_structure_witness :
  nth_error (script ["a"; "b"]%string (4, 16) None "0.2") 2
  = Some ("cat <<FILE1" ++ Py.LF ++ frame_text (4, 16) None "b" ++ Py.LF
          ++ "FILE1" ++ Py.LF ++ "sleep 0.2" ++ Py.LF)%string.
Proof.
  destruct (script_structure ["a"; "b"]%string (4, 16) None "0.2") as (_ & _ & B & _).
  rewrite (B 1%nat "b"%string eq_refl). reflexivity.
Defined.

Lemma string_forall_weaken (P Q : ascii -> bool) s :
  (forall a, P a = true -> Q a = true) ->
  string_forall P s = true -> string_forall Q s = true.
Proof.
  intros W. induction s as [|c s IH]; [reflexivity|]. cbn [string_forall].
  intros H. apply andb_true_iff in H as [Hc Hs]. now rewrite (W c Hc), IH.
Qed.

Lemma cell_byte_heredoc_safe a :
  cell_byte a || Ascii.eqb a "010" = true -> heredoc_safe a = true.
Proof.
  destruct a as [[|] [|] [|] [|] [|] [|] [|] [|]]; vm_compute; intros H;
    first [reflexivity|discriminate H].
Qed.

(** X20: the body of a here-document of the script, for a frame
    rendered from 8-bit samples, a non-negative height and a separator
    free of them, contains no dollar sign, back quote, backslash or
    letter [F]: the shell expands nothing in it and no line of it can be
    the closing [FILEk]. *)
Theorem script_body_is_verbatim keys img text new_size sep :
  Permutation keys patterns -> valid_frame img ->
  frame_to_ansi keys img = Some text ->
  0 <= snd new_size ->
  string_forall heredoc_safe (format_sep sep) = true ->
  string_forall heredoc_safe (frame_text new_size sep text) = true.
Proof.
  intros Pm V E H S.
  destruct (frame_to_ansi_total keys img Pm V) as (lines & text' & L & _).
  rewrite (frame_to_ansi_text keys img lines L) in E.
  assert (T : text = (Py.ESC ++ "[0m" ++ Py.join Py.LF lines)%string) by congruence.
  assert (A1 : string_forall heredoc_safe (Py.join Py.LF lines) = true).
  { apply (string_forall_weaken (fun a => cell_byte a || Ascii.eqb a "010"));
      [exact cell_byte_heredoc_safe|].
    apply string_forall_join; [reflexivity|]. intros l I.
    apply (string_forall_weaken cell_byte); [intros a Ha; now rewrite Ha|].
    now apply (frame_lines_alphabet keys img lines l Pm V L). }
  assert (A2 : string_forall heredoc_safe (Py.str (snd new_size)) = true).
  { apply (string_forall_weaken cell_byte); [|now apply str_digits].
    intros a Ha. apply cell_byte_heredoc_safe. now rewrite Ha. }
  rewrite T. unfold frame_text, rewind.
  rewrite !string_forall_app, A1, A2, S. reflexivity.
Qed.

Lemma script_body_is_verbatim_witness :
  exists text,
    frame_to_ansi patterns sample_checker = Some text
    /\ string_forall heredoc_safe (frame_text (4, 8) None text) = true.
Proof.
  destruct (frame_to_ansi_total patterns sample_checker (Permutation_refl _)
              sample_checker_valid) as (lines & text & _ & E).
  exists text. split; [exact E|].
  apply (script_body_is_verbatim patterns sample_checker text (4, 8) None).
  - apply Permutation_refl.
  - exact sample_checker_valid.
  - exact E.
  - cbn. lia.
  - reflexivity.
Defined.

(** X23: with no frame at all the playback writes the restoration text
    and nothing else and ends normally with status 0, also with
    [forever]: the cycle of an empty list stops at once. *)
Theorem empty_animation fuel (forever : bool) new_size sep :
  playback (S fuel) forever [] new_size sep None = ([restored_terminal_exit], Normal)
  /\ exit_status (snd (playback (S fuel) forever [] new_size sep None)) = Some 0.
Proof. destruct forever; split; reflexivity. Qed.

(* ================================================================== *)
(** ** [clamp] and [is_url] *)
(* ================================================================== *)

(** X21: with [small <= large], [clamp] returns a value between the two
    bounds, which is [val] itself when [val] already lies between them;
    with the bounds the wrong way round it returns [large] whatever
    [val] is. *)
Theorem clamp_range val small large :
  (small <= large ->
     small <= clamp val small large <= large
     /\ (small <= val <= large -> clamp val small large = val)
     /\ clamp (clamp val small large) small large = clamp val small large)
  /\ (large < small -> clamp val small large = large).
Proof. unfold clamp. split; intros H; [repeat split|]; lia. Qed.

Lemma clamp_range_witness :
  clamp 300 0 255 = 255 /\ clamp (-7) 0 255 = 0 /\ clamp 300 255 0 = 0.
Proof.
  destruct (clamp_range 300 0 255) as [A _].
  destruct (clamp_range (-7) 0 255) as [B _].
  destruct (clamp_range 300 255 0) as [_ C].
  destruct (A ltac:(lia)) as (A1 & _). destruct (B ltac:(lia)) as (B1 & _).
  split; [|split; [|apply C; lia]]; vm_compute; reflexivity.
Defined.

Lemma prefix_iff p s : prefix p s = true <-> exists r, s = (p ++ r)%string.
Proof.
  revert s; induction p as [|a p IH]; intros s.
  - split; [intros _; now exists s|]. intros _. now destruct s.
  - destruct s as [|b s]; cbn [prefix].
    + split; [discriminate|]. intros [r E]. discriminate E.
    + destruct (ascii_dec a b) as [->|N].
      * rewrite IH. split; intros [r E]; exists r.
        -- cbn [append]. now rewrite E.
        -- cbn [append] in E. now injection E.
      * split; [discriminate|]. intros [r E]. cbn [append] in E.
        injection E as E1 E2. congruence.
Qed.

(** X22: [is_url] accepts exactly the names that start with the
    lower-case text [http://] or [https://]. *)
Theorem is_url_iff img :
  is_url img = true
  <-> exists rest, img = ("http://" ++ rest)%string \/ img = ("https://" ++ rest)%string.
Proof.
  unfold is_url. rewrite orb_true_iff, !prefix_iff. split.
  - intros [[r E]|[r E]]; exists r; auto.
  - intros [r [E|E]]; [left|right]; now exists r.
Qed.
